(** * goproxy: module identity resolver and archive assembler

    A shallow embedding of the resolver ([splitModuleMajorVer],
    [checkModulePathVer], [checkModVcsLocal]) and of the git-backed
    assembler ([serveModGit], [collectGitArchiveOpts], the local
    fast path of [cacheModGit]) of the caching Go module proxy.

    Go strings are byte sequences and are modelled by [string]
    (a list of 8-bit [ascii]).  The Go packages the code calls are
    modelled in modules of the same name. *)

From Stdlib Require Import String Ascii List ZArith Lia Bool Arith.
From Stdlib Require Import DecimalString.
Import ListNotations.

Local Open Scope list_scope.
Local Open Scope string_scope.

(* ================================================================= *)
(** ** Package [strings] *)

Module strings.

(** [s[:n]] *)
Fixpoint take (n : nat) (s : string) : string :=
  match n, s with
  | S n', String c s' => String c (take n' s')
  | _, _ => EmptyString
  end.

(** [s[n:]] *)
Fixpoint drop (n : nat) (s : string) : string :=
  match n, s with
  | S n', String _ s' => drop n' s'
  | _, _ => s
  end.

(** [strings.HasPrefix(s, prefix)] *)
Definition HasPrefix (s pre : string) : bool := String.prefix pre s.

(** [strings.HasSuffix(s, suffix)] *)
Definition HasSuffix (s suf : string) : bool :=
  (String.length suf <=? String.length s)%nat
  && (drop (String.length s - String.length suf) s =? suf).

(** [strings.CutPrefix(s, prefix)] *)
Definition CutPrefix (s pre : string) : string * bool :=
  if HasPrefix s pre then (drop (String.length pre) s, true) else (s, false).

(** [strings.TrimSuffix(s, suffix)] *)
Definition TrimSuffix (s suf : string) : string :=
  if HasSuffix s suf then take (String.length s - String.length suf) s else s.

(** [strings.LastIndexByte(s, c)]: the index of the last [c] in [s],
    [-1] when there is none. *)
Fixpoint LastIndexByte (s : string) (c : ascii) : Z :=
  match s with
  | EmptyString => (-1)%Z
  | String a s' =>
      let r := LastIndexByte s' c in
      if (r =? -1)%Z then (if Ascii.eqb a c then 0%Z else (-1)%Z)
      else (r + 1)%Z
  end.

(** [strings.Split(s, sep)] for a one-byte separator.  The result is
    never empty: [Split("", "/")] is [[""]]. *)
Fixpoint Split (s : string) (sep : ascii) : list string :=
  match s with
  | EmptyString => [EmptyString]
  | String c s' =>
      if Ascii.eqb c sep then EmptyString :: Split s' sep
      else match Split s' sep with
           | h :: t => String c h :: t
           | [] => [String c EmptyString]
           end
  end.

(** [strings.Join(elems, sep)] *)
Fixpoint Join (elems : list string) (sep : string) : string :=
  match elems with
  | [] => EmptyString
  | [x] => x
  | x :: xs => x ++ sep ++ Join xs sep
  end.

End strings.

(* ================================================================= *)
(** ** Package [strconv] *)

Module strconv.

Definition isDigit (c : ascii) : bool :=
  (48 <=? nat_of_ascii c)%nat && (nat_of_ascii c <=? 57)%nat.

Definition digitVal (c : ascii) : Z := Z.of_nat (nat_of_ascii c - 48).

(** The decimal value of a string of digits; [None] (a syntax error)
    at the first byte that is not a digit. *)
Fixpoint digits (acc : Z) (s : string) : option Z :=
  match s with
  | EmptyString => Some acc
  | String c s' =>
      if isDigit c then digits (acc * 10 + digitVal c)%Z s' else None
  end.

(** [strconv.Atoi(s)] on a platform with 64-bit [int]; [None] stands
    for a non-nil error (syntax or range).  An optional sign is
    followed by at least one decimal digit; no underscores (base 10). *)
Definition Atoi (s : string) : option Z :=
  match s with
  | EmptyString => None
  | String c rest =>
      let neg := Ascii.eqb c "-" in
      let ds := if neg || Ascii.eqb c "+" then rest else s in
      match ds with
      | EmptyString => None
      | _ =>
          match digits 0 ds with
          | None => None
          | Some n =>
              if neg then (if (n <=? 2 ^ 63)%Z then Some (- n)%Z else None)
              else (if (n <? 2 ^ 63)%Z then Some n else None)
          end
      end
  end.

End strconv.

(* ================================================================= *)
(** ** The resolver: major-version split and version check *)

Definition badComponent (comp : string) : bool :=
  match comp with
  | EmptyString => true
  | String c _ => Ascii.eqb c "."
  end.

(** [splitModuleMajorVer(modulePath)]; does not handle gopkg.in/. *)
Definition splitModuleMajorVer (modulePath : string) : string * string * bool :=
  let components := strings.Split modulePath "/" in
  if existsb badComponent components then ("", "", false)
  else if (List.length components <? 2)%nat then (modulePath, "", true)
  else
    let last := List.last components "" in
    match last with
    | EmptyString => ("", "", false)
    | String c rest =>
        if negb (Ascii.eqb c "v") then (modulePath, "", true)
        else match strconv.Atoi rest with
             | None => (modulePath, "", true)
             | Some _ =>
                 (strings.Join (List.removelast components) "/", last, true)
             end
    end.

(* ================================================================= *)
(** ** Package [golang.org/x/mod/semver] *)

Module semver.

Record parsed := mkParsed {
  major : string;
  minor : string;
  patch : string;
  short : string;
  prerelease : string;
  build : string
}.

(** Number of leading decimal digits of [s]. *)
Fixpoint digitRun (s : string) : nat :=
  match s with
  | String c s' => if strconv.isDigit c then S (digitRun s') else 0
  | EmptyString => 0
  end.

(** [parseInt(v)]: a decimal number without a leading zero, and the
    rest of the string. *)
Definition parseInt (v : string) : option (string * string) :=
  match v with
  | EmptyString => None
  | String c v' =>
      if negb (strconv.isDigit c) then None
      else
        let i := S (digitRun v') in
        if Ascii.eqb c "0" && negb (i =? 1)%nat then None
        else Some (strings.take i v, strings.drop i v)
  end.

Definition isIdentChar (c : ascii) : bool :=
  let n := nat_of_ascii c in
  ((65 <=? n) && (n <=? 90) || (97 <=? n) && (n <=? 122)
   || (48 <=? n) && (n <=? 57))%nat
  || Ascii.eqb c "-".

(** [isBadNum(v)]: all digits, more than one, and a leading zero. *)
Definition isBadNum (v : string) : bool :=
  let i := digitRun v in
  (i =? String.length v)%nat && (1 <? i)%nat
  && match v with String c _ => Ascii.eqb c "0" | EmptyString => false end.

(** [v[start:i]] *)
Definition slice (v : string) (start i : nat) : string :=
  strings.take (i - start) (strings.drop start v).

(** The scanning loop of [parsePrerelease]: [rest] is [v[i:]]; the
    result is the index at which the scan stops. *)
Fixpoint prereleaseLoop (v rest : string) (i start : nat) : option nat :=
  let finish :=
    if (start =? i)%nat || isBadNum (slice v start i) then None else Some i in
  match rest with
  | EmptyString => finish
  | String c rest' =>
      if Ascii.eqb c "+" then finish
      else if negb (isIdentChar c) && negb (Ascii.eqb c ".") then None
      else if Ascii.eqb c "." then
        if (start =? i)%nat || isBadNum (slice v start i) then None
        else prereleaseLoop v rest' (S i) (S i)
      else prereleaseLoop v rest' (S i) start
  end.

Definition parsePrerelease (v : string) : option (string * string) :=
  match v with
  | String c v' =>
      if negb (Ascii.eqb c "-") then None
      else
        match prereleaseLoop v v' 1 1 with
        | Some i => Some (strings.take i v, strings.drop i v)
        | None => None
        end
  | EmptyString => None
  end.

(** The scanning loop of [parseBuild]. *)
Fixpoint buildLoop (rest : string) (i start : nat) : option nat :=
  match rest with
  | EmptyString => if (start =? i)%nat then None else Some i
  | String c rest' =>
      if negb (isIdentChar c) && negb (Ascii.eqb c ".") then None
      else if Ascii.eqb c "." then
        if (start =? i)%nat then None else buildLoop rest' (S i) (S i)
      else buildLoop rest' (S i) start
  end.

Definition parseBuild (v : string) : option (string * string) :=
  match v with
  | String c v' =>
      if negb (Ascii.eqb c "+") then None
      else
        match buildLoop v' 1 1 with
        | Some i => Some (strings.take i v, strings.drop i v)
        | None => None
        end
  | EmptyString => None
  end.

Definition startsWith (c : ascii) (v : string) : bool :=
  match v with String a _ => Ascii.eqb a c | EmptyString => false end.

(** [parse(v)]; [None] when the Go function returns [ok = false]. *)
Definition parse (v : string) : option parsed :=
  match v with
  | EmptyString => None
  | String c1 v1 =>
      if negb (Ascii.eqb c1 "v") then None
      else
      match parseInt v1 with
      | None => None
      | Some (maj, v2) =>
          match v2 with
          | EmptyString => Some (mkParsed maj "0" "0" ".0.0" "" "")
          | String c2 v2' =>
              if negb (Ascii.eqb c2 ".") then None
              else
                match parseInt v2' with
                | None => None
                | Some (mnr, v3) =>
                    match v3 with
                    | EmptyString => Some (mkParsed maj mnr "0" ".0" "" "")
                    | String c3 v3' =>
                        if negb (Ascii.eqb c3 ".") then None
                        else
                          match parseInt v3' with
                          | None => None
                          | Some (pat, v4) =>
                              let pre :=
                                if startsWith "-" v4 then parsePrerelease v4
                                else Some ("", v4) in
                              match pre with
                              | None => None
                              | Some (prerel, v5) =>
                                  let bld :=
                                    if startsWith "+" v5 then parseBuild v5
                                    else Some ("", v5) in
                                  match bld with
                                  | None => None
                                  | Some (b, v6) =>
                                      if negb (v6 =? "") then None
                                      else Some (mkParsed maj mnr pat "" prerel b)
                                  end
                              end
                          end
                    end
                end
          end
      end
  end.

(** [semver.Build(v)] *)
Definition Build (v : string) : string :=
  match parse v with
  | None => ""
  | Some p => build p
  end.

(** [semver.Canonical(v)] *)
Definition Canonical (v : string) : string :=
  match parse v with
  | None => ""
  | Some p =>
      if negb (build p =? "") then
        strings.take (String.length v - String.length (build p)) v
      else if negb (short p =? "") then v ++ short p
      else v
  end.

End semver.

(** [checkModulePathVer(modulePath, ver)], with the named results
    [(path, major, incompat, ok)].  A bare [return] yields the current
    values of the named results: after line 114 these are the results
    of [splitModuleMajorVer], so the [return] of line 119 carries the
    [ok] of the split. *)
Definition checkModulePathVer (modulePath ver : string)
  : string * string * bool * bool :=
  let incompat := semver.Build ver =? "+incompatible" in
  if strings.HasPrefix modulePath "gopkg.in/" then
    if incompat then ("", "", incompat, false)
    else
      let idx := strings.LastIndexByte modulePath "." in
      if negb (idx =? -1)%Z
         && strings.HasPrefix ver (strings.drop (Z.to_nat (idx + 1)) modulePath)
      then (modulePath, "", false, true)
      else ("", "", incompat, false)
  else
    let '(path, major, ok) := splitModuleMajorVer modulePath in
    if negb ok then (path, major, incompat, ok)
    else if (major =? "") && negb (strings.HasPrefix ver "v0.")
            && negb (strings.HasPrefix ver "v1.") && negb incompat
    then (path, major, incompat, ok)
    else (path, major, incompat, true).

(* ================================================================= *)
(** ** Package [path] *)

Module path.

(** The component loop of [path.Clean]: [out] is the list of kept
    components and [dotdot] the number of leading [..] components
    that can no longer be removed. *)
Fixpoint cleanLoop (rooted : bool) (comps out : list string) (dotdot : nat)
  : list string :=
  match comps with
  | [] => out
  | c :: cs =>
      if (c =? "") || (c =? ".") then cleanLoop rooted cs out dotdot
      else if c =? ".." then
        if (dotdot <? List.length out)%nat
        then cleanLoop rooted cs (List.removelast out) dotdot
        else if negb rooted
        then cleanLoop rooted cs (out ++ [".."])%list (S (List.length out))
        else cleanLoop rooted cs out dotdot
      else cleanLoop rooted cs (out ++ [c])%list dotdot
  end.

(** [path.Clean(p)] *)
Definition Clean (p : string) : string :=
  match p with
  | EmptyString => "."
  | String c _ =>
      let rooted := Ascii.eqb c "/" in
      let out := cleanLoop rooted (strings.Split p "/") [] 0 in
      let s := (if rooted then "/" else "") ++ strings.Join out "/" in
      if s =? "" then "." else s
  end.

(** [path.Join(elem...)]: empty elements are ignored and the result
    is cleaned; the empty string when every element is empty. *)
Definition Join (elem : list string) : string :=
  match List.filter (fun e => negb (e =? "")) elem with
  | [] => ""
  | es => Clean (strings.Join es "/")
  end.

End path.

(* ================================================================= *)
(** ** Errors, subprocesses and the environment *)

(** Go [error] values, as far as the code tells them apart. *)
Inductive error : Type :=
| ErrNotExist                               (* os.ErrNotExist *)
| ExitError (code : Z) (msg : string)       (* *exec.ExitError *)
| ErrorString (msg : string).               (* errors.New and the rest *)

(** [err.Error()] *)
Definition Error (e : error) : string :=
  match e with
  | ErrNotExist => "file does not exist"
  | ExitError _ msg => msg
  | ErrorString msg => msg
  end.

(** What [archive/tar]'s reader yields on a byte stream: the sequence
    of results of [Next], each entry with the result of reading its
    content to the end ([None] for a read error). *)
Inductive TarStream : Type :=
| TarEOF
| TarError (e : error)
| TarEntry (Name : string) (Typeflag : ascii) (data : option string)
           (rest : TarStream).

Definition TypeReg : ascii := "0"%char.
Definition TypeDir : ascii := "5"%char.

(** A started subprocess: its standard output, read as text and read
    through a tar reader, and the result of [Wait]. *)
Record Proc := mkProc {
  stdout : string;
  tarOut : TarStream;
  waitErr : option error
}.

Record RevInfo := mkRevInfo {
  Version : string;
  Time : Z
}.

(** The zero [time.Time], in seconds relative to the Unix epoch. *)
Definition zeroTime : Z := (-62135596800)%Z.

(** The environment of one request: the state of the file system and
    of the cached repositories, seen through the calls the code makes,
    and the functions of external packages that are not modelled.
    Instants are seconds since the Unix epoch, in UTC. *)
Record World := mkWorld {
  (** [os.Readlink(name)] *)
  Readlink : string -> error + string;
  (** [exec.Command(prog, args...)] started in directory [dir]:
      the start error, or the started process *)
  spawn : string -> string -> list string -> error + Proc;
  (** [createUnnamedTmpFile(dir, perm)] *)
  tmpFile : string -> option error;
  (** [unix.Access(path, unix.O_RDONLY)] *)
  Access : string -> option error;
  (** [module.IsPseudoVersion], [module.PseudoVersionTime] and
      [module.PseudoVersionRev] of golang.org/x/mod/module *)
  IsPseudoVersion : string -> bool;
  PseudoVersionTime : string -> Z;
  PseudoVersionRev : string -> string;
  (** [strconv.ParseInt(strings.TrimSpace(s), 10, 64)] *)
  parseUnixTime : string -> error + Z;
  (** [json.Marshal(info)] *)
  jsonMarshal : RevInfo -> error + string;
  (** [t.String()] for an instant *)
  timeString : Z -> string
}.

(** One subprocess started by the proxy. *)
Inductive Event : Type :=
| Exec (prog dir : string) (args : list string).

(** Computations that start subprocesses and may stop with an error:
    the events in the order they happen, and the outcome. *)
Definition M (A : Type) : Type := list Event * (error + A).

Definition ret {A} (a : A) : M A := ([], inr a).

Definition fail {A} (e : error) : M A := ([], inl e).

Definition bind {A B} (m : M A) (f : A -> M B) : M B :=
  match m with
  | (t, inr a) => let '(t', r) := f a in ((t ++ t')%list, r)
  | (t, inl e) => (t, inl e)
  end.

Notation "x <- m ;; k" := (bind m (fun x => k))
  (at level 61, m at next level, right associativity).
Notation "' p <- m ;; k" := (bind m (fun x => let 'p := x in k))
  (at level 61, p pattern, m at next level, right associativity).

Definition trace {A} (m : M A) : list Event := fst m.
Definition outcome {A} (m : M A) : error + A := snd m.

(** [errors.New(s)] *)
Definition errors_New (s : string) : error := ErrorString s.

Definition GitCommand : string := "git".

(** [getGitOutputCmd(ctx, wkdir, args...)]: starts git with a pipe on
    its standard output. *)
Definition getGitOutputCmd (W : World) (wkdir : string) (args : list string)
  : M (error + Proc) :=
  ([Exec GitCommand wkdir args], inr (spawn W GitCommand wkdir args)).

(** [cmd.Run()] for a command built by [exec.Command] or [getGitCmd]:
    start, then wait. *)
Definition Run (W : World) (prog dir : string) (args : list string)
  : M (option error) :=
  ([Exec prog dir args],
   inr match spawn W prog dir args with
       | inl e => Some e
       | inr p => waitErr p
       end).

(** [runGitOutputShort(ctx, wkdir, args...)] *)
Definition runGitOutputShort (W : World) (wkdir : string) (args : list string)
  : M (error + string) :=
  r <- getGitOutputCmd W wkdir args ;;
  match r with
  | inl err => ret (inl err)
  | inr p =>
      match waitErr p with
      | Some err => ret (inl err)
      | None => ret (inr (stdout p))
      end
  end.

(** [getSingleFileFromTar(reader, name, ty)] *)
Definition getSingleFileFromTar (tr : TarStream) (name : string) (ty : ascii)
  : error + string :=
  match tr with
  | TarEntry n t (Some data) _ =>
      if (n =? name) && Ascii.eqb t ty then inr data
      else inl (errors_New ("file " ++ name ++ " not found in tar"))
  | TarEntry n t None _ =>
      if (n =? name) && Ascii.eqb t ty
      then inl (errors_New "unexpected EOF")
      else inl (errors_New ("file " ++ name ++ " not found in tar"))
  | _ => inl (errors_New ("file " ++ name ++ " not found in tar"))
  end.

(** [copySingleFileFromTar(reader, writer, name, ty)]: the error. *)
Definition copySingleFileFromTar (tr : TarStream) (name : string) (ty : ascii)
  : option error :=
  match getSingleFileFromTar tr name ty with
  | inl e => Some e
  | inr _ => None
  end.

(* ================================================================= *)
(** ** Local lookup *)

(** The loop of [checkModVcsLocal]; [fuel] bounds the number of
    iterations and [None] means that it ran out. *)
Fixpoint checkModVcsLocal_loop (W : World) (fuel : nat) (modulePath : string)
  (sep : Z) (subPath : string)
  : option (string * string * string * option error) :=
  match fuel with
  | O => None
  | S fuel' =>
      let parentPath := strings.take (Z.to_nat sep) modulePath in
      let vcsdir := path.Join [parentPath; ".vcs"] in
      match Readlink W vcsdir with
      | inr target => Some (parentPath, subPath, target, None)
      | inl _ =>
          let sep := strings.LastIndexByte parentPath "/" in
          if (sep =? -1)%Z then Some ("", "", "", Some ErrNotExist)
          else checkModVcsLocal_loop W fuel' modulePath sep
                 (strings.drop (Z.to_nat (sep + 1)) modulePath)
      end
  end.

(** [p.checkModVcsLocal(modulePath)]: each iteration shortens the
    parent path, so one more iteration than the path has bytes is
    enough. *)
Definition checkModVcsLocal (W : World) (modulePath : string)
  : option (string * string * string * option error) :=
  checkModVcsLocal_loop W (S (String.length modulePath)) modulePath
    (Z.of_nat (String.length modulePath)) "".

(* ================================================================= *)
(** ** First pass of the archive construction *)

Definition vendorExcludes : list string :=
  [":(exclude)vendor/*.go"; ":(exclude)vendor/*/**"; ":(exclude,top)**/vendor/*"].

Record Survey := mkSurvey {
  hasLicense : bool;
  hasVerLicense : bool;
  useVersionedDir : bool;
  filteredPaths : list string
}.

(** The loop of [collectGitArchiveOpts] over the entries of the first
    archive. *)
Fixpoint surveyLoop (vertag : string) (tr : TarStream) (st : Survey)
  : error + Survey :=
  match tr with
  | TarEOF => inr st
  | TarError err =>
      inl (errors_New ("failed to parse git archive (first pass): " ++ Error err))
  | TarEntry name ty _ rest =>
      let verLicense := vertag ++ "/LICENSE" in
      if Ascii.eqb ty TypeReg then
        let st1 :=
          if name =? "LICENSE"
          then mkSurvey true (hasVerLicense st) (useVersionedDir st) (filteredPaths st)
          else if name =? verLicense
          then mkSurvey (hasLicense st) true (useVersionedDir st) (filteredPaths st)
          else st in
        if strings.HasSuffix name "/go.mod" then
          if strings.TrimSuffix name "/go.mod" =? vertag
          then surveyLoop vertag rest
                 (mkSurvey (hasLicense st1) (hasVerLicense st1) true (filteredPaths st1))
          else surveyLoop vertag rest
                 (mkSurvey (hasLicense st1) (hasVerLicense st1) (useVersionedDir st1)
                    (filteredPaths st1 ++ [strings.TrimSuffix name "go.mod"])%list)
        else surveyLoop vertag rest st1
      else if Ascii.eqb ty TypeDir then surveyLoop vertag rest st
      else surveyLoop vertag rest
             (mkSurvey (hasLicense st) (hasVerLicense st) (useVersionedDir st)
                (filteredPaths st ++ [name])%list)
  end.

(** The exclusions of the second pass, one recorded path at a time. *)
Definition excludeArgs (useVersionedDir : bool) (vertag : string)
  (filteredPaths : list string) : list string :=
  List.flat_map
    (fun p =>
       if negb useVersionedDir then [":(exclude,top)" ++ p]
       else
         let '(subPath, contain) := strings.CutPrefix p (vertag ++ "/") in
         if negb contain then [] else [":(exclude,top)" ++ subPath])
    filteredPaths.

(** [collectGitArchiveOpts(gitdir, prefix, treeish, vertag)]: the
    arguments of the second pass and the license flag. *)
Definition collectGitArchiveOpts (W : World) (gitdir prefix treeish vertag : string)
  : M (list string * bool) :=
  r <- getGitOutputCmd W gitdir
         (["archive"; "--format=tar"; treeish] ++ vendorExcludes)%list ;;
  match r with
  | inl err =>
      fail (errors_New ("failed to start git archive (first pass): " ++ Error err))
  | inr p =>
      match surveyLoop vertag (tarOut p) (mkSurvey false false false []) with
      | inl err => fail err
      | inr st =>
          match waitErr p with
          | Some err =>
              fail (errors_New
                      ("git archive (first pass) returned error: " ++ Error err))
          | None =>
              let hasLicense :=
                if useVersionedDir st then hasVerLicense st else hasLicense st in
              let treeish :=
                if useVersionedDir st then
                  (if negb (strings.HasSuffix treeish ":") then treeish ++ "/"
                   else treeish) ++ vertag
                else treeish in
              let cmdArgs :=
                (["archive"; "--prefix"; prefix; "--format=zip"; "-0"; treeish]
                 ++ vendorExcludes
                 ++ excludeArgs (useVersionedDir st) vertag (filteredPaths st))%list in
              ret (cmdArgs, hasLicense)
          end
      end
  end.

(* ================================================================= *)
(** ** The git-backed assembler *)

(** What [serveModGit] hands back to be streamed. *)
Inductive Reader : Type :=
| BytesReader (data : string)   (* io.NopCloser(bytes.NewReader(data)) *)
| ArchiveTmp                    (* the unnamed temporary file of the archive *)
| NilReader.                    (* nil *)

(** The loop at label [retry_refspec] of [serveModGit] (lines 37-56):
    the refspec that resolved and the commit time.  When the guard of
    line 46 holds [refspec] is ['v'] followed by [rest], and
    [strings.CutPrefix(refspec, "v")] is [rest]. *)
Fixpoint serveModGit_retry_refspec (W : World) (gitdir : string)
  (pseudoVer : bool) (subPath refspec : string) {struct refspec}
  : M (string * Z) :=
  unixTime <- runGitOutputShort W gitdir ["log"; "-1"; "--format=%ct"; refspec] ;;
  let r := match unixTime with
           | inl err => inl err
           | inr s => parseUnixTime W s
           end in
  match r with
  | inr tm => ret (refspec, tm)
  | inl err =>
      let failed :=
        fail (errors_New ("failed to get commit date: " ++ Error err)) in
      if negb pseudoVer && (subPath =? "") && strings.HasPrefix refspec "v" then
        match refspec with
        | String _ rest => serveModGit_retry_refspec W gitdir pseudoVer subPath rest
        | EmptyString => failed
        end
      else failed
  end.

(** Lines 25-64 of [serveModGit]: the refspec, its resolution and the
    check of the commit time against a pseudo-version. *)
Definition serveModGit_resolve (W : World) (modulePath subPath verCanonical : string)
  : M (string * Z) :=
  let pseudoVer := IsPseudoVersion W verCanonical in
  let timestamp := if pseudoVer then PseudoVersionTime W verCanonical else zeroTime in
  let refspec :=
    if pseudoVer then PseudoVersionRev W verCanonical
    else if negb (subPath =? "") then strings.Join [subPath; verCanonical] "/"
    else verCanonical in
  let gitdir := path.Join [modulePath; ".git"] in
  '(refspec, tm) <- serveModGit_retry_refspec W gitdir pseudoVer subPath refspec ;;
  let timestampLocal := tm in
  if negb (timestamp =? zeroTime)%Z && negb (timestampLocal =? timestamp)%Z
  then fail (errors_New ("timestamp mismatch: " ++ timeString W timestamp
                         ++ " vs " ++ timeString W timestampLocal))
  else ret (refspec, timestampLocal).

(** [modFull] of [serveModGit] (lines 69-75). *)
Definition modFull (modulePath subPath verMajorTag : string) : string :=
  let m := modulePath in
  let m := if negb (subPath =? "") then strings.Join [m; subPath] "/" else m in
  if negb (verMajorTag =? "") then strings.Join [m; verMajorTag] "/" else m.

(** One pass through the body of label [retry_mod] (lines 97-108):
    the content of [go.mod], or [None] when it could not be taken
    from the archive. *)
Definition serveModGit_extractMod (W : World) (gitdir refspec tree : string)
  : M (option string) :=
  r <- getGitOutputCmd W gitdir ["archive"; "--format=tar"; tree; "go.mod"] ;;
  match r with
  | inl err =>
      fail (errors_New ("Failed to run git archive (go.mod) " ++ refspec
                        ++ ": " ++ Error err))
  | inr p =>
      match getSingleFileFromTar (tarOut p) "go.mod" TypeReg, waitErr p with
      | inr data, None => ret (Some data)
      | _, _ => ret None
      end
  end.

(** The [.mod] branch of [serveModGit] (lines 83-116).  The jump of
    line 111 is taken at most once, since it sets [cmdArgs[2]] to
    [treeish]; the loop is written out. *)
Definition serveModGit_mod (W : World) (modulePath verMajorTag subPath : string)
  (gitdir refspec : string) : M Reader :=
  let treeish := refspec ++ "^{tree}:" in
  let treeish := if negb (subPath =? "") then treeish ++ subPath ++ "/" else treeish in
  let cmdArgs2 := if negb (verMajorTag =? "") then treeish ++ verMajorTag else treeish in
  let synthesized :=
    ret (BytesReader ("module " ++ modFull modulePath subPath verMajorTag
                      ++ String "010"%char "")) in
  d <- serveModGit_extractMod W gitdir refspec cmdArgs2 ;;
  match d with
  | Some data => ret (BytesReader data)
  | None =>
      if negb (cmdArgs2 =? treeish) then
        d <- serveModGit_extractMod W gitdir refspec treeish ;;
        match d with
        | Some data => ret (BytesReader data)
        | None => synthesized
        end
      else synthesized
  end.

(** Passes one to three of the [.zip] branch (lines 118-156): the
    license flag of the first pass, once the archive is built and its
    directory entries are removed. *)
Definition serveModGit_zip123 (W : World) (verMajorTag subPath : string)
  (gitdir refspec prefix : string) : M bool :=
  '(cmdArgs, hasLicense) <-
     collectGitArchiveOpts W gitdir prefix (refspec ++ "^{tree}:" ++ subPath)
       verMajorTag ;;
  match tmpFile W ".tmp" with
  | Some err =>
      fail (errors_New ("failed to create temp file (archive): " ++ Error err))
  | None =>
      err <- Run W GitCommand gitdir cmdArgs ;;
      match err with
      | Some err =>
          fail (errors_New ("failed to run git archive (second pass): " ++ Error err))
      | None =>
          err <- Run W "zip" "" ["-d"; ".tmp/zip-fd3.zip"; "*/"] ;;
          match err with
          | None => ret hasLicense
          | Some (ExitError 12 _) => ret hasLicense
          | Some err =>
              fail (errors_New
                      ("failed to trim zip file (third pass): " ++ Error err))
          end
      end
  end.

(** The fourth pass (lines 162-202): the LICENSE of the repository
    root is added to the archive. *)
Definition serveModGit_zip4 (W : World) (gitdir refspec prefix : string)
  : M Reader :=
  r <- getGitOutputCmd W gitdir ["archive"; "--format=tar"; refspec ++ "^{tree}"; "LICENSE"] ;;
  match r with
  | inl err =>
      fail (errors_New ("failed to run git archive (LICENSE) " ++ refspec
                        ++ ": " ++ Error err))
  | inr out =>
      let licDir := path.Join [".tmp/licenses"; prefix] in
      let licPath := path.Join [licDir; "LICENSE"] in
      let append :=
        err <- Run W "zip" ".tmp/licenses"
                 ["-g"; "../zip-fd3.zip"; path.Join [prefix; "LICENSE"]] ;;
        match err with
        | Some err =>
            fail (errors_New ("failed to append LICENSE to zip: " ++ Error err))
        | None => ret ArchiveTmp
        end in
      match Access W licPath with
      | None => append
      | Some _ =>
          match tmpFile W licDir with
          | Some err =>
              fail (errors_New
                      ("failed to create temp file (LICENSE): " ++ Error err))
          | None =>
              match copySingleFileFromTar (tarOut out) "LICENSE" TypeReg with
              | Some _ => ret ArchiveTmp
              | None => append
              end
          end
      end
  end.

(** The [.zip] branch of [serveModGit] (lines 117-203). *)
Definition serveModGit_zip (W : World) (verMajorTag subPath : string)
  (gitdir refspec prefix : string) : M Reader :=
  hasLicense <- serveModGit_zip123 W verMajorTag subPath gitdir refspec prefix ;;
  if hasLicense || ((subPath =? "") && (verMajorTag =? "")) then ret ArchiveTmp
  else serveModGit_zip4 W gitdir refspec prefix.

(** [p.serveModGit(modulePath, verMajorTag, subPath, verCanonical, ext, incompat)] *)
Definition serveModGit (W : World)
  (modulePath verMajorTag subPath verCanonical ext : string) (incompat : bool)
  : M Reader :=
  '(refspec, timestampLocal) <- serveModGit_resolve W modulePath subPath verCanonical ;;
  let gitdir := path.Join [modulePath; ".git"] in
  let ver := if incompat then verCanonical ++ "+incompatible" else verCanonical in
  let modFull := modFull modulePath subPath verMajorTag in
  if ext =? ".info" then
    match jsonMarshal W (mkRevInfo ver timestampLocal) with
    | inl err => fail (errors_New ("Failed to encode to json: " ++ Error err))
    | inr data => ret (BytesReader data)
    end
  else if ext =? ".mod" then
    serveModGit_mod W modulePath verMajorTag subPath gitdir refspec
  else if ext =? ".zip" then
    let prefix := strings.Join [modFull; ver] "@" ++ "/" in
    serveModGit_zip W verMajorTag subPath gitdir refspec prefix
  else ret NilReader.

(* ================================================================= *)
(** ** The fast path of the cache population *)

(** The loop at label [retry_refspec] of [cacheModGit] (lines 89-101):
    the error of the last query. *)
Fixpoint cacheModGit_retry_refspec (W : World) (gitdir : string)
  (pseudoVer : bool) (subPath refspec : string) {struct refspec}
  : M (option error) :=
  err <- Run W GitCommand gitdir ["log"; "-1"; "--format=%H"; refspec] ;;
  match err with
  | None => ret None
  | Some e =>
      if negb pseudoVer && (subPath =? "") && strings.HasPrefix refspec "v" then
        match refspec with
        | String _ rest => cacheModGit_retry_refspec W gitdir pseudoVer subPath rest
        | EmptyString => ret (Some e)
        end
      else ret (Some e)
  end.

(** Lines 79-106 of [cacheModGit], the block for [remote == ""]:
    whether the version is found in the local repository, in which
    case the function returns at line 104 and nothing is enqueued. *)
Definition cacheModGit_local (W : World) (modulePath subPath ver : string)
  : M bool :=
  let refspec := semver.Canonical ver in
  let pseudoVer := IsPseudoVersion W refspec in
  let refspec :=
    if pseudoVer then PseudoVersionRev W refspec
    else if negb (subPath =? "") then strings.Join [subPath; refspec] "/"
    else refspec in
  let gitdir := path.Join [modulePath; ".git"] in
  err <- cacheModGit_retry_refspec W gitdir pseudoVer subPath refspec ;;
  match err with
  | None => ret true
  | Some _ => ret false
  end.

(* ================================================================= *)
(** ** Vocabulary of the statements *)

(** Whether byte [c] occurs in [s]. *)
Fixpoint occurs (c : ascii) (s : string) : bool :=
  match s with
  | EmptyString => false
  | String a s' => Ascii.eqb a c || occurs c s'
  end.

(** A decimal integer as [strconv.Atoi] takes it on a 64-bit platform:
    an optional sign, at least one digit, a value that fits [int]. *)
Inductive intLiteral : string -> Prop :=
| lit_unsigned (ds : string) (n : Z) :
    ds <> "" -> strconv.digits 0 ds = Some n -> (n < 2 ^ 63)%Z ->
    intLiteral ds
| lit_plus (ds : string) (n : Z) :
    ds <> "" -> strconv.digits 0 ds = Some n -> (n < 2 ^ 63)%Z ->
    intLiteral (String "+" ds)
| lit_minus (ds : string) (n : Z) :
    ds <> "" -> strconv.digits 0 ds = Some n -> (n <= 2 ^ 63)%Z ->
    intLiteral (String "-" ds).

(** A non-negative integer in the plain sense: one digit or more. *)
Definition nonNegInteger (ds : string) : Prop :=
  ds <> "" /\ exists n, strconv.digits 0 ds = Some n.

(** The major-version split as the specification words it, for a path
    whose components are [components]. *)
Definition splitAsSpecified (modulePath : string) : Prop :=
  let components := strings.Split modulePath "/" in
  (Exists (fun c => badComponent c = true) components ->
   splitModuleMajorVer modulePath = ("", "", false)) /\
  (Forall (fun c => badComponent c = false) components ->
   (forall ds, List.last components "" = String "v" ds -> nonNegInteger ds ->
      splitModuleMajorVer modulePath =
        (strings.Join (List.removelast components) "/", String "v" ds, true)) /\
   ((forall ds, List.last components "" = String "v" ds -> ~ nonNegInteger ds) ->
      splitModuleMajorVer modulePath = (modulePath, "", true))).

(** The probe of [checkModVcsLocal] at a parent path: the target of
    the symlink [.vcs] under it, or the error of reading it. *)
Definition probe (W : World) (parentPath : string) : error + string :=
  Readlink W (path.Join [parentPath; ".vcs"]).

(** [P] is the whole of [M], or the part of [M] before one of its
    slashes; [sub] is what follows that slash. *)
Definition boundaryPrefix (P sub M : string) : Prop :=
  (P = M /\ sub = "") \/ M = P ++ "/" ++ sub.

(** What the local lookup owes for the module path [M]. *)
Definition lookupSpec (W : World) (M : string)
  (r : option (string * string * string * option error)) : Prop :=
  match r with
  | Some (P, sub, target, None) =>
      boundaryPrefix P sub M /\ probe W P = inr target /\
      (forall P' S', boundaryPrefix P' S' M ->
                     String.length P < String.length P' ->
                     exists e, probe W P' = inl e)
  | Some (P, sub, target, Some err) =>
      P = "" /\ sub = "" /\ target = "" /\ err = ErrNotExist /\
      (forall P' S', boundaryPrefix P' S' M -> exists e, probe W P' = inl e)
  | None => False
  end.

(** The event of running [git log -1 <format> <refspec>]. *)
Definition gitLog (gitdir format refspec : string) : Event :=
  Exec GitCommand gitdir ["log"; "-1"; format; refspec].

Definition isGitLog (e : Event) : bool :=
  match e with
  | Exec prog _ (a :: _) => (prog =? GitCommand) && (a =? "log")
  | Exec _ _ [] => false
  end.

(** The refspec as the specification words it. *)
Definition refspecAsSpecified (pseudo : bool) (rev subdir version : string)
  : string :=
  if pseudo then rev
  else if subdir =? "" then version
  else subdir ++ "/" ++ version.

(** The refspecs queried, as the specification words it: one query,
    and one more without the leading [v] when the first fails, no
    subdirectory is involved, the version is not a pseudo-version and
    the refspec starts with [v]. *)
Definition queriesAsSpecified (pseudo : bool) (subdir refspec : string)
  (firstFails : bool) : list string :=
  if firstFails && negb pseudo && (subdir =? "")
     && strings.HasPrefix refspec "v"
  then [refspec; strings.drop 1 refspec]
  else [refspec].

(** Whether the existence query of [cacheModGit] fails on [refspec]. *)
Definition hashQueryFails (W : World) (gitdir refspec : string) : bool :=
  match outcome (Run W GitCommand gitdir ["log"; "-1"; "--format=%H"; refspec]) with
  | inr None => false
  | _ => true
  end.

(** Whether the commit-time query of [serveModGit] fails on [refspec]:
    the command fails or its output is not an integer. *)
Definition timeQueryFails (W : World) (gitdir refspec : string) : bool :=
  match outcome (runGitOutputShort W gitdir
                   ["log"; "-1"; "--format=%ct"; refspec]) with
  | inr (inr s) =>
      match parseUnixTime W s with
      | inr _ => false
      | inl _ => true
      end
  | _ => true
  end.

(** A computation that starts no subprocess of the kind [P]. *)
Definition silent {A} (P : Event -> bool) (m : M A) : Prop :=
  List.filter P (trace m) = [].

(** A computation that runs no [git log]. *)
Definition quiet {A} (m : M A) : Prop := silent isGitLog m.

(** The line feed. *)
Definition LF : string := String "010"%char "".

(** The event of extracting [go.mod] from the tree [tree]. *)
Definition modArchive (gitdir tree : string) : Event :=
  Exec GitCommand gitdir ["archive"; "--format=tar"; tree; "go.mod"].

(** What extracting [go.mod] from [tree] comes to: the error of
    starting git, or else the content of the file, [None] when the
    archive does not begin with a regular file [go.mod] or git
    reports a failure. *)
Definition extraction (W : World) (gitdir tree : string)
  : error + option string :=
  match spawn W GitCommand gitdir ["archive"; "--format=tar"; tree; "go.mod"] with
  | inl err => inl err
  | inr p =>
      match getSingleFileFromTar (tarOut p) "go.mod" TypeReg, waitErr p with
      | inr data, None => inr (Some data)
      | _, _ => inr None
      end
  end.

(** The extraction ran and gave no [go.mod]. *)
Definition extractionFails (W : World) (gitdir tree : string) : bool :=
  match extraction W gitdir tree with
  | inr None => true
  | _ => false
  end.

(** The repository root joined with the subdirectory and the major
    tag, those that are not empty. *)
Definition fullModulePath (modulePath subPath verMajorTag : string) : string :=
  modulePath
  ++ (if subPath =? "" then "" else "/" ++ subPath)
  ++ (if verMajorTag =? "" then "" else "/" ++ verMajorTag).

(** The tree [<refspec>^{tree}:<subdir>/], without the slash when
    there is no subdirectory. *)
Definition subdirTree (refspec subPath : string) : string :=
  refspec ++ "^{tree}:" ++ (if subPath =? "" then "" else subPath ++ "/").

(** The event that opens the fourth pass: extracting [LICENSE] from
    the root tree.  It is the only [git archive] with four arguments
    of which the last is [LICENSE]. *)
Definition isLicenseArchive (e : Event) : bool :=
  match e with
  | Exec prog _ [a; _; _; d] =>
      (prog =? GitCommand) && (a =? "archive") && (d =? "LICENSE")
  | _ => false
  end.

(** The fourth pass as the specification words it: skipped exactly
    when the first pass found no LICENSE and the request has neither
    subdirectory nor major tag. *)
Definition licensePassAsSpecified (W : World)
  (modulePath verMajorTag subPath verCanonical : string) (incompat : bool)
  : Prop :=
  forall refspec timestampLocal lic,
    outcome (serveModGit_resolve W modulePath subPath verCanonical)
      = inr (refspec, timestampLocal) ->
    outcome
      (serveModGit_zip123 W verMajorTag subPath (path.Join [modulePath; ".git"])
         refspec
         (strings.Join
            [modFull modulePath subPath verMajorTag;
             if incompat then verCanonical ++ "+incompatible" else verCanonical]
            "@" ++ "/"))
      = inr lic ->
    (List.filter isLicenseArchive
       (trace (serveModGit W modulePath verMajorTag subPath verCanonical ".zip"
                 incompat)) = []
     <-> (lic = false /\ subPath = "" /\ verMajorTag = "")).

(* ----------------------------------------------------------------- *)
(** *** A cache with one repository *)

Fixpoint argsAre (args expected : list string) : bool :=
  match args, expected with
  | [], [] => true
  | a :: args', e :: expected' => (a =? e) && argsAre args' expected'
  | _, _ => false
  end.

Definition isSpace (c : ascii) : bool :=
  let n := nat_of_ascii c in
  ((9 <=? n) && (n <=? 13))%nat || (n =? 32)%nat.

Fixpoint trimLeft (s : string) : string :=
  match s with
  | String c r => if isSpace c then trimLeft r else s
  | EmptyString => EmptyString
  end.

Fixpoint trimRight (s : string) : string :=
  match s with
  | EmptyString => EmptyString
  | String c r =>
      let r' := trimRight r in
      if (r' =? "") && isSpace c then "" else String c r'
  end.

Definition exitStatus (code : Z) (msg : string) : error + Proc :=
  inr (mkProc "" TarEOF (Some (ExitError code msg))).

(** The repository [example.com/a], cached under the working
    directory, with the single tag [v2.0.0]: a [LICENSE] and a
    [main.go] at its root, no [go.mod], no directory [v2]. *)
Definition exampleSpawn (prog dir : string) (args : list string) : error + Proc :=
  if negb (prog =? "git") then
    if prog =? "zip" then exitStatus 12 "exit status 12"
    else inl (ErrorString "executable file not found in $PATH")
  else if negb (dir =? "example.com/a/.git") then
    inl (ErrorString "chdir: no such file or directory")
  else if argsAre args ["log"; "-1"; "--format=%ct"; "v2.0.0"] then
    inr (mkProc ("1700000000" ++ LF) TarEOF None)
  else if argsAre args ["log"; "-1"; "--format=%H"; "v2.0.0"] then
    inr (mkProc ("8f3b1c0d9e7a4b6c5d2e1f0a9b8c7d6e5f4a3b2c" ++ LF) TarEOF None)
  else if argsAre args (["archive"; "--format=tar"; "v2.0.0^{tree}:"]
                        ++ vendorExcludes)%list then
    inr (mkProc ""
           (TarEntry "LICENSE" TypeReg (Some "MIT")
              (TarEntry "main.go" TypeReg (Some "package main") TarEOF))
           None)
  else if argsAre args ["archive"; "--format=tar"; "v2.0.0^{tree}"; "LICENSE"] then
    inr (mkProc "" (TarEntry "LICENSE" TypeReg (Some "MIT") TarEOF) None)
  else if argsAre (List.firstn 2 args) ["archive"; "--prefix"] then
    inr (mkProc "" TarEOF None)
  else exitStatus 128 "exit status 128".

Definition exampleWorld : World := {|
  Readlink := fun name =>
    if name =? "example.com/a/.vcs" then inr ".git" else inl ErrNotExist;
  spawn := exampleSpawn;
  tmpFile := fun _ => None;
  Access := fun _ => Some ErrNotExist;
  (* no request in this world is for a pseudo-version *)
  IsPseudoVersion := fun _ => false;
  PseudoVersionTime := fun _ => zeroTime;
  PseudoVersionRev := fun _ => "";
  parseUnixTime := fun s =>
    match strconv.Atoi (trimLeft (trimRight s)) with
    | Some n => inr n
    | None => inl (ErrorString "invalid syntax")
    end;
  (* [.info] is not asked for in this world *)
  jsonMarshal := fun _ => inl (ErrorString "unsupported");
  timeString := fun _ => ""
|}.

(* ================================================================= *)
(** ** Request parsing and routing *)

(** [strings.Index(s, substr)]: the index of the first instance of
    [substr] in [s], [-1] when there is none. *)
Fixpoint strings_Index (s substr : string) : Z :=
  if strings.HasPrefix s substr then 0%Z
  else match s with
       | EmptyString => (-1)%Z
       | String _ s' =>
           let r := strings_Index s' substr in
           if (r =? -1)%Z then (-1)%Z else (r + 1)%Z
       end.

(** [strings.Cut(s, sep)] *)
Definition strings_Cut (s sep : string) : string * string * bool :=
  let i := strings_Index s sep in
  if (0 <=? i)%Z
  then (strings.take (Z.to_nat i) s,
        strings.drop (Z.to_nat i + String.length sep) s, true)
  else (s, "", false).

(** [strings.CutSuffix(s, suffix)] *)
Definition strings_CutSuffix (s suffix : string) : string * bool :=
  if negb (strings.HasSuffix s suffix) then (s, false)
  else (strings.take (String.length s - String.length suffix) s, true).

(** [path.Ext(p)]: the suffix of [p] that begins at the last dot of
    its last slash-separated element, empty when there is no dot.
    The Go loop scans from the end and stops at the first dot or
    slash; read from the front, the scan stops inside the rest of the
    string whenever the rest holds a dot or a slash. *)
Fixpoint path_Ext (p : string) : string :=
  match p with
  | EmptyString => ""
  | String c r =>
      if occurs "." r || occurs "/" r then path_Ext r
      else if Ascii.eqb c "." then p
      else ""
  end.

Definition StatusOK : Z := 200.
Definition StatusMovedPermanently : Z := 301.
Definition StatusNotFound : Z := 404.
Definition StatusInternalServerError : Z := 500.

(** What a handler writes to its [http.ResponseWriter]. *)
Inductive Response : Type :=
| RespString (code : Z) (resp : string)
    (* httpRespString: a text/plain body under the status [code] *)
| RedirectUpstream (code : Z) (urlPath : string)
    (* redirectToUpstream: the request's URL, with scheme https and
       host proxy.golang.org *)
| RespStream (contentTy : string) (contentLength : option Z) (reader : Reader).
    (* status 200 and the content of [reader] *)

(** [parseRequest(w, r)] on the path of the request's URL: the named
    results and the response written, if any. *)
Definition parseRequest (urlPath : string)
  : string * string * bool * option Response :=
  if strings.HasPrefix urlPath "sumdb/" then
    ("", "", false, Some (RespString StatusNotFound "not found"))
  else
    let '(escapedModulePath, prop, ok) := strings_Cut urlPath "/@v/" in
    let '(escapedModulePath, prop, ok) :=
      if negb ok then
        let '(e, ok) := strings_CutSuffix urlPath "/@latest" in (e, "latest", ok)
      else (escapedModulePath, prop, ok) in
    if negb ok then
      ("", "", false,
       Some (RespString StatusInternalServerError
               ("Unsupported URL path: " ++ urlPath)))
    else (escapedModulePath, prop, ok, None).

(** [s] holds [sep] with [a] in front of it and [b] behind. *)
Definition cutAt (s sep a b : string) : Prop := s = a ++ sep ++ b.

(* ================================================================= *)
(** ** Discovery of the repository of a module *)

(** [strings.TrimLeft(s, cutset)] and [strings.TrimRight(s, cutset)]
    for a cutset of one ASCII byte. *)
Fixpoint strings_TrimLeft (s : string) (c : ascii) : string :=
  match s with
  | String a r => if Ascii.eqb a c then strings_TrimLeft r c else s
  | EmptyString => EmptyString
  end.

Fixpoint strings_TrimRight (s : string) (c : ascii) : string :=
  match s with
  | EmptyString => EmptyString
  | String a r =>
      let r' := strings_TrimRight r c in
      if (r' =? "") && Ascii.eqb a c then "" else String a r'
  end.

(** [strings.TrimPrefix(s, prefix)] *)
Definition strings_TrimPrefix (s pre : string) : string :=
  if strings.HasPrefix s pre then strings.drop (String.length pre) s else s.

(** [%d] of [fmt.Sprintf] *)
Definition fmt_d (z : Z) : string := NilZero.string_of_int (Z.to_int z).

(** The fields of [Origin] that the code reads. *)
Record Origin := mkOrigin {
  VCS : string;
  URL : string;
  Subdir : string
}.

(** A [RevInfo] as upstream sends it, with its [Origin] pointer. *)
Record UpstreamInfo := mkUpstreamInfo {
  upstreamRev : RevInfo;
  upstreamOrigin : option Origin
}.

Record MetaImport := mkMetaImport {
  Prefix : string;
  ImportVCS : string;
  RepoRoot : string
}.

(** [xml.Attr], with the local part of its name. *)
Record Attr := mkAttr {
  AttrLocal : string;
  AttrValue : string
}.

(** The tokens of [encoding/xml] that the code tells apart, with the
    local part of the element name. *)
Inductive Token : Type :=
| StartElement (Local : string) (attrs : list Attr)
| EndElement (Local : string)
| OtherToken.

(** The results of the successive calls of [decoder.RawToken]. *)
Inductive TokenStream : Type :=
| TokEOF
| TokError (e : error)
| TokNext (t : Token) (rest : TokenStream).

(** An HTTP response: its status, and its body read to the end, read
    as the JSON of a [RevInfo], and read as raw XML tokens. *)
Record HttpResponse := mkHttpResponse {
  StatusCode : Z;
  bodyBytes : error + string;
  bodyInfo : error + UpstreamInfo;
  bodyTokens : TokenStream
}.

(** What lies outside the cache: the network, and library functions
    that are not modelled. *)
Record Outside := mkOutside {
  (** [module.UnescapePath] *)
  UnescapePath : string -> error + string;
  (** a GET of the URL with [http.DefaultClient], the making of the
      request included *)
  httpGet : string -> error + HttpResponse;
  (** [strings.EqualFold] and [strings.Fields] *)
  EqualFold : string -> string -> bool;
  Fields : string -> list string;
  (** [Seek(0, io.SeekEnd)] and back, on the file of the archive *)
  seekEnd : error + Z
}.

Definition UpstreamProxy : string := "https://proxy.golang.org".

(** [checkEsModulePathUpstream(ctx, escapedModulePath)]: the URL
    fetched and the result. *)
Definition checkEsModulePathUpstream (Out : Outside) (escapedModulePath : string)
  : list string * (error + UpstreamInfo) :=
  let url := UpstreamProxy ++ "/" ++ escapedModulePath ++ "/@latest" in
  ([url],
   match httpGet Out url with
   | inl err => inl err
   | inr resp =>
       if negb (StatusCode resp =? StatusOK)%Z then
         match bodyBytes resp with
         | inr body => inl (errors_New body)
         | inl err => inl err
         end
       else bodyInfo resp
   end).

(** [attrValue(attrs, name)] *)
Definition attrValue (Out : Outside) (attrs : list Attr) (name : string) : string :=
  match List.find (fun a => EqualFold Out (AttrLocal a) name) attrs with
  | Some a => AttrValue a
  | None => ""
  end.

(** The token loop of [checkModuleVcsDirect]. *)
Fixpoint scanTokens (Out : Outside) (ts : TokenStream) (imports : list MetaImport)
  : error + list MetaImport :=
  match ts with
  | TokEOF => inr imports
  | TokError err => inl err
  | TokNext t rest =>
      match t with
      | StartElement local attrs =>
          if EqualFold Out local "body" then inr imports
          else if negb (EqualFold Out local "meta") then scanTokens Out rest imports
          else if negb (attrValue Out attrs "name" =? "go-import")
          then scanTokens Out rest imports
          else
            match Fields Out (attrValue Out attrs "content") with
            | [f0; f1; f2] =>
                scanTokens Out rest (imports ++ [mkMetaImport f0 f1 f2])%list
            | _ => scanTokens Out rest imports
            end
      | EndElement local =>
          if EqualFold Out local "head" then inr imports
          else scanTokens Out rest imports
      | OtherToken => scanTokens Out rest imports
      end
  end.

(** [checkModuleVcsDirect(modulePath)]: the URL fetched and the
    result. *)
Definition checkModuleVcsDirect (Out : Outside) (modulePath : string)
  : list string * (error + list MetaImport) :=
  let link := "https://" ++ modulePath ++ "?go-get=1" in
  ([link],
   match httpGet Out link with
   | inl err => inl err
   | inr resp =>
       if negb (StatusCode resp =? StatusOK)%Z
       then inl (errors_New ("HTTP error " ++ fmt_d (StatusCode resp)))
       else scanTokens Out (bodyTokens resp) []
   end).

(** The loop of [searchModuleVcsDirect]; [None] when the fuel runs
    out. *)
Fixpoint searchModuleVcsDirect_loop (Out : Outside) (fuel : nat)
  (modulePath : string)
  : option (list string * (string * list MetaImport * option error)) :=
  match fuel with
  | O => None
  | S fuel' =>
      let '(urls, r) := checkModuleVcsDirect Out modulePath in
      match r with
      | inr imports => Some (urls, (modulePath, imports, None))
      | inl _ =>
          let idx := strings.LastIndexByte modulePath "/" in
          if (idx =? -1)%Z
          then Some (urls, ("", [], Some (errors_New "not found")))
          else
            match searchModuleVcsDirect_loop Out fuel'
                    (strings.take (Z.to_nat idx) modulePath) with
            | Some (urls', r') => Some ((urls ++ urls')%list, r')
            | None => None
            end
      end
  end.

(** [searchModuleVcsDirect(modulePath)]: every iteration shortens the
    path. *)
Definition searchModuleVcsDirect (Out : Outside) (modulePath : string)
  : option (list string * (string * list MetaImport * option error)) :=
  searchModuleVcsDirect_loop Out (S (String.length modulePath)) modulePath.

(** The call that ends [refreshModPathVer]. *)
Inductive CacheCall : Type :=
| CacheGit (modulePath subPath ver remote : string)   (* p.cacheModGit *)
| CachePlain (modulePath subPath ver : string).        (* p.cacheModPlain *)

(** How [refreshModPathVer] ends. *)
Inductive Refreshed : Type :=
| Calls (c : CacheCall)
| GivesUp                 (* returns after a log line *)
| RefreshPanics (msg : string)
| RefreshStuck.           (* a loop of the model ran out of fuel *)

(** The first import that is for git, as the loop of lines 180-186
    finds it. *)
Fixpoint firstGitImport (imports : list MetaImport) : option MetaImport :=
  match imports with
  | [] => None
  | im :: rest => if ImportVCS im =? "git" then Some im else firstGitImport rest
  end.

(** [p.refreshModPathVer(key, escapedModulePath, modulePath, ver)]:
    the URLs fetched and the way it ends.  The removal of [key] from
    the pending requests is deferred to its return. *)
Definition refreshModPathVer (W : World) (Out : Outside)
  (escapedModulePath modulePath ver : string) : list string * Refreshed :=
  let '(modulePath, _, _, ok) := checkModulePathVer modulePath ver in
  if negb ok then ([], GivesUp)
  else
    match checkModVcsLocal W modulePath with
    | None => ([], RefreshStuck)
    | Some (parentPath, subPath, vcs, None) =>
        let modulePath := parentPath in
        if vcs =? ".git" then ([], Calls (CacheGit modulePath subPath ver ""))
        else if vcs =? ".mod" then ([], Calls (CachePlain modulePath subPath ver))
        else ([], RefreshPanics
                    ("Invalid local VCS type " ++ vcs ++ " for module "
                     ++ modulePath ++ ", should not happen"))
    | Some (_, _, _, Some _) =>
        let '(urls, r) := checkEsModulePathUpstream Out escapedModulePath in
        match r with
        | inl _ => (urls, GivesUp)
        | inr info =>
            match upstreamOrigin info with
            | Some org =>
                let subPath := Subdir org in
                let modulePath :=
                  strings_TrimRight (strings.TrimSuffix modulePath subPath) "/" in
                if VCS org =? "git"
                then (urls, Calls (CacheGit modulePath subPath ver (URL org)))
                else (urls, Calls (CachePlain modulePath subPath ver))
            | None =>
                match searchModuleVcsDirect Out modulePath with
                | None => (urls, RefreshStuck)
                | Some (urls', (_, _, Some _)) => ((urls ++ urls')%list, GivesUp)
                | Some (urls', (prefix, imports, None)) =>
                    let subPath :=
                      strings_TrimLeft (strings_TrimPrefix modulePath prefix) "/" in
                    let modulePath := prefix in
                    match firstGitImport imports with
                    | Some im =>
                        ((urls ++ urls')%list,
                         Calls (CacheGit modulePath subPath ver (RepoRoot im)))
                    | None =>
                        ((urls ++ urls')%list,
                         Calls (CachePlain modulePath subPath ver))
                    end
                end
            end
        end
    end.

(* ----------------------------------------------------------------- *)
(** *** Vocabulary of the statements on discovery *)

(** The tokens at which the scan for [go-import] tags stops: the
    start of the body and the end of the head. *)
Definition endsHead (Out : Outside) (t : Token) : bool :=
  match t with
  | StartElement local _ => EqualFold Out local "body"
  | EndElement local => EqualFold Out local "head"
  | OtherToken => false
  end.

(** The import that a token declares: a [meta] element named
    [go-import] whose content has three fields. *)
Definition importOf (Out : Outside) (t : Token) : list MetaImport :=
  match t with
  | StartElement local attrs =>
      if EqualFold Out local "meta"
         && (attrValue Out attrs "name" =? "go-import")
      then match Fields Out (attrValue Out attrs "content") with
           | [f0; f1; f2] => [mkMetaImport f0 f1 f2]
           | _ => []
           end
      else []
  | _ => []
  end.

(** The stream of the tokens [pre] followed by the stream [tail]. *)
Fixpoint tokensThen (pre : list Token) (tail : TokenStream) : TokenStream :=
  match pre with
  | [] => tail
  | t :: pre' => TokNext t (tokensThen pre' tail)
  end.

(** What the search for meta tags owes for the module path [M]. *)
Definition searchSpec (Out : Outside) (M : string)
  (r : option (list string * (string * list MetaImport * option error)))
  : Prop :=
  match r with
  | Some (_, (P, imports, None)) =>
      (exists sub, boundaryPrefix P sub M)
      /\ snd (checkModuleVcsDirect Out P) = inr imports
      /\ (forall P' sub', boundaryPrefix P' sub' M ->
                          String.length P < String.length P' ->
                          exists e, snd (checkModuleVcsDirect Out P') = inl e)
  | Some (_, (P, imports, Some err)) =>
      P = "" /\ imports = [] /\ err = errors_New "not found"
      /\ (forall P' sub', boundaryPrefix P' sub' M ->
                          exists e, snd (checkModuleVcsDirect Out P') = inl e)
  | None => False
  end.

Definition callRoot (c : CacheCall) : string :=
  match c with
  | CacheGit modulePath _ _ _ => modulePath
  | CachePlain modulePath _ _ => modulePath
  end.

Definition callSubPath (c : CacheCall) : string :=
  match c with
  | CacheGit _ subPath _ _ => subPath
  | CachePlain _ subPath _ => subPath
  end.

Definition callVer (c : CacheCall) : string :=
  match c with
  | CacheGit _ _ ver _ => ver
  | CachePlain _ _ ver => ver
  end.

(* ----------------------------------------------------------------- *)
(** *** An upstream and a site with meta tags *)

Definition asciiLower (c : ascii) : ascii :=
  let n := nat_of_ascii c in
  if ((65 <=? n) && (n <=? 90))%nat then ascii_of_nat (n + 32) else c.

Fixpoint lowerString (s : string) : string :=
  match s with
  | EmptyString => EmptyString
  | String c r => String (asciiLower c) (lowerString r)
  end.

(** The fields of [s] between runs of ASCII white space; [word] is
    the field being read, in reverse. *)
Fixpoint asciiFields (s : string) (word : list ascii) : list string :=
  let flush :=
    match word with
    | [] => []
    | _ => [string_of_list_ascii (List.rev word)]
    end in
  match s with
  | EmptyString => flush
  | String c r =>
      if isSpace c then (flush ++ asciiFields r [])%list
      else asciiFields r (c :: word)
  end.

(** The unescaping of [module.UnescapePath], without the check of
    the path that follows it. *)
Fixpoint unescapeString (s : string) : option string :=
  match s with
  | EmptyString => Some ""
  | String c r =>
      let n := nat_of_ascii c in
      if (128 <=? n)%nat then None
      else if Ascii.eqb c "!" then
        match r with
        | String d r' =>
            let m := nat_of_ascii d in
            if ((97 <=? m) && (m <=? 122))%nat then
              match unescapeString r' with
              | Some u => Some (String (ascii_of_nat (m - 32)) u)
              | None => None
              end
            else None
        | EmptyString => None
        end
      else if ((65 <=? n) && (n <=? 90))%nat then None
      else match unescapeString r with
           | Some u => Some (String c u)
           | None => None
           end
  end.

Definition examplePage : TokenStream :=
  tokensThen
    [StartElement "html" [];
     StartElement "head" [];
     StartElement "META"
       [mkAttr "name" "go-import";
        mkAttr "content" "example.com/b git https://git.example.com/b.git"];
     StartElement "meta"
       [mkAttr "name" "go-import"; mkAttr "content" "two fields"];
     EndElement "head";
     StartElement "body" [];
     StartElement "meta"
       [mkAttr "name" "go-import";
        mkAttr "content" "example.com/b git https://evil.example.org/b.git"]]
    TokEOF.

Definition notFoundPage : HttpResponse :=
  mkHttpResponse 404 (inr "not found") (inl (ErrorString "invalid character"))
    TokEOF.

(** Upstream knows [example.com/b/c] without its origin; the site
    [example.com] serves the meta tag of [example.com/b] at that path
    only. *)
Definition exampleOutside : Outside := {|
  UnescapePath := fun s =>
    match unescapeString s with
    | Some p => inr p
    | None => inl (ErrorString ("invalid escaped module path " ++ s))
    end;
  httpGet := fun url =>
    if url =? "https://proxy.golang.org/example.com/b/c/@latest" then
      inr (mkHttpResponse 200 (inr "")
             (inr (mkUpstreamInfo (mkRevInfo "v1.4.0" 1700000000) None)) TokEOF)
    else if url =? "https://example.com/b?go-get=1" then
      inr (mkHttpResponse 200 (inr "") (inl (ErrorString "invalid character"))
             examplePage)
    else inr notFoundPage;
  EqualFold := fun s t => lowerString s =? lowerString t;
  Fields := fun s => asciiFields s [];
  seekEnd := inr 4096%Z
|}.

(** The page that [checkModuleVcsDirect] fetches for a path. *)
Definition goGetURL (P : string) : string := "https://" ++ P ++ "?go-get=1".

(** The URL of upstream for the latest version of a module. *)
Definition latestURL (escapedModulePath : string) : string :=
  UpstreamProxy ++ "/" ++ escapedModulePath ++ "/@latest".

(* ================================================================= *)
(** ** The handlers *)

(** How a handler ends. *)
Inductive Handled : Type :=
| Writes (resp : Response)
| WritesNothing
| HandlerPanics (msg : string)
| HandlerStuck.           (* a loop of the model ran out of fuel *)

Definition written (resp : option Response) : Handled :=
  match resp with
  | Some r => Writes r
  | None => WritesNothing
  end.

(** The arguments of a call [go p.refreshModPathVer(key,
    escapedModulePath, modulePath, ver)]. *)
Record Refresh := mkRefresh {
  refreshKey : string;
  refreshEscaped : string;
  refreshModulePath : string;
  refreshVer : string
}.

(** [p.processEsModPathVer(key, escapedModulePath, ver)].  The keys of
    [p.pendingMod] are a list; the result is the error, the keys
    afterwards and the refresh started. *)
Definition processEsModPathVer (Out : Outside) (pendingMod : list string)
  (key escapedModulePath ver : string)
  : option error * list string * option Refresh :=
  match UnescapePath Out escapedModulePath with
  | inl err => (Some err, pendingMod, None)
  | inr modulePath =>
      if existsb (String.eqb key) pendingMod then (None, pendingMod, None)
      else (None, key :: pendingMod,
            Some (mkRefresh key escapedModulePath modulePath ver))
  end.

(** The end of [refreshModPathVer]: the deferred
    [p.pendingMod.Delete(key)]. *)
Definition refreshModPathVer_done (pendingMod : list string) (key : string)
  : list string :=
  List.filter (fun k => negb (k =? key)) pendingMod.

(** [p.monitorModFetch(w, r)] on the path of the request's URL: what
    it writes, the keys of [p.pendingMod] afterwards and the refresh
    it starts. *)
Definition monitorModFetch (Out : Outside) (pendingMod : list string)
  (urlPath : string) : Handled * list string * option Refresh :=
  let '(escapedModulePath, prop, ok, resp) := parseRequest urlPath in
  if negb ok then (written resp, pendingMod, None)
  else
    let ext := path_Ext prop in
    let invalid :=
      (Writes (RespString StatusInternalServerError
                 ("Invalid URL path: " ++ urlPath)), pendingMod, None) in
    let redirect := Writes (RedirectUpstream StatusMovedPermanently urlPath) in
    if (ext =? ".info") || (ext =? ".mod") || (ext =? ".zip") then
      let ver := strings.take (String.length prop - String.length ext) prop in
      let key :=
        strings.take (String.length urlPath - String.length ext) urlPath in
      match processEsModPathVer Out pendingMod key escapedModulePath ver with
      | (Some err, pendingMod, started) =>
          (Writes (RespString StatusInternalServerError (Error err)),
           pendingMod, started)
      | (None, pendingMod, started) => (redirect, pendingMod, started)
      end
    else if ext =? "" then
      if (prop =? "latest") || (prop =? "list") then (redirect, pendingMod, None)
      else invalid
    else invalid.

(** [p.serveModPlain] *)
Definition serveModPlain
  (modulePath verMajorTag subPath verCanonical ext : string) (incompat : bool)
  : M Reader :=
  fail (errors_New "NOT IMPLEMENTED").

(** How [serveModLocal] ends when it returns no error. *)
Inductive Served : Type :=
| Serves (reader : Reader)
| ServePanics (msg : string)
| ServeStuck.             (* a loop of the model ran out of fuel *)

(** [p.serveModLocal(modulePath, verMajorTag, verCanonical, ext, incompat)] *)
Definition serveModLocal (W : World)
  (modulePath verMajorTag verCanonical ext : string) (incompat : bool)
  : M Served :=
  match checkModVcsLocal W modulePath with
  | None => ret ServeStuck
  | Some (_, _, _, Some err) =>
      fail (errors_New ("cached module " ++ modulePath ++ " not found: "
                        ++ Error err))
  | Some (parentPath, subPath, vcs, None) =>
      let modulePath := parentPath in
      if vcs =? ".git" then
        reader <- serveModGit W modulePath verMajorTag subPath verCanonical
                    ext incompat ;;
        ret (Serves reader)
      else if vcs =? ".mod" then
        reader <- serveModPlain modulePath verMajorTag subPath verCanonical
                    ext incompat ;;
        ret (Serves reader)
      else
        ret (ServePanics ("Invalid local VCS type " ++ vcs ++ " for module "
                          ++ modulePath ++ ", should not happen"))
  end.

(** The content type of [serveModCached] for an extension. *)
Definition contentTy (ext : string) : option string :=
  if ext =? ".info" then Some "application/json"
  else if ext =? ".mod" then Some "text/plain; charset=UTF-8"
  else if ext =? ".zip" then Some "application/zip"
  else None.

(** [p.serveModCached(w, r)] on the path of the request's URL: the
    subprocesses started and what it writes.  The deferred
    [reader.Close()] needs a reader that is not nil; the temporary
    file of the archive can seek, a reader of bytes behind
    [io.NopCloser] cannot. *)
Definition serveModCached (W : World) (Out : Outside) (urlPath : string)
  : list Event * Handled :=
  let '(escapedModulePath, prop, ok, resp) := parseRequest urlPath in
  if negb ok then ([], written resp)
  else
    let ext := path_Ext prop in
    match contentTy ext with
    | None =>
        ([], Writes (RespString StatusInternalServerError
                       ("Invalid URL path: " ++ urlPath)))
    | Some contentTy =>
        let ver := strings.take (String.length prop - String.length ext) prop in
        match UnescapePath Out escapedModulePath with
        | inl err => ([], Writes (RespString StatusInternalServerError (Error err)))
        | inr modulePath =>
            let '(modulePathTrim, verMajorTag, incompat, ok) :=
              checkModulePathVer modulePath ver in
            if negb ok then
              ([], Writes (RespString StatusInternalServerError
                             ("module path/ver " ++ modulePath ++ "[" ++ ver
                              ++ "] is invalid or not supported")))
            else
              let modulePath := modulePathTrim in
              let ver := semver.Canonical ver in
              match serveModLocal W modulePath verMajorTag ver ext incompat with
              | (t, inl err) =>
                  (t, Writes (RespString StatusInternalServerError (Error err)))
              | (t, inr ServeStuck) => (t, HandlerStuck)
              | (t, inr (ServePanics msg)) => (t, HandlerPanics msg)
              | (t, inr (Serves NilReader)) =>
                  (t, HandlerPanics
                        "invalid memory address or nil pointer dereference")
              | (t, inr (Serves (BytesReader data))) =>
                  (t, Writes (RespStream contentTy None (BytesReader data)))
              | (t, inr (Serves ArchiveTmp)) =>
                  match seekEnd Out with
                  | inl err =>
                      (t, Writes (RespString StatusInternalServerError
                                    (Error err)))
                  | inr off =>
                      (t, Writes (RespStream contentTy (Some off) ArchiveTmp))
                  end
              end
        end
    end.

(** *** Vocabulary of the statements on the handlers *)

(** The subprocesses that serving from the repository at [gitdir] may
    start: git in [gitdir], and zip on the temporary archive. *)
Definition confined (gitdir : string) (e : Event) : bool :=
  match e with
  | Exec prog dir _ =>
      ((prog =? GitCommand) && (dir =? gitdir))
      || ((prog =? "zip") && ((dir =? "") || (dir =? ".tmp/licenses")))
  end.

Definition stray (gitdir : string) (e : Event) : bool :=
  negb (confined gitdir e).

(** The kind of reader that goes with an extension. *)
Definition readerFor (ext : string) (reader : Reader) : Prop :=
  match reader with
  | BytesReader _ => ext = ".info" \/ ext = ".mod"
  | ArchiveTmp => ext = ".zip"
  | NilReader => ext <> ".info" /\ ext <> ".mod" /\ ext <> ".zip"
  end.

(** The commit time that [git log] answers for a refspec. *)
Definition commitTime (W : World) (gitdir refspec : string) : error + Z :=
  match outcome (runGitOutputShort W gitdir
                   ["log"; "-1"; "--format=%ct"; refspec]) with
  | inr (inr s) => parseUnixTime W s
  | inr (inl err) => inl err
  | inl err => inl err
  end.

(** *** A cache with a commit that has no tag *)

Definition pseudoVersion : string := "v0.0.0-20231114221320-8f3b1c0d9e7a".

(** The double quote. *)
Definition quote : string := String (ascii_of_nat 34) "".

(** The world of [exampleWorld] where the commit [8f3b1c0d9e7a] of
    14 November 2023, 22:13:20 UTC, is asked for by its
    pseudo-version. *)
Definition pseudoWorld : World := {|
  Readlink := Readlink exampleWorld;
  spawn := fun prog dir args =>
    if (prog =? "git") && (dir =? "example.com/a/.git")
       && argsAre args ["log"; "-1"; "--format=%ct"; "8f3b1c0d9e7a"]
    then inr (mkProc ("1700000000" ++ LF) TarEOF None)
    else exampleSpawn prog dir args;
  tmpFile := tmpFile exampleWorld;
  Access := Access exampleWorld;
  IsPseudoVersion := fun v => v =? pseudoVersion;
  PseudoVersionTime := fun v =>
    if v =? pseudoVersion then 1700000000%Z else zeroTime;
  PseudoVersionRev := fun v => if v =? pseudoVersion then "8f3b1c0d9e7a" else "";
  parseUnixTime := parseUnixTime exampleWorld;
  jsonMarshal := fun info =>
    if (Version info =? pseudoVersion) && (Time info =? 1700000000)%Z
    then inr ("{" ++ quote ++ "Version" ++ quote ++ ":" ++ quote
              ++ pseudoVersion ++ quote ++ "," ++ quote ++ "Time" ++ quote
              ++ ":" ++ quote ++ "2023-11-14T22:13:20Z" ++ quote ++ "}")
    else inl (ErrorString "unsupported");
  timeString := timeString exampleWorld
|}.

(** *** Vocabulary of the statements on the first pass *)

(** The names and types of the entries that a tar reader yields before
    it stops. *)
Fixpoint tarEntries (tr : TarStream) : list (string * ascii) :=
  match tr with
  | TarEntry name ty _ rest => (name, ty) :: tarEntries rest
  | _ => []
  end.

(** How the stream ends: [None] at the end of the archive. *)
Fixpoint tarEnd (tr : TarStream) : option error :=
  match tr with
  | TarEOF => None
  | TarError e => Some e
  | TarEntry _ _ _ rest => tarEnd rest
  end.

(** A regular file of that name. *)
Definition isRegular (name : string) (e : string * ascii) : bool :=
  (fst e =? name) && Ascii.eqb (snd e) TypeReg.

(** What one entry adds to the paths to filter. *)
Definition filtered (vertag : string) (e : string * ascii) : list string :=
  let '(name, ty) := e in
  if Ascii.eqb ty TypeReg then
    if strings.HasSuffix name "/go.mod"
       && negb (strings.TrimSuffix name "/go.mod" =? vertag)
    then [strings.TrimSuffix name "go.mod"]
    else []
  else if Ascii.eqb ty TypeDir then []
  else [name].

(** The paths that the second pass leaves out: the directory of a
    [go.mod] that is not at the root nor in the versioned directory,
    and any entry that is neither a regular file nor a directory. *)
Definition filteredEntry (vertag : string) (entries : list (string * ascii))
  (q : string) : Prop :=
  (exists d, d <> vertag /\ In (d ++ "/go.mod", TypeReg) entries
             /\ q = d ++ "/")
  \/ (exists ty, ty <> TypeReg /\ ty <> TypeDir /\ In (q, ty) entries).

(** The arguments of the first pass. *)
Definition firstPassArgs (treeish : string) : list string :=
  (["archive"; "--format=tar"; treeish] ++ vendorExcludes)%list.

(** *** A repository with a versioned directory and nested modules *)

(** The symbolic link of [archive/tar]. *)
Definition TypeSymlink : ascii := "2"%char.

(** The tree of [v2.1.0]: the module [example.com/a/v2] lives in the
    directory [v2], beside a module of tools and above a nested
    module. *)
Definition nestedArchive : TarStream :=
  TarEntry "LICENSE" TypeReg (Some "MIT")
    (TarEntry "go.mod" TypeReg (Some "module example.com/a")
       (TarEntry "tools/" TypeDir (Some "")
          (TarEntry "tools/go.mod" TypeReg (Some "module example.com/a/tools")
             (TarEntry "v2/" TypeDir (Some "")
                (TarEntry "v2/go.mod" TypeReg (Some "module example.com/a/v2")
                   (TarEntry "v2/latest" TypeSymlink (Some "")
                      (TarEntry "v2/sub/go.mod" TypeReg
                         (Some "module example.com/a/v2/sub")
                         (TarEntry "v2/sub/main.go" TypeReg
                            (Some "package main") TarEOF)))))))).

Definition nestedWorld : World := {|
  Readlink := Readlink exampleWorld;
  spawn := fun prog dir args =>
    if (prog =? "git") && (dir =? "example.com/a/.git")
       && argsAre args (["archive"; "--format=tar"; "v2.1.0^{tree}:"]
                        ++ vendorExcludes)%list
    then inr (mkProc "" nestedArchive None)
    else exampleSpawn prog dir args;
  tmpFile := tmpFile exampleWorld;
  Access := Access exampleWorld;
  IsPseudoVersion := IsPseudoVersion exampleWorld;
  PseudoVersionTime := PseudoVersionTime exampleWorld;
  PseudoVersionRev := PseudoVersionRev exampleWorld;
  parseUnixTime := parseUnixTime exampleWorld;
  jsonMarshal := jsonMarshal exampleWorld;
  timeString := timeString exampleWorld
|}.

(* ================================================================= *)
(** ** The queue of clones *)

(** [sync.Map] with string keys and values, as [p.pendingGit] uses
    it. *)
Definition syncMap_Load (m : list (string * string)) (key : string)
  : option string :=
  match List.find (fun kv => fst kv =? key) m with
  | Some kv => Some (snd kv)
  | None => None
  end.

Definition syncMap_LoadOrStore (m : list (string * string)) (key value : string)
  : list (string * string) * bool :=
  match syncMap_Load m key with
  | Some _ => (m, true)
  | None => ((key, value) :: m, false)
  end.

Definition syncMap_Delete (m : list (string * string)) (key : string)
  : list (string * string) :=
  List.filter (fun kv => negb (fst kv =? key)) m.

(** A 64-bit signed integer: the value of [z] after wrap-around. *)
Definition int64 (z : Z) : Z :=
  ((z + 2 ^ 63) mod 2 ^ 64 - 2 ^ 63)%Z.

(** What the goroutines share: [p.pendingGit], the buffer of the
    channel [p.gitClones], and the counter [p.gitCloneWorkers]. *)
Record Shared := mkShared {
  pendingGit : list (string * string);
  gitClones : list string;
  gitCloneWorkers : Z
}.

(** A goroutine in [cacheModGit], past the fast path, by the
    statement it is about to run. *)
Inductive Caller : Type :=
| AtLoadOrStore (modulePath remote : string)
    (* p.pendingGit.LoadOrStore(modulePath, remote) *)
| AtAdd (modulePath : string)       (* p.gitCloneWorkers.Add(-1) < 0 *)
| AtRestore (modulePath : string)   (* p.gitCloneWorkers.Add(1) *)
| AtGo (modulePath : string)        (* go p.gitCloneWorker() *)
| AtSend (modulePath : string)      (* p.gitClones <- modulePath *)
| Returned.

(** A goroutine in [gitCloneWorker]. *)
Inductive Worker : Type :=
| AtReceive                         (* modulePath := <-p.gitClones *)
| AtLoad (modulePath : string)      (* p.pendingGit.Load(modulePath) *)
| Cloning (modulePath remote : string)
    (* p.gitCloneWorkerFunc(modulePath, v.(string)) *)
| AtDelete (modulePath : string)    (* p.pendingGit.Delete(modulePath) *)
| Panicked (msg : string).

(** One statement of [cacheModGit] (lines 109-122): the shared state
    and the goroutine afterwards, and the workers started; [None]
    when the goroutine cannot move, because it has returned or
    because the channel, of capacity [numCpus], is full. *)
Definition cacheModGit_step (numCpus : nat) (sh : Shared) (c : Caller)
  : option (Shared * Caller * list Worker) :=
  match c with
  | AtLoadOrStore modulePath remote =>
      let '(m, running) :=
        syncMap_LoadOrStore (pendingGit sh) modulePath remote in
      Some (mkShared m (gitClones sh) (gitCloneWorkers sh),
            if running then Returned else AtAdd modulePath, [])
  | AtAdd modulePath =>
      let n := int64 (gitCloneWorkers sh + -1) in
      Some (mkShared (pendingGit sh) (gitClones sh) n,
            if (n <? 0)%Z then AtRestore modulePath else AtGo modulePath, [])
  | AtRestore modulePath =>
      Some (mkShared (pendingGit sh) (gitClones sh)
              (int64 (gitCloneWorkers sh + 1)),
            AtSend modulePath, [])
  | AtGo modulePath => Some (sh, AtSend modulePath, [AtReceive])
  | AtSend modulePath =>
      if (List.length (gitClones sh) <? numCpus)%nat
      then Some (mkShared (pendingGit sh) (gitClones sh ++ [modulePath])%list
                   (gitCloneWorkers sh),
                 Returned, [])
      else None
  | Returned => None
  end.

(** One statement of [gitCloneWorker] (lines 67-75); [None] when the
    goroutine cannot move, because the channel is empty or because it
    has panicked. *)
Definition gitCloneWorker_step (sh : Shared) (w : Worker)
  : option (Shared * Worker) :=
  match w with
  | AtReceive =>
      match gitClones sh with
      | modulePath :: rest =>
          Some (mkShared (pendingGit sh) rest (gitCloneWorkers sh),
                AtLoad modulePath)
      | [] => None
      end
  | AtLoad modulePath =>
      match syncMap_Load (pendingGit sh) modulePath with
      | Some v => Some (sh, Cloning modulePath v)
      | None => Some (sh, Panicked ("pendingGit must have " ++ modulePath))
      end
  | Cloning modulePath _ => Some (sh, AtDelete modulePath)
  | AtDelete modulePath =>
      Some (mkShared (syncMap_Delete (pendingGit sh) modulePath)
              (gitClones sh) (gitCloneWorkers sh),
            AtReceive)
  | Panicked _ => None
  end.

(** The server: the shared state and the goroutines. *)
Record Server := mkServer {
  shared : Shared;
  callers : list Caller;
  workers : list Worker
}.

(** The state that [p.init] sets up (lines 34-36). *)
Definition initServer (numCpus : nat) : Server :=
  mkServer (mkShared [] [] (Z.of_nat numCpus)) [] [].

(** What happens next: a goroutine comes to line 109 of
    [cacheModGit], or one of the goroutines runs a statement. *)
Inductive Choice : Type :=
| Arrive (modulePath remote : string)
| RunCaller (i : nat)
| RunWorker (i : nat).

Definition set_nth {A} (i : nat) (x : A) (l : list A) : list A :=
  (List.firstn i l ++ x :: List.skipn (S i) l)%list.

(** One step of the server; a choice that cannot be taken leaves the
    state as it is. *)
Definition exec (numCpus : nat) (s : Server) (ch : Choice) : Server :=
  match ch with
  | Arrive modulePath remote =>
      mkServer (shared s) (callers s ++ [AtLoadOrStore modulePath remote])%list
        (workers s)
  | RunCaller i =>
      match List.nth_error (callers s) i with
      | None => s
      | Some c =>
          match cacheModGit_step numCpus (shared s) c with
          | None => s
          | Some (sh, c', started) =>
              mkServer sh (set_nth i c' (callers s))
                (workers s ++ started)%list
          end
      end
  | RunWorker i =>
      match List.nth_error (workers s) i with
      | None => s
      | Some w =>
          match gitCloneWorker_step (shared s) w with
          | None => s
          | Some (sh, w') => mkServer sh (callers s) (set_nth i w' (workers s))
          end
      end
  end.

(** The server after a schedule, from its initial state. *)
Definition runServer (numCpus : nat) (schedule : list Choice) : Server :=
  List.fold_left (exec numCpus) schedule (initServer numCpus).

(** *** Vocabulary of the statements on the queue *)

(** The repository root that a goroutine holds in [p.pendingGit]. *)
Definition holdsC (c : Caller) : list string :=
  match c with
  | AtAdd m | AtRestore m | AtGo m | AtSend m => [m]
  | AtLoadOrStore _ _ | Returned => []
  end.

Definition holdsW (w : Worker) : list string :=
  match w with
  | AtLoad m | Cloning m _ | AtDelete m => [m]
  | AtReceive | Panicked _ => []
  end.

(** The roots in flight: held by a caller, queued, or held by a
    worker. *)
Definition inFlight (s : Server) : list string :=
  (List.flat_map holdsC (callers s) ++ gitClones (shared s)
   ++ List.flat_map holdsW (workers s))%list.

Definition keys (s : Server) : list string :=
  List.map fst (pendingGit (shared s)).

Definition isAtRestore (c : Caller) : bool :=
  match c with AtRestore _ => true | _ => false end.

Definition isAtGo (c : Caller) : bool :=
  match c with AtGo _ => true | _ => false end.

Definition isAtSend (c : Caller) : bool :=
  match c with AtSend _ => true | _ => false end.

Definition hasPanicked (w : Worker) : bool :=
  match w with Panicked _ => true | _ => false end.

(** The number of elements of a list that satisfy a test. *)
Definition count {A} (f : A -> bool) (l : list A) : Z :=
  Z.of_nat (List.length (List.filter f l)).

(** How often a root occurs in a list. *)
Definition occ (m : string) (l : list string) : nat :=
  List.count_occ string_dec l m.

(** Every root of [p.pendingGit] is in flight, once, and no other root
    is. *)
Definition owned (s : Server) : Prop :=
  forall m, occ m (keys s) = occ m (inFlight s) /\ occ m (keys s) <= 1.

(** A worker clones from the remote stored for its root. *)
Definition remoteStored (sh : Shared) (w : Worker) : Prop :=
  match w with
  | Cloning m r => In (m, r) (pendingGit sh)
  | _ => True
  end.

(** The counter tells how many more workers may start. *)
Definition counted (numCpus : nat) (s : Server) : Prop :=
  (gitCloneWorkers (shared s)
   = Z.of_nat numCpus - Z.of_nat (List.length (workers s))
     - count isAtGo (callers s) - count isAtRestore (callers s))%Z
  /\ (0 <= gitCloneWorkers (shared s) + count isAtRestore (callers s))%Z.

(** Nothing waits for a worker when none runs and none is about to
    start. *)
Definition idle (s : Server) : Prop :=
  gitClones (shared s) = [] /\ count isAtSend (callers s) = 0%Z
  /\ count isAtRestore (callers s) = 0%Z.

(** A worker runs, or is about to be started. *)
Definition staffed (s : Server) : Prop :=
  workers s <> [] \/ (0 < count isAtGo (callers s))%Z.

(* ================================================================= *)
(** ** The command line *)

(** [main] of [cmd/proxy] (lines 18-24) on its argument: the address
    to listen on and the prefix of the proxy. *)
Definition main_split (arg : string) : string * string :=
  let idx := strings.LastIndexByte arg "/" in
  if negb (idx =? -1)%Z
  then (strings.take (Z.to_nat idx) arg, strings.drop (Z.to_nat idx) arg)
  else (arg, "").

(** The prefix under which [p.init] registers the monitoring handler
    (lines 38-42); the cached-only handler is registered under this
    prefix followed by [cached-only/]. *)
Definition init_Prefix (Prefix : string) : string :=
  if negb (strings.HasSuffix Prefix "/") then Prefix ++ "/" else Prefix.

(* ================================================================= *)
(** ** The refreshes under way *)

(** The keys of [p.pendingMod] and the refreshes that run.  A handler
    touches [p.pendingMod] once, in [LoadOrStore], and a refresh once,
    in the [Delete] deferred to its return; each is one step. *)
Record Front := mkFront {
  pendingMod : list string;
  refreshing : list Refresh
}.

Inductive FrontChoice : Type :=
| Request (urlPath : string)    (* a request comes to monitorModFetch *)
| Finish (i : nat).             (* a refresh returns *)

Definition frontExec (Out : Outside) (f : Front) (ch : FrontChoice) : Front :=
  match ch with
  | Request urlPath =>
      let '(_, pending, job) := monitorModFetch Out (pendingMod f) urlPath in
      mkFront pending
        (refreshing f ++ match job with
                         | Some j => [j]
                         | None => []
                         end)%list
  | Finish i =>
      match List.nth_error (refreshing f) i with
      | None => f
      | Some job =>
          mkFront (refreshModPathVer_done (pendingMod f) (refreshKey job))
            (List.firstn i (refreshing f) ++ List.skipn (S i) (refreshing f))%list
      end
  end.

Definition runFront (Out : Outside) (schedule : list FrontChoice) : Front :=
  List.fold_left (frontExec Out) schedule (mkFront [] []).

(* ================================================================= *)
(** * Properties *)

(** ** Strings *)

Section StringFacts.

Lemma append_nil_r (s : string) : s ++ "" = s.
Proof. induction s as [|a s IH]; simpl; [reflexivity | now rewrite IH]. Qed.

Lemma append_assoc (a b c : string) : (a ++ b) ++ c = a ++ (b ++ c).
Proof. induction a as [|x a IH]; simpl; [reflexivity | now rewrite IH]. Qed.

Lemma length_append (a b : string) :
  String.length (a ++ b) = String.length a + String.length b.
Proof. induction a as [|x a IH]; simpl; [reflexivity | now rewrite IH]. Qed.

Lemma append_inv_head (a b c : string) : a ++ b = a ++ c -> b = c.
Proof.
  induction a as [|x a IH]; simpl; intros H; [assumption|].
  injection H as H. now apply IH.
Qed.

Lemma append_eq_self (a b : string) : a ++ b = a -> b = "".
Proof.
  intros H. apply (append_inv_head a). now rewrite append_nil_r.
Qed.

Lemma take_drop (n : nat) (s : string) : strings.take n s ++ strings.drop n s = s.
Proof.
  revert s; induction n as [|n IH]; intros [|a s]; simpl; try reflexivity.
  now rewrite IH.
Qed.

Lemma length_take (n : nat) (s : string) :
  n <= String.length s -> String.length (strings.take n s) = n.
Proof.
  revert s; induction n as [|n IH]; intros [|a s]; simpl; intros H;
    try reflexivity; try lia.
  rewrite IH; [reflexivity | lia].
Qed.

Lemma length_drop (n : nat) (s : string) :
  String.length (strings.drop n s) = String.length s - n.
Proof.
  revert s; induction n as [|n IH]; intros [|a s]; simpl; try reflexivity.
  apply IH.
Qed.

Lemma take_app (a b : string) : strings.take (String.length a) (a ++ b) = a.
Proof. induction a as [|x a IH]; simpl; [now destruct b | now rewrite IH]. Qed.

Lemma drop_app (a b : string) : strings.drop (String.length a) (a ++ b) = b.
Proof. induction a as [|x a IH]; simpl; [now destruct b | exact IH]. Qed.

Lemma take_all (s : string) : strings.take (String.length s) s = s.
Proof. induction s as [|a s IH]; simpl; [reflexivity | now rewrite IH]. Qed.

Lemma HasPrefix_app (p r : string) : strings.HasPrefix (p ++ r) p = true.
Proof.
  unfold strings.HasPrefix.
  induction p as [|a p IH]; simpl; [now destruct r|].
  destruct (ascii_dec a a) as [_|N]; [exact IH | now elim N].
Qed.

Lemma HasPrefix_inv (s p : string) :
  strings.HasPrefix s p = true -> exists r, s = p ++ r.
Proof.
  unfold strings.HasPrefix. revert s.
  induction p as [|a p IH]; intros s H.
  - now exists s.
  - destruct s as [|b s]; simpl in H; [discriminate|].
    destruct (ascii_dec a b) as [->|]; [|discriminate].
    destruct (IH s H) as [r ->]. now exists r.
Qed.

Lemma HasPrefix_iff (s p : string) :
  strings.HasPrefix s p = true <-> exists r, s = p ++ r.
Proof.
  split; [apply HasPrefix_inv | intros [r ->]; apply HasPrefix_app].
Qed.

Lemma occurs_app (c : ascii) (a b : string) :
  occurs c (a ++ b) = occurs c a || occurs c b.
Proof.
  induction a as [|x a IH]; simpl; [reflexivity|].
  now rewrite IH, orb_assoc.
Qed.

Lemma LastIndexByte_lower (s : string) (c : ascii) :
  (-1 <= strings.LastIndexByte s c)%Z.
Proof.
  induction s as [|a s IH]; simpl; [lia|].
  destruct (Z.eqb_spec (strings.LastIndexByte s c) (-1)).
  - destruct (Ascii.eqb a c); lia.
  - lia.
Qed.

Lemma LastIndexByte_absent (s : string) (c : ascii) :
  strings.LastIndexByte s c = (-1)%Z <-> occurs c s = false.
Proof.
  induction s as [|a s IH]; simpl; [tauto|].
  pose proof (LastIndexByte_lower s c) as L.
  destruct (Z.eqb_spec (strings.LastIndexByte s c) (-1)) as [E|N].
  - destruct (Ascii.eqb a c); simpl.
    + split; [lia | discriminate].
    + split; intros _; [now apply IH | reflexivity].
  - split; [lia|]. intros H. apply orb_false_elim in H. tauto.
Qed.

(** The index found cuts the string around the last occurrence. *)
Lemma LastIndexByte_found (s : string) (c : ascii) (i : Z) :
  strings.LastIndexByte s c = i -> i <> (-1)%Z ->
  (0 <= i)%Z /\
  exists a b, s = a ++ String c b /\ String.length a = Z.to_nat i
              /\ occurs c b = false.
Proof.
  revert i; induction s as [|x s IH]; simpl; intros i H Hi; [lia|].
  pose proof (LastIndexByte_lower s c) as L.
  destruct (Z.eqb_spec (strings.LastIndexByte s c) (-1)) as [E|N].
  - destruct (Ascii.eqb_spec x c) as [->|]; [|lia].
    subst i. split; [lia|].
    exists "", s. repeat split. now apply LastIndexByte_absent.
  - destruct (IH _ eq_refl N) as (Hp & a & b & -> & Hl & Hb).
    subst i. split; [lia|].
    exists (String x a), b. repeat split; simpl; [|assumption].
    rewrite Hl. lia.
Qed.

Lemma LastIndexByte_app (a b : string) (c : ascii) :
  occurs c b = false ->
  strings.LastIndexByte (a ++ String c b) c = Z.of_nat (String.length a).
Proof.
  intros Hb. induction a as [|x a IH]; simpl.
  - apply LastIndexByte_absent in Hb. rewrite Hb. simpl.
    now rewrite Ascii.eqb_refl.
  - rewrite IH.
    destruct (Z.eqb_spec (Z.of_nat (String.length a)) (-1)); lia.
Qed.

End StringFacts.

(** ** [strings.Split] and [strings.Join] *)

Section SplitJoin.

Variable sep : ascii.

Lemma Split_nonempty (s : string) : strings.Split s sep <> [].
Proof.
  destruct s as [|a s]; simpl; [discriminate|].
  destruct (Ascii.eqb a sep); [discriminate|].
  destruct (strings.Split s sep); discriminate.
Qed.

Lemma Join_cons (x y : string) (l : list string) (j : string) :
  strings.Join (x :: y :: l) j = x ++ j ++ strings.Join (y :: l) j.
Proof. reflexivity. Qed.

Lemma Join_Split (s : string) :
  strings.Join (strings.Split s sep) (String sep "") = s.
Proof.
  induction s as [|a s IH]; [reflexivity|].
  simpl strings.Split.
  destruct (Ascii.eqb_spec a sep) as [->|N].
  - pose proof (Split_nonempty s) as NE.
    destruct (strings.Split s sep) as [|h t]; [now elim NE|].
    rewrite Join_cons, IH. reflexivity.
  - pose proof (Split_nonempty s) as NE.
    destruct (strings.Split s sep) as [|h t]; [now elim NE|].
    destruct t as [|h' t].
    + simpl in *. now rewrite IH.
    + change (strings.Join (String a h :: h' :: t) (String sep ""))
        with (String a (strings.Join (h :: h' :: t) (String sep ""))).
      now rewrite IH.
Qed.

Lemma Split_no_sep (s : string) :
  Forall (fun x => occurs sep x = false) (strings.Split s sep).
Proof.
  induction s as [|a s IH]; simpl; [now repeat constructor|].
  destruct (Ascii.eqb_spec a sep) as [->|N].
  - now constructor.
  - destruct (strings.Split s sep) as [|h t].
    + repeat constructor. simpl.
      apply Ascii.eqb_neq in N. now rewrite N.
    + inversion IH as [|? ? Hh Ht]; subst. constructor; [|assumption].
      simpl. apply Ascii.eqb_neq in N. now rewrite N.
Qed.

Lemma Split_single (x : string) :
  occurs sep x = false -> strings.Split x sep = [x].
Proof.
  induction x as [|a x IH]; simpl; intros H; [reflexivity|].
  apply orb_false_elim in H as [Ha Hx].
  rewrite Ha, (IH Hx). reflexivity.
Qed.

Lemma Split_app (x rest : string) :
  occurs sep x = false ->
  strings.Split (x ++ String sep rest) sep = x :: strings.Split rest sep.
Proof.
  induction x as [|a x IH]; simpl; intros H.
  - now rewrite Ascii.eqb_refl.
  - apply orb_false_elim in H as [Ha Hx].
    rewrite Ha, (IH Hx). reflexivity.
Qed.

Lemma Split_Join (l : list string) :
  l <> [] -> Forall (fun x => occurs sep x = false) l ->
  strings.Split (strings.Join l (String sep "")) sep = l.
Proof.
  induction l as [|x l IH]; intros NE H; [now elim NE|].
  inversion H as [|? ? Hx Hl]; subst.
  destruct l as [|y l].
  - simpl. now apply Split_single.
  - rewrite Join_cons.
    change (x ++ String sep "" ++ strings.Join (y :: l) (String sep ""))
      with (x ++ String sep (strings.Join (y :: l) (String sep ""))).
    rewrite (Split_app _ _ Hx), IH; [reflexivity | discriminate | assumption].
Qed.

Lemma Join_snoc (init : list string) (x j : string) :
  init <> [] ->
  strings.Join (init ++ [x]) j = strings.Join init j ++ j ++ x.
Proof.
  induction init as [|a init IH]; intros NE; [now elim NE|].
  destruct init as [|b init].
  - reflexivity.
  - change ((a :: b :: init) ++ [x])%list with (a :: (b :: init) ++ [x])%list.
    simpl app. rewrite !Join_cons.
    change (b :: (init ++ [x])%list) with ((b :: init) ++ [x])%list.
    rewrite IH by discriminate.
    now rewrite !append_assoc.
Qed.

End SplitJoin.

(** ** [strconv.Atoi] *)

Lemma digits_nonempty_first (ds : string) (n : Z) :
  ds <> "" -> strconv.digits 0 ds = Some n ->
  exists c r, ds = String c r /\ strconv.isDigit c = true.
Proof.
  destruct ds as [|c r]; intros NE H; [now elim NE|].
  exists c, r. split; [reflexivity|].
  simpl in H. now destruct (strconv.isDigit c).
Qed.

(** [Atoi] succeeds exactly on the integer literals. *)
Lemma Atoi_accepts (s : string) : strconv.Atoi s <> None <-> intLiteral s.
Proof.
  split.
  - destruct s as [|c rest]; [intros A; now elim A|].
    unfold strconv.Atoi.
    destruct (Ascii.eqb_spec c "-") as [->|Nm].
    + simpl orb. cbv iota.
      destruct rest as [|d r]; [intros A; now elim A|].
      destruct (strconv.digits 0 (String d r)) as [n|] eqn:D;
        [|intros A; now elim A].
      destruct (Z.leb_spec n (2 ^ 63)); [|intros A; now elim A].
      intros _. now apply (lit_minus _ n).
    + destruct (Ascii.eqb_spec c "+") as [->|Np].
      * simpl orb. cbv iota.
        destruct rest as [|d r]; [intros A; now elim A|].
        destruct (strconv.digits 0 (String d r)) as [n|] eqn:D;
          [|intros A; now elim A].
        destruct (Z.ltb_spec n (2 ^ 63)); [|intros A; now elim A].
        intros _. now apply (lit_plus _ n).
      * simpl orb. cbv iota.
        destruct (strconv.digits 0 (String c rest)) as [n|] eqn:D;
          [|intros A; now elim A].
        destruct (Z.ltb_spec n (2 ^ 63)); [|intros A; now elim A].
        intros _. now apply (lit_unsigned _ n).
  - intros [ds n NE D B | ds n NE D B | ds n NE D B].
    + destruct (digits_nonempty_first _ _ NE D) as (c & r & -> & Hc).
      unfold strconv.Atoi.
      assert (Ascii.eqb c "-" = false /\ Ascii.eqb c "+" = false) as [-> ->].
      { split; apply Ascii.eqb_neq; intros ->; discriminate. }
      simpl orb. cbv iota. rewrite D.
      destruct (Z.ltb_spec n (2 ^ 63)); [discriminate | lia].
    + unfold strconv.Atoi. simpl orb. cbv iota.
      destruct ds as [|d r]; [now elim NE|]. rewrite D.
      destruct (Z.ltb_spec n (2 ^ 63)); [discriminate | lia].
    + unfold strconv.Atoi. simpl orb. cbv iota.
      destruct ds as [|d r]; [now elim NE|]. rewrite D.
      destruct (Z.leb_spec n (2 ^ 63)); [discriminate | lia].
Qed.

(** ** The major-version split *)

Lemma existsb_bad_true (l : list string) :
  Exists (fun c => badComponent c = true) l -> existsb badComponent l = true.
Proof.
  intros H. apply existsb_exists. apply Exists_exists in H. exact H.
Qed.

Lemma existsb_bad_false (l : list string) :
  Forall (fun c => badComponent c = false) l -> existsb badComponent l = false.
Proof.
  induction 1 as [|x l Hx _ IH]; simpl; [reflexivity|].
  now rewrite Hx, IH.
Qed.

Lemma existsb_bad_false_inv (l : list string) :
  existsb badComponent l = false -> Forall (fun c => badComponent c = false) l.
Proof.
  induction l as [|x l IH]; simpl; intros H; [constructor|].
  apply orb_false_elim in H as [Hx Hl]. constructor; auto.
Qed.

Lemma last_good (l : list string) :
  l <> [] -> Forall (fun c => badComponent c = false) l ->
  badComponent (List.last l "") = false.
Proof.
  intros NE H.
  rewrite (app_removelast_last "" NE) in H.
  apply Forall_app in H as [_ H]. now inversion H.
Qed.

Lemma length_snoc_ge2 (init : list string) (x : string) :
  init <> [] -> (List.length (init ++ [x]) <? 2)%nat = false.
Proof.
  intros NE. apply Nat.ltb_ge. rewrite length_app. simpl.
  destruct init; [now elim NE | simpl; lia].
Qed.

(** The split leaves alone a path of one component and a path whose
    last component is not a version tag. *)
Lemma splitModuleMajorVer_whole (modulePath : string) :
  Forall (fun c => badComponent c = false) (strings.Split modulePath "/") ->
  (List.length (strings.Split modulePath "/") = 1
   \/ (forall rest, List.last (strings.Split modulePath "/") "" = String "v" rest ->
                    ~ intLiteral rest)) ->
  splitModuleMajorVer modulePath = (modulePath, "", true).
Proof.
  intros G L. unfold splitModuleMajorVer.
  rewrite (existsb_bad_false _ G).
  destruct L as [L | L]; [now rewrite L|].
  destruct (List.length (strings.Split modulePath "/") <? 2)%nat; [reflexivity|].
  pose proof (last_good _ (Split_nonempty "/" modulePath) G) as GL.
  destruct (List.last (strings.Split modulePath "/") "") as [|c rest] eqn:EL.
  { discriminate. }
  destruct (Ascii.eqb_spec c "v") as [->|N]; [|reflexivity].
  simpl negb. cbv iota.
  destruct (strconv.Atoi rest) eqn:A; [|reflexivity].
  elim (L rest eq_refl). apply Atoi_accepts. now rewrite A.
Qed.

(** C1, as amended.  The path is rejected when a component is empty
    or begins with a dot.  Otherwise, when it has two components or
    more and the last one is [v] followed by an integer literal that
    [strconv.Atoi] takes (signed or not, fitting 64 bits), the result
    is the path without that component, and the component as the
    major tag; when it has a single component, or the last one is not
    of that form, the result is the whole path and an empty tag. *)
Theorem splitModuleMajorVer_cases (modulePath : string) :
  let components := strings.Split modulePath "/" in
  (Exists (fun c => badComponent c = true) components ->
   splitModuleMajorVer modulePath = ("", "", false)) /\
  (Forall (fun c => badComponent c = false) components ->
   (forall init rest,
      components = (init ++ [String "v" rest])%list -> init <> [] ->
      intLiteral rest ->
      splitModuleMajorVer modulePath
        = (strings.Join init "/", String "v" rest, true)
      /\ modulePath = strings.Join init "/" ++ "/" ++ String "v" rest) /\
   ((List.length components = 1
     \/ (forall rest, List.last components "" = String "v" rest ->
                      ~ intLiteral rest)) ->
    splitModuleMajorVer modulePath = (modulePath, "", true))).
Proof.
  intros components. split; [|intros G; split].
  - intros B. unfold splitModuleMajorVer. fold components.
    now rewrite (existsb_bad_true _ B).
  - intros init rest E NE L.
    unfold splitModuleMajorVer. fold components.
    rewrite (existsb_bad_false _ G).
    rewrite E, (length_snoc_ge2 _ _ NE), last_last, removelast_last.
    rewrite Ascii.eqb_refl. simpl negb. cbv iota.
    apply Atoi_accepts in L.
    destruct (strconv.Atoi rest); [|now elim L].
    split; [reflexivity|].
    rewrite <- (Join_Split "/" modulePath). fold components.
    rewrite E. now apply Join_snoc.
  - now apply splitModuleMajorVer_whole.
Qed.

(** C1 as it is worded fails in three ways.  The only component of
    [v2] is [v] followed by a non-negative integer, and the code
    returns the whole path with an empty tag.  The last component of
    [a/v-1] is not [v] followed by a non-negative integer, and the code
    takes it for the tag.  The last component of
    [a/v9223372036854775808] is, and the code returns the whole
    path. *)
Lemma splitModuleMajorVer_not_as_specified :
  (splitModuleMajorVer "v2" = ("v2", "", true)
   /\ ~ splitAsSpecified "v2")
  /\ (splitModuleMajorVer "a/v-1" = ("a", "v-1", true)
      /\ ~ splitAsSpecified "a/v-1")
  /\ (splitModuleMajorVer "a/v9223372036854775808"
        = ("a/v9223372036854775808", "", true)
      /\ ~ splitAsSpecified "a/v9223372036854775808").
Proof.
  split; [|split]; (split; [reflexivity|]); intros [_ H];
    (destruct H as [H1 H2]; [repeat constructor|]).
  - specialize (H1 "2" eq_refl).
    assert (nonNegInteger "2") as N.
    { split; [discriminate | now exists 2%Z]. }
    specialize (H1 N). discriminate.
  - assert (splitModuleMajorVer "a/v-1" = ("a/v-1", "", true)) as E.
    { apply H2. intros ds L [_ [n D]].
      injection L as <-. discriminate. }
    discriminate.
  - specialize (H1 "9223372036854775808" eq_refl).
    assert (nonNegInteger "9223372036854775808") as N.
    { split; [discriminate | now exists 9223372036854775808%Z]. }
    specialize (H1 N). discriminate.
Qed.

(** A path whose components are all well formed is never rejected. *)
Lemma splitModuleMajorVer_good (modulePath : string) :
  Forall (fun c => badComponent c = false) (strings.Split modulePath "/") ->
  exists path major, splitModuleMajorVer modulePath = (path, major, true).
Proof.
  intros G. unfold splitModuleMajorVer.
  rewrite (existsb_bad_false _ G).
  destruct (List.length (strings.Split modulePath "/") <? 2)%nat; [eauto|].
  pose proof (last_good _ (Split_nonempty "/" modulePath) G) as GL.
  destruct (List.last (strings.Split modulePath "/") "") as [|c rest];
    [discriminate|].
  destruct (negb (Ascii.eqb c "v")); [eauto|].
  destruct (strconv.Atoi rest); eauto.
Qed.

(** The two ways in which the split succeeds. *)
Lemma splitModuleMajorVer_ok (modulePath path major : string) :
  splitModuleMajorVer modulePath = (path, major, true) ->
  Forall (fun c => badComponent c = false) (strings.Split modulePath "/") /\
  ((path = modulePath /\ major = "") \/
   (exists init rest,
      strings.Split modulePath "/" = (init ++ [String "v" rest])%list
      /\ init <> [] /\ intLiteral rest
      /\ path = strings.Join init "/" /\ major = String "v" rest)).
Proof.
  unfold splitModuleMajorVer.
  destruct (existsb badComponent (strings.Split modulePath "/")) eqn:B;
    [discriminate|].
  apply existsb_bad_false_inv in B. intros H. split; [assumption|].
  destruct (Nat.ltb_spec (List.length (strings.Split modulePath "/")) 2) as [L|L].
  { left. now inversion H. }
  pose proof (app_removelast_last "" (Split_nonempty "/" modulePath)) as D.
  destruct (List.last (strings.Split modulePath "/") "") as [|c rest] eqn:EL;
    [discriminate|].
  destruct (Ascii.eqb_spec c "v") as [->|N]; simpl negb in H; cbv iota in H.
  2:{ left. now inversion H. }
  destruct (strconv.Atoi rest) eqn:A.
  2:{ left. now inversion H. }
  right. exists (List.removelast (strings.Split modulePath "/")), rest.
  inversion H; subst. repeat split; try assumption.
  - intros E. rewrite E in D. rewrite D in L. simpl in L. lia.
  - apply Atoi_accepts. now rewrite A.
Qed.

Lemma splitModuleMajorVer_untagged (modulePath path : string) :
  splitModuleMajorVer modulePath = (path, "", true) -> path = modulePath.
Proof.
  intros H. apply splitModuleMajorVer_ok in H as [_ [[-> _] | H]];
    [reflexivity|].
  destruct H as (init & rest & _ & _ & _ & _ & H). discriminate.
Qed.

(** C9, as amended.  On the path that the split returns, a second
    split succeeds; it returns that path unchanged, with an empty tag,
    whenever the first split found no tag, and whenever the path has a
    single component or a last component that is not a version tag.
    Nothing more holds: the second split takes a further tag off a
    path such as [a/v2/v3]. *)
Theorem splitModuleMajorVer_twice (modulePath path major : string) :
  splitModuleMajorVer modulePath = (path, major, true) ->
  (exists path' major',
     splitModuleMajorVer path = (path', major', true)
     /\ (major' = "" -> path' = path)) /\
  (major = "" -> splitModuleMajorVer path = (path, "", true)) /\
  ((List.length (strings.Split path "/") = 1
    \/ (forall rest, List.last (strings.Split path "/") "" = String "v" rest ->
                     ~ intLiteral rest)) ->
   splitModuleMajorVer path = (path, "", true)).
Proof.
  intros H.
  assert (Forall (fun c => badComponent c = false) (strings.Split path "/")) as G.
  { destruct (splitModuleMajorVer_ok _ _ _ H) as [G [[-> _] | T]]; [assumption|].
    destruct T as (init & rest & E & NE & _ & -> & _).
    rewrite E in G. apply Forall_app in G as [G _].
    rewrite Split_Join; [assumption | assumption |].
    pose proof (Split_no_sep "/" modulePath) as S.
    rewrite E in S. now apply Forall_app in S as [S _]. }
  split; [|split].
  - destruct (splitModuleMajorVer_good _ G) as (path' & major' & E).
    exists path', major'. split; [assumption|].
    intros ->. now apply splitModuleMajorVer_untagged.
  - intros ->. pose proof (splitModuleMajorVer_untagged _ _ H) as ->.
    assumption.
  - now apply splitModuleMajorVer_whole.
Qed.

Lemma splitModuleMajorVer_twice_witness :
  (exists path' major',
     splitModuleMajorVer "example.com/a" = (path', major', true)
     /\ (major' = "" -> path' = "example.com/a")) /\
  ("v2" = "" -> splitModuleMajorVer "example.com/a" = ("example.com/a", "", true)) /\
  ((List.length (strings.Split "example.com/a" "/") = 1
    \/ (forall rest,
          List.last (strings.Split "example.com/a" "/") "" = String "v" rest ->
          ~ intLiteral rest)) ->
   splitModuleMajorVer "example.com/a" = ("example.com/a", "", true)).
Proof.
  apply (splitModuleMajorVer_twice "example.com/a/v2" "example.com/a" "v2").
  reflexivity.
Defined.

(** C9 as it is worded fails: [a/v2/v3] splits into [a/v2] and [v3],
    and [a/v2] splits again into [a] and [v2]. *)
Lemma splitModuleMajorVer_not_idempotent :
  ~ (forall modulePath path major,
       splitModuleMajorVer modulePath = (path, major, true) ->
       splitModuleMajorVer path = (path, "", true)).
Proof.
  intros H. specialize (H "a/v2/v3" "a/v2" "v3" eq_refl). discriminate.
Qed.

(** ** The version check *)

Lemma drop_after (a b : string) (c : ascii) :
  strings.drop (S (String.length a)) (a ++ String c b) = b.
Proof. induction a as [|x a IH]; simpl; [reflexivity | exact IH]. Qed.

(** Outside gopkg.in the check accepts whatever the split accepts:
    the [return] of line 119 carries [ok = true]. *)
Lemma checkModulePathVer_elsewhere (modulePath ver : string) :
  strings.HasPrefix modulePath "gopkg.in/" = false ->
  checkModulePathVer modulePath ver =
    (let '(path, major, ok) := splitModuleMajorVer modulePath in
     (path, major, semver.Build ver =? "+incompatible", ok)).
Proof.
  intros G. unfold checkModulePathVer. rewrite G.
  destruct (splitModuleMajorVer modulePath) as [[path major] ok].
  destruct ok; simpl negb; cbv iota; [|reflexivity].
  now destruct (_ && _).
Qed.

(** C2.  The code accepts version [v2.0.0] for the path
    [example.com/a], which has no major tag, although the version
    starts with neither [v0.] nor [v1.] and is not [+incompatible]:
    the guard of line 118 is reached and holds, but its bare [return]
    yields the [ok] that the split has just set to true. *)
Theorem checkModulePathVer_accepts_untagged_v2 :
  checkModulePathVer "example.com/a" "v2.0.0" = ("example.com/a", "", false, true)
  /\ strings.HasPrefix "example.com/a" "gopkg.in/" = false
  /\ splitModuleMajorVer "example.com/a" = ("example.com/a", "", true)
  /\ strings.HasPrefix "v2.0.0" "v0." = false
  /\ strings.HasPrefix "v2.0.0" "v1." = false
  /\ semver.Build "v2.0.0" <> "+incompatible".
Proof. repeat split; try reflexivity. discriminate. Qed.

(** C3.  For a path under gopkg.in the check accepts a version only
    if the version begins with what follows the last dot of the path,
    and it rejects every version whose build metadata is
    [+incompatible]. *)
Theorem checkModulePathVer_gopkg (modulePath ver : string) :
  strings.HasPrefix modulePath "gopkg.in/" = true ->
  (forall path major incompat,
     checkModulePathVer modulePath ver = (path, major, incompat, true) ->
     exists stem suffix,
       modulePath = stem ++ "." ++ suffix
       /\ occurs "." suffix = false
       /\ strings.HasPrefix ver suffix = true) /\
  (semver.Build ver = "+incompatible" ->
   snd (checkModulePathVer modulePath ver) = false).
Proof.
  intros G. unfold checkModulePathVer. rewrite G. split.
  - intros path major incompat.
    destruct (semver.Build ver =? "+incompatible"); [discriminate|].
    destruct (Z.eqb_spec (strings.LastIndexByte modulePath ".") (-1)) as [E|N];
      simpl negb; simpl andb; cbv iota; [discriminate|].
    destruct (LastIndexByte_found _ _ _ eq_refl N) as (P & a & b & E & L & O).
    destruct (strings.HasPrefix ver _) eqn:HP; [|discriminate].
    intros _. exists a, b. repeat split; try assumption.
    replace (Z.to_nat (strings.LastIndexByte modulePath "." + 1))
      with (S (String.length a)) in HP by lia.
    rewrite E in HP at 1. now rewrite drop_after in HP.
  - intros B. rewrite B. reflexivity.
Qed.

Lemma checkModulePathVer_gopkg_witness :
  (forall path major incompat,
     checkModulePathVer "gopkg.in/yaml.v2" "v2.4.0" = (path, major, incompat, true) ->
     exists stem suffix,
       "gopkg.in/yaml.v2" = stem ++ "." ++ suffix
       /\ occurs "." suffix = false
       /\ strings.HasPrefix "v2.4.0" suffix = true) /\
  (semver.Build "v2.4.0" = "+incompatible" ->
   snd (checkModulePathVer "gopkg.in/yaml.v2" "v2.4.0") = false).
Proof.
  apply (checkModulePathVer_gopkg "gopkg.in/yaml.v2" "v2.4.0"). reflexivity.
Defined.

Lemma checkModulePathVer_gopkg_ok
  (modulePath ver path major : string) (incompat : bool) :
  strings.HasPrefix modulePath "gopkg.in/" = true ->
  checkModulePathVer modulePath ver = (path, major, incompat, true) ->
  path = modulePath /\ major = "" /\ incompat = false.
Proof.
  intros G. unfold checkModulePathVer. rewrite G.
  destruct (semver.Build ver =? "+incompatible"); [discriminate|].
  destruct (_ && _); [|discriminate].
  intros H. now inversion H.
Qed.

(** C10.  When the check accepts a path under gopkg.in it returns the
    path as it came, an empty major tag and a false incompatible
    flag. *)
Theorem checkModulePathVer_gopkg_result
  (modulePath ver path major : string) (incompat : bool) :
  strings.HasPrefix modulePath "gopkg.in/" = true ->
  checkModulePathVer modulePath ver = (path, major, incompat, true) ->
  path = modulePath /\ major = "" /\ incompat = false.
Proof. apply checkModulePathVer_gopkg_ok. Qed.

Lemma checkModulePathVer_gopkg_result_witness :
  "gopkg.in/yaml.v2" = "gopkg.in/yaml.v2" /\ "" = "" /\ false = false.
Proof.
  apply (checkModulePathVer_gopkg_result
           "gopkg.in/yaml.v2" "v2.4.0" "gopkg.in/yaml.v2" "" false);
    reflexivity.
Defined.

(** C8, as amended.  When the check accepts a pair and returns a set
    incompatible flag, the path is not under gopkg.in, the build
    metadata of the version is [+incompatible], and the path and tag
    returned are those of the split: the tag is empty only if the
    split returned the path unchanged, and a tagged path is accepted
    with an [+incompatible] version all the same. *)
Theorem checkModulePathVer_incompatible (modulePath ver path major : string) :
  checkModulePathVer modulePath ver = (path, major, true, true) ->
  strings.HasPrefix modulePath "gopkg.in/" = false
  /\ semver.Build ver = "+incompatible"
  /\ splitModuleMajorVer modulePath = (path, major, true)
  /\ (major = "" -> path = modulePath).
Proof.
  intros H.
  destruct (strings.HasPrefix modulePath "gopkg.in/") eqn:G.
  { destruct (checkModulePathVer_gopkg_ok _ _ _ _ _ G H) as (_ & _ & F).
    discriminate. }
  rewrite (checkModulePathVer_elsewhere _ _ G) in H.
  destruct (splitModuleMajorVer modulePath) as [[p m] ok] eqn:S.
  injection H as E1 E2 E3 E4. subst p m ok.
  apply String.eqb_eq in E3.
  repeat split; try assumption.
  intros ->. now apply splitModuleMajorVer_untagged.
Qed.

Lemma checkModulePathVer_incompatible_witness :
  strings.HasPrefix "example.com/a" "gopkg.in/" = false
  /\ semver.Build "v2.0.0+incompatible" = "+incompatible"
  /\ splitModuleMajorVer "example.com/a" = ("example.com/a", "", true)
  /\ ("" = "" -> "example.com/a" = "example.com/a").
Proof.
  apply (checkModulePathVer_incompatible
           "example.com/a" "v2.0.0+incompatible" "example.com/a" "").
  reflexivity.
Defined.

(** C8 as it is worded fails: the tagged path [example.com/a/v2] is
    accepted with the version [v2.0.0+incompatible], and the result
    has both the tag [v2] and a set incompatible flag. *)
Lemma checkModulePathVer_incompatible_tagged :
  ~ (forall modulePath ver path major,
       checkModulePathVer modulePath ver = (path, major, true, true) ->
       major = "").
Proof.
  intros H.
  specialize (H "example.com/a/v2" "v2.0.0+incompatible" "example.com/a" "v2"
                eq_refl).
  discriminate.
Qed.

(** ** Local lookup *)

Lemma app_cut (a x p s : string) :
  a ++ x = p ++ s -> String.length a <= String.length p ->
  exists m, p = a ++ m /\ x = m ++ s.
Proof.
  revert p; induction a as [|c a IH]; intros p E L.
  - exists p. now split.
  - destruct p as [|d p]; simpl in L; [lia|].
    simpl in E. injection E as -> E.
    destruct (IH p E) as (m & -> & ->); [lia|].
    now exists m.
Qed.

Lemma occurs_before (x y p s : string) (c : ascii) :
  x ++ y = p ++ String c s -> String.length p < String.length x ->
  occurs c x = true.
Proof.
  revert p; induction x as [|d x IH]; intros p E L; simpl in L; [lia|].
  destruct p as [|e p]; simpl in E; injection E as -> E.
  - simpl. now rewrite Ascii.eqb_refl.
  - simpl. rewrite (IH p E); [apply orb_true_r | simpl in L; lia].
Qed.

Section LocalLookup.

Variable W : World.
Variable M : string.

(** A boundary prefix as long as a prefix already probed is that
    prefix. *)
Lemma boundaryPrefix_take (P sub : string) :
  boundaryPrefix P sub M -> P = strings.take (String.length P) M.
Proof.
  intros [[-> _] | ->]; [now rewrite take_all | now rewrite take_app].
Qed.

Lemma boundaryPrefix_length (P sub : string) :
  boundaryPrefix P sub M -> String.length P <= String.length M.
Proof.
  intros [[-> _] | ->]; [lia | rewrite length_append; lia].
Qed.

(** The loop keeps: the parent path is a boundary prefix, and every
    longer boundary prefix has been probed without success. *)
Lemma checkModVcsLocal_loop_spec (fuel n : nat) (subPath : string) :
  n <= String.length M -> n < fuel ->
  boundaryPrefix (strings.take n M) subPath M ->
  (forall P' S', boundaryPrefix P' S' M -> n < String.length P' ->
                 exists e, probe W P' = inl e) ->
  lookupSpec W M (checkModVcsLocal_loop W fuel M (Z.of_nat n) subPath).
Proof.
  revert n subPath; induction fuel as [|fuel IH]; intros n subPath Hn Hf B Inv;
    [lia|].
  simpl checkModVcsLocal_loop. rewrite Nat2Z.id.
  set (parentPath := strings.take n M) in *.
  assert (String.length parentPath = n) as LP by now apply length_take.
  fold (probe W parentPath).
  destruct (probe W parentPath) as [e|target] eqn:Pr.
  2:{ simpl. repeat split; try assumption.
      intros P' S' B' L. apply (Inv P' S' B'). lia. }
  (* every boundary prefix at least as long as the parent has failed *)
  assert (forall P' S', boundaryPrefix P' S' M -> n <= String.length P' ->
                        exists e, probe W P' = inl e) as Inv'.
  { intros P' S' B' L. destruct (Nat.eq_dec n (String.length P')) as [E|NE].
    - rewrite (boundaryPrefix_take _ _ B'), <- E. fold parentPath. eauto.
    - apply (Inv P' S' B'). lia. }
  pose proof (take_drop n M) as TD. fold parentPath in TD.
  destruct (Z.eqb_spec (strings.LastIndexByte parentPath "/") (-1)) as [E|N].
  - simpl. repeat split.
    intros P' S' B'. destruct (Nat.le_gt_cases n (String.length P')) as [L|L];
      [now apply (Inv' P' S')|].
    exfalso. apply LastIndexByte_absent in E.
    destruct B' as [[-> _] | B']; [lia|].
    rewrite B' in TD at 2.
    rewrite (occurs_before _ _ _ _ _ TD) in E; [discriminate | lia].
  - destruct (LastIndexByte_found _ _ _ eq_refl N) as (Pos & a & b & Eab & La & Ob).
    set (i := strings.LastIndexByte parentPath "/") in *.
    assert (i = Z.of_nat (String.length a)) as Ei by lia.
    rewrite Ei.
    replace (Z.to_nat (Z.of_nat (String.length a) + 1))
      with (S (String.length a)) by lia.
    assert (M = a ++ String "/" (b ++ strings.drop n M)) as EM.
    { rewrite <- TD at 1. rewrite Eab, append_assoc. reflexivity. }
    assert (String.length a < n) as Lan.
    { rewrite <- LP, Eab, length_append. simpl. lia. }
    assert (strings.take (String.length a) M = a) as Ta.
    { rewrite EM at 1. apply take_app. }
    assert (strings.drop (S (String.length a)) M = b ++ strings.drop n M) as Da.
    { rewrite EM at 1. apply drop_after. }
    rewrite Da. apply IH; try lia.
    + rewrite Ta. right. exact EM.
    + intros P' S' B' L.
      destruct (Nat.le_gt_cases n (String.length P')) as [L'|L'];
        [now apply (Inv' P' S')|].
      exfalso.
      destruct B' as [[-> _] | B']; [lia|].
      rewrite B' in EM.
      symmetry in EM. destruct (app_cut _ _ _ _ EM) as (m & Em & Ex); [lia|].
      destruct m as [|c m].
      { rewrite append_nil_r in Em. subst P'. lia. }
      simpl in Ex. injection Ex as Ec Ex. subst c.
      assert (String.length m < String.length b) as Lm.
      { subst P'. rewrite length_append in L'. simpl in L'.
        rewrite <- LP, Eab, length_append in L'. simpl in L'. lia. }
      rewrite (occurs_before _ _ _ _ _ Ex Lm) in Ob. discriminate.
Qed.

End LocalLookup.

(** C4.  The local lookup always returns.  Its result is the longest
    prefix [P] of the module path, taken whole or up to one of its
    slashes, under which [.vcs] is a readable symlink, with the rest
    of the path after that slash as the subdirectory (empty when [P]
    is the whole path) and the target of the symlink as the kind of
    repository; when no such prefix has a readable [.vcs] the result
    is the error [os.ErrNotExist]. *)
Theorem checkModVcsLocal_longest_prefix (W : World) (M : string) :
  lookupSpec W M (checkModVcsLocal W M).
Proof.
  unfold checkModVcsLocal.
  apply checkModVcsLocal_loop_spec; try lia.
  - rewrite take_all. now left.
  - intros P' S' B L. pose proof (boundaryPrefix_length _ _ _ B). lia.
Qed.

(** ** Canonical versions *)

Lemma length_take_le (n : nat) (s : string) :
  String.length (strings.take n s) <= String.length s.
Proof.
  revert s; induction n as [|n IH]; intros [|a s]; simpl; try lia.
  specialize (IH s). lia.
Qed.

Lemma length_drop_le (n : nat) (s : string) :
  String.length (strings.drop n s) <= String.length s.
Proof. rewrite length_drop. lia. Qed.

Lemma parseInt_shape (v t rest : string) :
  semver.parseInt v = Some (t, rest) ->
  exists d v', v = String d v' /\ strconv.isDigit d = true
               /\ String.length rest <= String.length v'.
Proof.
  unfold semver.parseInt. destruct v as [|d v']; [discriminate|].
  destruct (strconv.isDigit d) eqn:D; simpl negb; cbv iota; [|discriminate].
  destruct (_ && _); [discriminate|].
  intros H. injection H as _ <-.
  exists d, v'. split; [reflexivity|]. split; [assumption|].
  simpl. apply length_drop_le.
Qed.

Lemma parsePrerelease_length (v t rest : string) :
  semver.parsePrerelease v = Some (t, rest) ->
  String.length rest <= String.length v.
Proof.
  unfold semver.parsePrerelease. destruct v as [|c v']; [discriminate|].
  destruct (negb (Ascii.eqb c "-")); [discriminate|].
  destruct (semver.prereleaseLoop _ _ _ _); [|discriminate].
  intros H. injection H as _ <-. apply length_drop_le.
Qed.

Lemma parseBuild_length (v t rest : string) :
  semver.parseBuild v = Some (t, rest) ->
  String.length t <= String.length v.
Proof.
  unfold semver.parseBuild. destruct v as [|c v']; [discriminate|].
  destruct (negb (Ascii.eqb c "+")); [discriminate|].
  destruct (semver.buildLoop _ _ _); [|discriminate].
  intros H. injection H as <- _. apply length_take_le.
Qed.

(** A version that parses is [v], a digit, and the rest; its build
    metadata lies within the rest. *)
Lemma parse_shape (v : string) (p : semver.parsed) :
  semver.parse v = Some p ->
  exists d v', v = String "v" (String d v') /\ strconv.isDigit d = true
               /\ String.length (semver.build p) <= String.length v'.
Proof.
  unfold semver.parse. destruct v as [|c1 v1]; [discriminate|].
  destruct (Ascii.eqb_spec c1 "v") as [->|]; simpl negb; cbv iota;
    [|discriminate].
  destruct (semver.parseInt v1) as [[maj v2]|] eqn:E1; [|discriminate].
  destruct (parseInt_shape _ _ _ E1) as (d & v1' & -> & Dd & L1).
  intros H. exists d, v1'. split; [reflexivity|]. split; [assumption|].
  destruct v2 as [|c2 v2'].
  { injection H as <-. simpl. lia. }
  destruct (negb (Ascii.eqb c2 ".")); [discriminate|].
  destruct (semver.parseInt v2') as [[mnr v3]|] eqn:E2; [|discriminate].
  destruct (parseInt_shape _ _ _ E2) as (d2 & v2'' & -> & _ & L2).
  destruct v3 as [|c3 v3'].
  { injection H as <-. simpl. lia. }
  destruct (negb (Ascii.eqb c3 ".")); [discriminate|].
  destruct (semver.parseInt v3') as [[pat v4]|] eqn:E3; [|discriminate].
  destruct (parseInt_shape _ _ _ E3) as (d3 & v3'' & -> & _ & L3).
  simpl in L1, L2, L3.
  assert (forall prerel v5,
            (if semver.startsWith "-" v4 then semver.parsePrerelease v4
             else Some ("", v4)) = Some (prerel, v5) ->
            String.length v5 <= String.length v4) as LP.
  { intros prerel v5. destruct (semver.startsWith "-" v4).
    - apply parsePrerelease_length.
    - intros E. injection E as _ <-. lia. }
  destruct (if semver.startsWith "-" v4 then _ else _) as [[prerel v5]|];
    [|discriminate].
  specialize (LP _ _ eq_refl).
  assert (forall b v6,
            (if semver.startsWith "+" v5 then semver.parseBuild v5
             else Some ("", v5)) = Some (b, v6) ->
            String.length b <= String.length v5) as LB.
  { intros b v6. destruct (semver.startsWith "+" v5).
    - apply parseBuild_length.
    - intros E. injection E as <- _. simpl. lia. }
  destruct (if semver.startsWith "+" v5 then _ else _) as [[b v6]|];
    [|discriminate].
  specialize (LB _ _ eq_refl).
  destruct (negb (v6 =? "")); [discriminate|].
  injection H as <-. simpl. lia.
Qed.

(** A canonical version is empty (the version is not valid) or is
    [v] followed by a digit. *)
Lemma Canonical_shape (ver : string) :
  semver.Canonical ver = "" \/
  exists d rest, semver.Canonical ver = String "v" (String d rest)
                 /\ strconv.isDigit d = true.
Proof.
  unfold semver.Canonical.
  destruct (semver.parse ver) as [p|] eqn:P; [|now left].
  right. destruct (parse_shape _ _ P) as (d & v' & -> & Dd & L).
  destruct (negb (semver.build p =? "")).
  - exists d. simpl String.length.
    replace (S (S (String.length v')) - String.length (semver.build p))
      with (S (S (String.length v' - String.length (semver.build p)))) by lia.
    simpl. eauto.
  - destruct (negb (semver.short p =? "")); simpl; eauto.
Qed.

Lemma HasPrefix_byte (d c : ascii) (rest : string) :
  strings.HasPrefix (String d rest) (String c "") = Ascii.eqb c d.
Proof.
  unfold strings.HasPrefix. cbn [String.prefix].
  destruct (ascii_dec c d) as [->|N].
  - rewrite Ascii.eqb_refl. now destruct rest.
  - symmetry. now apply Ascii.eqb_neq.
Qed.

Lemma digit_not_v (d : ascii) (rest : string) :
  strconv.isDigit d = true -> strings.HasPrefix (String d rest) "v" = false.
Proof.
  intros D. rewrite HasPrefix_byte.
  apply Ascii.eqb_neq. intros <-. discriminate.
Qed.

(** ** Traces *)

Lemma trace_bind {A B} (m : M A) (f : A -> M B) :
  trace (bind m f)
  = (trace m ++ match outcome m with
                | inr a => trace (f a)
                | inl _ => []
                end)%list.
Proof.
  destruct m as [t [e|a]]; simpl.
  - now rewrite app_nil_r.
  - now destruct (f a).
Qed.

Lemma outcome_bind {A B} (m : M A) (f : A -> M B) :
  outcome (bind m f)
  = match outcome m with
    | inr a => outcome (f a)
    | inl e => inl e
    end.
Proof.
  destruct m as [t [e|a]]; simpl; [reflexivity | now destruct (f a)].
Qed.

Lemma silent_ret {A} (P : Event -> bool) (a : A) : silent P (ret a).
Proof. reflexivity. Qed.

Lemma silent_fail {A} (P : Event -> bool) (e : error) : silent P (@fail A e).
Proof. reflexivity. Qed.

Lemma silent_bind_outcome {A B} (P : Event -> bool) (m : M A) (f : A -> M B) :
  silent P m -> (forall a, outcome m = inr a -> silent P (f a)) ->
  silent P (bind m f).
Proof.
  unfold silent. intros Hm Hf. rewrite trace_bind, filter_app, Hm.
  destruct (outcome m); [reflexivity | now apply Hf].
Qed.

Lemma silent_bind {A B} (P : Event -> bool) (m : M A) (f : A -> M B) :
  silent P m -> (forall a, silent P (f a)) -> silent P (bind m f).
Proof. intros Hm Hf. apply silent_bind_outcome; auto. Qed.

Lemma silent_getGitOutputCmd (P : Event -> bool) (W : World) (wkdir : string)
  (args : list string) :
  P (Exec GitCommand wkdir args) = false ->
  silent P (getGitOutputCmd W wkdir args).
Proof. unfold silent. simpl. now intros ->. Qed.

Lemma silent_Run (P : Event -> bool) (W : World) (prog dir : string)
  (args : list string) :
  P (Exec prog dir args) = false -> silent P (Run W prog dir args).
Proof. unfold silent. simpl. now intros ->. Qed.

Lemma quiet_ret {A} (a : A) : quiet (ret a).
Proof. reflexivity. Qed.

Lemma quiet_fail {A} (e : error) : quiet (@fail A e).
Proof. reflexivity. Qed.

Lemma quiet_bind {A B} (m : M A) (f : A -> M B) :
  quiet m -> (forall a, quiet (f a)) -> quiet (bind m f).
Proof. apply silent_bind. Qed.

Lemma quiet_bind_outcome {A B} (m : M A) (f : A -> M B) :
  quiet m -> (forall a, outcome m = inr a -> quiet (f a)) -> quiet (bind m f).
Proof. apply silent_bind_outcome. Qed.

Lemma quiet_archive (W : World) (wkdir : string) (args : list string) :
  quiet (getGitOutputCmd W wkdir ("archive" :: args)).
Proof. reflexivity. Qed.

Lemma quiet_Run_archive (W : World) (wkdir : string) (args : list string) :
  quiet (Run W GitCommand wkdir ("archive" :: args)).
Proof. reflexivity. Qed.

Lemma quiet_Run_zip (W : World) (wkdir : string) (args : list string) :
  quiet (Run W "zip" wkdir args).
Proof. unfold quiet. simpl. now destruct args. Qed.

Create HintDb quiet.
#[local] Hint Resolve quiet_ret quiet_fail quiet_archive quiet_Run_archive
  quiet_Run_zip : quiet.

Lemma quiet_extractMod (W : World) (gitdir refspec tree : string) :
  quiet (serveModGit_extractMod W gitdir refspec tree).
Proof.
  unfold serveModGit_extractMod. apply quiet_bind; [auto with quiet|].
  intros [e|p]; [auto with quiet|].
  destruct (getSingleFileFromTar _ _ _), (waitErr p); auto with quiet.
Qed.

Lemma quiet_mod (W : World) (modulePath verMajorTag subPath gitdir refspec : string) :
  quiet (serveModGit_mod W modulePath verMajorTag subPath gitdir refspec).
Proof.
  unfold serveModGit_mod.
  apply quiet_bind; [apply quiet_extractMod|].
  intros [data|]; [auto with quiet|].
  destruct (negb _); [|auto with quiet].
  apply quiet_bind; [apply quiet_extractMod|].
  intros [data|]; auto with quiet.
Qed.

Lemma quiet_collect (W : World) (gitdir prefix treeish vertag : string) :
  quiet (collectGitArchiveOpts W gitdir prefix treeish vertag).
Proof.
  unfold collectGitArchiveOpts. apply quiet_bind; [apply quiet_archive|].
  intros [e|p]; [auto with quiet|].
  destruct (surveyLoop _ _ _); [auto with quiet|].
  destruct (waitErr p); auto with quiet.
Qed.

Lemma collect_archive_args (W : World) (gitdir prefix treeish vertag : string)
  (cmdArgs : list string) (lic : bool) :
  outcome (collectGitArchiveOpts W gitdir prefix treeish vertag)
    = inr (cmdArgs, lic) ->
  exists args, cmdArgs = "archive" :: args.
Proof.
  unfold collectGitArchiveOpts. rewrite outcome_bind. simpl outcome.
  destruct (spawn W _ _ _) as [e|p]; [discriminate|].
  destruct (surveyLoop _ _ _); [discriminate|].
  destruct (waitErr p); [discriminate|].
  simpl. intros H. injection H as <- _. eauto.
Qed.

Lemma quiet_zip123 (W : World) (verMajorTag subPath gitdir refspec prefix : string) :
  quiet (serveModGit_zip123 W verMajorTag subPath gitdir refspec prefix).
Proof.
  unfold serveModGit_zip123.
  apply quiet_bind_outcome; [apply quiet_collect|].
  intros [cmdArgs lic] O.
  destruct (collect_archive_args _ _ _ _ _ _ _ O) as (args & ->).
  destruct (tmpFile W ".tmp"); [auto with quiet|].
  apply quiet_bind; [auto with quiet|].
  intros [e|]; [auto with quiet|].
  apply quiet_bind; [auto with quiet|].
  intros [[| code msg | msg]|]; auto with quiet.
  destruct code as [|p|p]; auto with quiet.
  do 4 (try (destruct p as [p|p|]; auto with quiet)).
Qed.

Lemma quiet_zip4 (W : World) (gitdir refspec prefix : string) :
  quiet (serveModGit_zip4 W gitdir refspec prefix).
Proof.
  unfold serveModGit_zip4. apply quiet_bind; [auto with quiet|].
  intros [e|out]; [auto with quiet|].
  assert (quiet
            (err <- Run W "zip" ".tmp/licenses"
                      ["-g"; "../zip-fd3.zip"; path.Join [prefix; "LICENSE"]] ;;
             match err with
             | Some err =>
                 fail (errors_New ("failed to append LICENSE to zip: " ++ Error err))
             | None => ret ArchiveTmp
             end)) as Q.
  { apply quiet_bind; [auto with quiet|]. intros [e|]; auto with quiet. }
  destruct (Access W _); [|exact Q].
  destruct (tmpFile W _); [auto with quiet|].
  destruct (copySingleFileFromTar _ _ _); [auto with quiet | exact Q].
Qed.

Lemma quiet_zip (W : World) (verMajorTag subPath gitdir refspec prefix : string) :
  quiet (serveModGit_zip W verMajorTag subPath gitdir refspec prefix).
Proof.
  unfold serveModGit_zip. apply quiet_bind; [apply quiet_zip123|].
  intros lic. destruct (_ || _); [auto with quiet | apply quiet_zip4].
Qed.

(** ** The refspec and its queries *)

Lemma filter_gitLog (gitdir format : string) (l : list string) :
  List.filter isGitLog (List.map (gitLog gitdir format) l)
  = List.map (gitLog gitdir format) l.
Proof. induction l as [|r l IH]; simpl; [reflexivity | now rewrite IH]. Qed.

Lemma HasPrefix_v_inv (refspec : string) :
  strings.HasPrefix refspec "v" = true ->
  exists rest, refspec = String "v" rest /\ strings.drop 1 refspec = rest.
Proof.
  intros H. apply HasPrefix_inv in H as [r ->]. now exists r.
Qed.

Section Retry.

Variable W : World.
Variables (gitdir subPath : string) (pseudoVer : bool).

Lemma cacheModGit_retry_unfold (refspec : string) :
  cacheModGit_retry_refspec W gitdir pseudoVer subPath refspec =
  (err <- Run W GitCommand gitdir ["log"; "-1"; "--format=%H"; refspec] ;;
   match err with
   | None => ret None
   | Some e =>
       if negb pseudoVer && (subPath =? "") && strings.HasPrefix refspec "v" then
         match refspec with
         | String _ rest =>
             cacheModGit_retry_refspec W gitdir pseudoVer subPath rest
         | EmptyString => ret (Some e)
         end
       else ret (Some e)
   end).
Proof. destruct refspec; reflexivity. Qed.

Lemma serveModGit_retry_unfold (refspec : string) :
  serveModGit_retry_refspec W gitdir pseudoVer subPath refspec =
  (unixTime <- runGitOutputShort W gitdir ["log"; "-1"; "--format=%ct"; refspec] ;;
   let r := match unixTime with
            | inl err => inl err
            | inr s => parseUnixTime W s
            end in
   match r with
   | inr tm => ret (refspec, tm)
   | inl err =>
       let failed :=
         fail (errors_New ("failed to get commit date: " ++ Error err)) in
       if negb pseudoVer && (subPath =? "") && strings.HasPrefix refspec "v" then
         match refspec with
         | String _ rest =>
             serveModGit_retry_refspec W gitdir pseudoVer subPath rest
         | EmptyString => failed
         end
       else failed
   end).
Proof. destruct refspec; reflexivity. Qed.

Lemma trace_Run (prog dir : string) (args : list string) :
  trace (Run W prog dir args) = [Exec prog dir args].
Proof. reflexivity. Qed.

Lemma trace_runGitOutputShort (args : list string) :
  trace (runGitOutputShort W gitdir args) = [Exec GitCommand gitdir args].
Proof.
  unfold runGitOutputShort. rewrite trace_bind. simpl.
  destruct (spawn W _ _ _) as [e|p]; [reflexivity|].
  now destruct (waitErr p).
Qed.

Lemma outcome_Run (prog dir : string) (args : list string) :
  exists r, outcome (Run W prog dir args) = inr r.
Proof. unfold Run, outcome. simpl. eauto. Qed.

Lemma outcome_runGitOutputShort (args : list string) :
  exists r, outcome (runGitOutputShort W gitdir args) = inr r.
Proof.
  unfold runGitOutputShort, getGitOutputCmd. rewrite outcome_bind.
  unfold outcome. cbn [snd].
  destruct (spawn W GitCommand gitdir args) as [e|p]; [now eexists|].
  destruct (waitErr p); now eexists.
Qed.

(** A refspec that does not start with [v] is queried once. *)
Lemma cacheModGit_retry_last (refspec : string) :
  strings.HasPrefix refspec "v" = false ->
  trace (cacheModGit_retry_refspec W gitdir pseudoVer subPath refspec)
  = [gitLog gitdir "--format=%H" refspec].
Proof.
  intros H. rewrite cacheModGit_retry_unfold, trace_bind, trace_Run, H.
  rewrite !andb_false_r.
  destruct (outcome_Run GitCommand gitdir ["log"; "-1"; "--format=%H"; refspec])
    as [r ->].
  now destruct r.
Qed.

Lemma serveModGit_retry_last (refspec : string) :
  strings.HasPrefix refspec "v" = false ->
  trace (serveModGit_retry_refspec W gitdir pseudoVer subPath refspec)
  = [gitLog gitdir "--format=%ct" refspec].
Proof.
  intros H.
  rewrite serveModGit_retry_unfold, trace_bind, trace_runGitOutputShort, H.
  rewrite !andb_false_r.
  destruct (outcome_runGitOutputShort ["log"; "-1"; "--format=%ct"; refspec])
    as [r ->].
  destruct r as [e|s]; [reflexivity|].
  now destruct (parseUnixTime W s).
Qed.

(** The queries of the fast path, for a refspec that loses its [v]
    when it is stripped once. *)
Lemma cacheModGit_retry_trace (refspec : string) :
  (negb pseudoVer && (subPath =? "") && strings.HasPrefix refspec "v" = true ->
   strings.HasPrefix (strings.drop 1 refspec) "v" = false) ->
  trace (cacheModGit_retry_refspec W gitdir pseudoVer subPath refspec)
  = List.map (gitLog gitdir "--format=%H")
      (queriesAsSpecified pseudoVer subPath refspec
         (hashQueryFails W gitdir refspec)).
Proof.
  intros Once.
  rewrite cacheModGit_retry_unfold, trace_bind, trace_Run.
  unfold queriesAsSpecified, hashQueryFails.
  destruct (outcome_Run GitCommand gitdir ["log"; "-1"; "--format=%H"; refspec])
    as [r ->].
  destruct r as [e|]; [|reflexivity].
  change (true && negb pseudoVer) with (negb pseudoVer).
  destruct (negb pseudoVer && (subPath =? "") && strings.HasPrefix refspec "v")
    eqn:C; [|reflexivity].
  specialize (Once eq_refl).
  apply andb_prop in C as [_ C].
  destruct (HasPrefix_v_inv _ C) as (rest & -> & D).
  rewrite D in *. simpl app.
  now rewrite (cacheModGit_retry_last _ Once).
Qed.

Lemma serveModGit_retry_trace (refspec : string) :
  (negb pseudoVer && (subPath =? "") && strings.HasPrefix refspec "v" = true ->
   strings.HasPrefix (strings.drop 1 refspec) "v" = false) ->
  trace (serveModGit_retry_refspec W gitdir pseudoVer subPath refspec)
  = List.map (gitLog gitdir "--format=%ct")
      (queriesAsSpecified pseudoVer subPath refspec
         (timeQueryFails W gitdir refspec)).
Proof.
  intros Once.
  rewrite serveModGit_retry_unfold, trace_bind, trace_runGitOutputShort.
  unfold queriesAsSpecified, timeQueryFails.
  assert (forall err : error,
            trace
              (if negb pseudoVer && (subPath =? "")
                  && strings.HasPrefix refspec "v"
               then match refspec with
                    | String _ rest =>
                        serveModGit_retry_refspec W gitdir pseudoVer subPath rest
                    | EmptyString =>
                        fail (errors_New ("failed to get commit date: "
                                          ++ Error err))
                    end
               else fail (errors_New ("failed to get commit date: "
                                      ++ Error err)))
            = List.map (gitLog gitdir "--format=%ct")
                (List.tl
                   (if true && negb pseudoVer && (subPath =? "")
                       && strings.HasPrefix refspec "v"
                    then [refspec; strings.drop 1 refspec]
                    else [refspec]))) as Failed.
  { intros err. change (true && negb pseudoVer) with (negb pseudoVer).
    destruct (negb pseudoVer && (subPath =? "") && strings.HasPrefix refspec "v")
      eqn:C; [|reflexivity].
    specialize (Once eq_refl).
    apply andb_prop in C as [_ C].
    destruct (HasPrefix_v_inv _ C) as (rest & -> & D).
    rewrite D in *. simpl List.tl.
    now rewrite (serveModGit_retry_last _ Once). }
  destruct (outcome_runGitOutputShort ["log"; "-1"; "--format=%ct"; refspec])
    as [r ->].
  destruct r as [e|s].
  - cbv zeta. rewrite Failed.
    now destruct (true && negb pseudoVer && (subPath =? "")
                  && strings.HasPrefix refspec "v").
  - cbv zeta. destruct (parseUnixTime W s) as [e|tm]; [|reflexivity].
    rewrite Failed.
    now destruct (true && negb pseudoVer && (subPath =? "")
                  && strings.HasPrefix refspec "v").
Qed.

End Retry.

Lemma refspec_agrees (pseudo : bool) (rev subPath version : string) :
  (if pseudo then rev
   else if negb (subPath =? "") then strings.Join [subPath; version] "/"
   else version)
  = refspecAsSpecified pseudo rev subPath version.
Proof.
  unfold refspecAsSpecified. destruct pseudo; [reflexivity|].
  now destruct (subPath =? "").
Qed.

(** With a canonical version, the refspec that is retried has no
    second [v] to lose. *)
Lemma retry_once (pseudo : bool) (rev subPath ver : string) :
  negb pseudo && (subPath =? "")
  && strings.HasPrefix
       (refspecAsSpecified pseudo rev subPath (semver.Canonical ver)) "v" = true ->
  strings.HasPrefix
    (strings.drop 1 (refspecAsSpecified pseudo rev subPath (semver.Canonical ver)))
    "v" = false.
Proof.
  unfold refspecAsSpecified. intros C.
  apply andb_prop in C as [C H]. apply andb_prop in C as [P S].
  destruct pseudo; [discriminate|]. rewrite S in *.
  destruct (Canonical_shape ver) as [E | (d & rest & E & D)]; rewrite E in *.
  - discriminate.
  - simpl strings.drop. now apply digit_not_v.
Qed.

Lemma trace_resolve (W : World) (modulePath subPath verCanonical : string) :
  trace (serveModGit_resolve W modulePath subPath verCanonical)
  = trace (serveModGit_retry_refspec W (path.Join [modulePath; ".git"])
             (IsPseudoVersion W verCanonical) subPath
             (refspecAsSpecified (IsPseudoVersion W verCanonical)
                (PseudoVersionRev W verCanonical) subPath verCanonical)).
Proof.
  unfold serveModGit_resolve. cbv zeta. rewrite refspec_agrees, trace_bind.
  destruct (outcome _) as [e|[r tm]]; [apply app_nil_r|].
  destruct (_ && _); apply app_nil_r.
Qed.

Lemma quiet_branches (W : World)
  (modulePath verMajorTag subPath verCanonical ext : string) (incompat : bool)
  (refspec : string) (timestampLocal : Z) :
  quiet
    (let gitdir := path.Join [modulePath; ".git"] in
     let ver := if incompat then verCanonical ++ "+incompatible" else verCanonical in
     let modFull := modFull modulePath subPath verMajorTag in
     if ext =? ".info" then
       match jsonMarshal W (mkRevInfo ver timestampLocal) with
       | inl err => fail (errors_New ("Failed to encode to json: " ++ Error err))
       | inr data => ret (BytesReader data)
       end
     else if ext =? ".mod" then
       serveModGit_mod W modulePath verMajorTag subPath gitdir refspec
     else if ext =? ".zip" then
       let prefix := strings.Join [modFull; ver] "@" ++ "/" in
       serveModGit_zip W verMajorTag subPath gitdir refspec prefix
     else ret NilReader).
Proof.
  cbv zeta.
  destruct (ext =? ".info").
  { destruct (jsonMarshal W _); auto with quiet. }
  destruct (ext =? ".mod"); [apply quiet_mod|].
  destruct (ext =? ".zip"); [apply quiet_zip | auto with quiet].
Qed.

(** C5.  In the fast path of [cacheModGit] and in [serveModGit]
    (which [serveModCached] calls with the canonical version) the
    refspec is the canonical version, or [<subdir>/<version>] with a
    subdirectory, or the revision of a pseudo-version; it is queried
    once, and once more without its leading [v] when the first query
    fails, there is no subdirectory, the version is not a
    pseudo-version and the refspec starts with [v].  No other
    [git log] is run. *)
Theorem refspec_queries (W : World)
  (modulePath verMajorTag subPath ver ext : string) (incompat : bool) :
  let version := semver.Canonical ver in
  let pseudo := IsPseudoVersion W version in
  let refspec :=
    refspecAsSpecified pseudo (PseudoVersionRev W version) subPath version in
  let gitdir := path.Join [modulePath; ".git"] in
  trace (cacheModGit_local W modulePath subPath ver)
  = List.map (gitLog gitdir "--format=%H")
      (queriesAsSpecified pseudo subPath refspec
         (hashQueryFails W gitdir refspec))
  /\
  List.filter isGitLog
    (trace (serveModGit W modulePath verMajorTag subPath version ext incompat))
  = List.map (gitLog gitdir "--format=%ct")
      (queriesAsSpecified pseudo subPath refspec
         (timeQueryFails W gitdir refspec)).
Proof.
  intros version pseudo refspec gitdir. split.
  - unfold cacheModGit_local. cbv zeta. fold version pseudo.
    rewrite refspec_agrees. fold refspec gitdir.
    rewrite trace_bind.
    rewrite (cacheModGit_retry_trace W gitdir subPath pseudo refspec)
      by apply retry_once.
    destruct (outcome _) as [e|[e|]]; apply app_nil_r.
  - unfold serveModGit. rewrite trace_bind, filter_app, trace_resolve.
    fold version pseudo refspec gitdir.
    rewrite (serveModGit_retry_trace W gitdir subPath pseudo refspec)
      by apply retry_once.
    rewrite filter_gitLog.
    destruct (outcome _) as [e|[r tl]]; [apply app_nil_r|].
    replace (List.filter isGitLog (trace _)) with (@nil Event);
      [apply app_nil_r|].
    symmetry.
    exact (quiet_branches W modulePath verMajorTag subPath version ext
             incompat r tl).
Qed.

(** ** The module manifest *)

Lemma modFull_joined (modulePath subPath verMajorTag : string) :
  modFull modulePath subPath verMajorTag
  = fullModulePath modulePath subPath verMajorTag.
Proof.
  unfold modFull, fullModulePath. cbv zeta.
  destruct (subPath =? ""), (verMajorTag =? ""); simpl negb; cbv iota;
    simpl strings.Join;
    rewrite ?append_nil_r, ?append_assoc; reflexivity.
Qed.

Lemma treeish_subdir (refspec subPath : string) :
  (if negb (subPath =? "") then (refspec ++ "^{tree}:") ++ subPath ++ "/"
   else refspec ++ "^{tree}:")
  = subdirTree refspec subPath.
Proof.
  unfold subdirTree. destruct (subPath =? ""); simpl negb; cbv iota.
  - now rewrite append_nil_r.
  - now rewrite append_assoc.
Qed.

Lemma eqb_append_self (a b : string) : (a ++ b =? a) = (b =? "").
Proof.
  destruct (String.eqb_spec b "") as [->|N].
  - rewrite append_nil_r. apply String.eqb_refl.
  - apply String.eqb_neq. intros E. now apply append_eq_self in E.
Qed.

Section Manifest.

Variable W : World.
Variables (modulePath verMajorTag subPath gitdir refspec : string).

Lemma trace_extractMod (tree : string) :
  trace (serveModGit_extractMod W gitdir refspec tree) = [modArchive gitdir tree].
Proof.
  unfold serveModGit_extractMod. rewrite trace_bind.
  unfold getGitOutputCmd, outcome, trace. cbn [fst snd].
  destruct (spawn W _ _ _) as [e|p]; [reflexivity|].
  now destruct (getSingleFileFromTar _ _ _), (waitErr p).
Qed.

Lemma outcome_extractMod (tree : string) :
  outcome (serveModGit_extractMod W gitdir refspec tree)
  = match extraction W gitdir tree with
    | inl err =>
        inl (errors_New ("Failed to run git archive (go.mod) " ++ refspec
                         ++ ": " ++ Error err))
    | inr d => inr d
    end.
Proof.
  unfold serveModGit_extractMod, extraction. rewrite outcome_bind.
  unfold getGitOutputCmd, outcome. cbn [snd].
  destruct (spawn W _ _ _) as [e|p]; [reflexivity|].
  now destruct (getSingleFileFromTar _ _ _), (waitErr p).
Qed.

(** The [.mod] branch, with its trees and its module path written as
    the statements have them. *)
Lemma serveModGit_mod_unfold :
  serveModGit_mod W modulePath verMajorTag subPath gitdir refspec =
  (let tree := subdirTree refspec subPath in
   let synthesized :=
     ret (BytesReader ("module " ++ fullModulePath modulePath subPath verMajorTag
                       ++ LF)) in
   d <- serveModGit_extractMod W gitdir refspec (tree ++ verMajorTag) ;;
   match d with
   | Some data => ret (BytesReader data)
   | None =>
       if negb (verMajorTag =? "") then
         d <- serveModGit_extractMod W gitdir refspec tree ;;
         match d with
         | Some data => ret (BytesReader data)
         | None => synthesized
         end
       else synthesized
   end).
Proof.
  unfold serveModGit_mod. cbv zeta.
  rewrite treeish_subdir, modFull_joined.
  destruct (String.eqb_spec verMajorTag "") as [->|N]; simpl negb; cbv iota.
  - now rewrite append_nil_r, String.eqb_refl.
  - rewrite eqb_append_self.
    apply String.eqb_neq in N. now rewrite N.
Qed.

Lemma serveModGit_mod_spec :
  let tree := subdirTree refspec subPath in
  let served := serveModGit_mod W modulePath verMajorTag subPath gitdir refspec in
  let synthesized :=
    BytesReader ("module " ++ fullModulePath modulePath subPath verMajorTag
                 ++ LF) in
  trace served
  = List.map (modArchive gitdir)
      (if negb (verMajorTag =? "")
          && extractionFails W gitdir (tree ++ verMajorTag)
       then [tree ++ verMajorTag; tree] else [tree ++ verMajorTag])
  /\ (forall data,
        extraction W gitdir (tree ++ verMajorTag) = inr (Some data) ->
        outcome served = inr (BytesReader data))
  /\ (extraction W gitdir (tree ++ verMajorTag) = inr None ->
      verMajorTag <> "" ->
      forall data, extraction W gitdir tree = inr (Some data) ->
                   outcome served = inr (BytesReader data))
  /\ (extraction W gitdir (tree ++ verMajorTag) = inr None ->
      verMajorTag = "" \/ extraction W gitdir tree = inr None ->
      outcome served = inr synthesized).
Proof.
  intros tree served synthesized. unfold served.
  rewrite serveModGit_mod_unfold. cbv zeta. fold tree.
  rewrite trace_bind, outcome_bind, trace_extractMod, !outcome_extractMod.
  unfold extractionFails.
  destruct (extraction W gitdir (tree ++ verMajorTag)) as [e|[data|]] eqn:E1.
  - rewrite andb_false_r. split; [reflexivity|].
    repeat split; intros; discriminate.
  - rewrite andb_false_r. split; [reflexivity|].
    split; [intros d D; now injection D as -> |].
    split; intros; discriminate.
  - rewrite andb_true_r.
    destruct (String.eqb_spec verMajorTag "") as [T|T]; simpl negb; cbv iota.
    + split; [reflexivity|].
      split; [intros; discriminate|].
      split; [intros _ N; now elim N | reflexivity].
    + rewrite trace_bind, outcome_bind, trace_extractMod, outcome_extractMod.
      split.
      { simpl. now destruct (extraction W gitdir tree) as [e|[d|]]. }
      split; [intros; discriminate|].
      split.
      * intros _ _ data E2. now rewrite E2.
      * intros _ [T'|E2]; [now elim T | now rewrite E2].
Qed.

End Manifest.

(** C6.  Once the refspec is resolved, a [.mod] request first
    extracts [go.mod] from the tree [<refspec>^{tree}:<subdir>/<tag>]
    (without the slash when there is no subdirectory).  With a major
    tag, when that extraction runs and gives no [go.mod], it is tried
    once more on the tree without the tag; no other extraction is
    made.  The first extraction that succeeds gives the body; when
    every extraction made has run and failed the request succeeds with
    the body [module <full-module-path>] and a line feed. *)
Theorem go_mod_extraction (W : World)
  (modulePath verMajorTag subPath verCanonical : string) (incompat : bool)
  (refspec : string) (timestampLocal : Z) :
  outcome (serveModGit_resolve W modulePath subPath verCanonical)
    = inr (refspec, timestampLocal) ->
  let gitdir := path.Join [modulePath; ".git"] in
  let tree := subdirTree refspec subPath in
  let served :=
    serveModGit W modulePath verMajorTag subPath verCanonical ".mod" incompat in
  let synthesized :=
    BytesReader ("module " ++ fullModulePath modulePath subPath verMajorTag
                 ++ LF) in
  let attempts :=
    if negb (verMajorTag =? "") && extractionFails W gitdir (tree ++ verMajorTag)
    then [tree ++ verMajorTag; tree] else [tree ++ verMajorTag] in
  trace served
  = (trace (serveModGit_resolve W modulePath subPath verCanonical)
     ++ List.map (modArchive gitdir) attempts)%list
  /\ (forall data,
        extraction W gitdir (tree ++ verMajorTag) = inr (Some data) ->
        outcome served = inr (BytesReader data))
  /\ (extraction W gitdir (tree ++ verMajorTag) = inr None ->
      verMajorTag <> "" ->
      forall data, extraction W gitdir tree = inr (Some data) ->
                   outcome served = inr (BytesReader data))
  /\ (extraction W gitdir (tree ++ verMajorTag) = inr None ->
      verMajorTag = "" \/ extraction W gitdir tree = inr None ->
      outcome served = inr synthesized).
Proof.
  intros R gitdir tree served synthesized attempts. unfold attempts.
  assert (trace served
          = (trace (serveModGit_resolve W modulePath subPath verCanonical)
             ++ trace (serveModGit_mod W modulePath verMajorTag subPath gitdir
                         refspec))%list
          /\ outcome served
             = outcome (serveModGit_mod W modulePath verMajorTag subPath gitdir
                          refspec)) as [T O].
  { unfold served, serveModGit. rewrite trace_bind, outcome_bind, R.
    split; reflexivity. }
  rewrite T, O.
  destruct (serveModGit_mod_spec W modulePath verMajorTag subPath gitdir refspec)
    as (S1 & S2 & S3 & S4).
  rewrite S1. repeat split; assumption.
Qed.

Lemma go_mod_extraction_witness :
  outcome (serveModGit exampleWorld "example.com/a" "v2" "" "v2.0.0" ".mod" false)
  = inr (BytesReader ("module example.com/a/v2" ++ LF)).
Proof.
  apply (go_mod_extraction exampleWorld "example.com/a" "v2" "" "v2.0.0" false
           "v2.0.0" 1700000000 eq_refl);
    [reflexivity | right; reflexivity].
Defined.

(** ** The license pass *)

Section LicensePass.

Variable W : World.

Lemma unlicensed_retry (gitdir subPath : string) (pseudoVer : bool)
  (refspec : string) :
  silent isLicenseArchive
    (serveModGit_retry_refspec W gitdir pseudoVer subPath refspec).
Proof.
  induction refspec as [|c rest IH]; rewrite serveModGit_retry_unfold;
    (apply silent_bind;
     [unfold silent; now rewrite trace_runGitOutputShort|]);
    intros [e|s]; cbv zeta.
  - destruct (_ && _); apply silent_fail.
  - destruct (parseUnixTime W s); [|apply silent_ret].
    destruct (_ && _); apply silent_fail.
  - destruct (_ && _); [exact IH | apply silent_fail].
  - destruct (parseUnixTime W s); [|apply silent_ret].
    destruct (_ && _); [exact IH | apply silent_fail].
Qed.

Lemma unlicensed_resolve (modulePath subPath verCanonical : string) :
  silent isLicenseArchive (serveModGit_resolve W modulePath subPath verCanonical).
Proof.
  unfold silent. rewrite trace_resolve. apply unlicensed_retry.
Qed.

Lemma unlicensed_collect (gitdir prefix treeish vertag : string) :
  silent isLicenseArchive (collectGitArchiveOpts W gitdir prefix treeish vertag).
Proof.
  unfold collectGitArchiveOpts.
  apply silent_bind; [now apply silent_getGitOutputCmd|].
  intros [e|p]; [apply silent_fail|].
  destruct (surveyLoop _ _ _); [apply silent_fail|].
  destruct (waitErr p); [apply silent_fail | apply silent_ret].
Qed.

Lemma collect_second_pass_args (gitdir prefix treeish vertag : string)
  (cmdArgs : list string) (lic : bool) :
  outcome (collectGitArchiveOpts W gitdir prefix treeish vertag)
    = inr (cmdArgs, lic) ->
  exists a b c d e rest, cmdArgs = "archive" :: a :: b :: c :: d :: e :: rest.
Proof.
  unfold collectGitArchiveOpts. rewrite outcome_bind.
  unfold getGitOutputCmd, outcome. cbn [snd].
  destruct (spawn W _ _ _) as [e|p]; [discriminate|].
  destruct (surveyLoop _ _ _); [discriminate|].
  destruct (waitErr p); [discriminate|].
  simpl. intros H. injection H as <- _. repeat eexists.
Qed.

Lemma unlicensed_zip123 (verMajorTag subPath gitdir refspec prefix : string) :
  silent isLicenseArchive
    (serveModGit_zip123 W verMajorTag subPath gitdir refspec prefix).
Proof.
  unfold serveModGit_zip123.
  apply silent_bind_outcome; [apply unlicensed_collect|].
  intros [cmdArgs lic] O.
  destruct (collect_second_pass_args _ _ _ _ _ _ O)
    as (a & b & c & d & e & rest & ->).
  destruct (tmpFile W ".tmp"); [apply silent_fail|].
  apply silent_bind; [now apply silent_Run|].
  intros [err|]; [apply silent_fail|].
  apply silent_bind; [now apply silent_Run|].
  intros [[| code msg | msg]|];
    try apply silent_fail; try apply silent_ret.
  destruct code as [|p|p]; try apply silent_fail.
  do 4 (try (destruct p as [p|p|];
             try apply silent_fail; try apply silent_ret)).
Qed.

Lemma licensed_zip4 (gitdir refspec prefix : string) :
  List.filter isLicenseArchive (trace (serveModGit_zip4 W gitdir refspec prefix))
  <> [].
Proof.
  unfold serveModGit_zip4. rewrite trace_bind.
  unfold getGitOutputCmd at 1. unfold trace at 1. cbn [fst].
  simpl. discriminate.
Qed.

Lemma zip_skips (verMajorTag subPath gitdir refspec prefix : string) (lic : bool) :
  outcome (serveModGit_zip123 W verMajorTag subPath gitdir refspec prefix)
    = inr lic ->
  (List.filter isLicenseArchive
     (trace (serveModGit_zip W verMajorTag subPath gitdir refspec prefix)) = []
   <-> (lic = true \/ (subPath = "" /\ verMajorTag = "")))
  /\ (lic = true \/ (subPath = "" /\ verMajorTag = "") ->
      outcome (serveModGit_zip W verMajorTag subPath gitdir refspec prefix)
        = inr ArchiveTmp).
Proof.
  intros O. unfold serveModGit_zip.
  rewrite trace_bind, outcome_bind, filter_app, unlicensed_zip123, O.
  simpl app.
  assert (lic || ((subPath =? "") && (verMajorTag =? "")) = true
          <-> (lic = true \/ (subPath = "" /\ verMajorTag = ""))) as B.
  { rewrite orb_true_iff, andb_true_iff, !String.eqb_eq. tauto. }
  destruct (lic || ((subPath =? "") && (verMajorTag =? ""))).
  - split; [|reflexivity]. split; [intros _; now apply B | reflexivity].
  - split.
    + split; [intros E; now elim (licensed_zip4 _ _ _ E)|].
      intros H. apply B in H. discriminate.
    + intros H. apply B in H. discriminate.
Qed.

End LicensePass.

(** C7, as amended.  Once the first three passes are through, the
    fourth pass is skipped exactly when the first pass found a LICENSE
    at the scope it archives, or the request has neither subdirectory
    nor major tag; the archive is then returned as it is.  In every
    other case the extraction of the LICENSE of the root tree is
    started.  The flag is the one [collectGitArchiveOpts] returns. *)
Theorem license_pass (W : World)
  (modulePath verMajorTag subPath verCanonical : string) (incompat : bool)
  (refspec : string) (timestampLocal : Z) (lic : bool) :
  let gitdir := path.Join [modulePath; ".git"] in
  let ver := if incompat then verCanonical ++ "+incompatible" else verCanonical in
  let prefix :=
    strings.Join [modFull modulePath subPath verMajorTag; ver] "@" ++ "/" in
  let served :=
    serveModGit W modulePath verMajorTag subPath verCanonical ".zip" incompat in
  outcome (serveModGit_resolve W modulePath subPath verCanonical)
    = inr (refspec, timestampLocal) ->
  outcome (serveModGit_zip123 W verMajorTag subPath gitdir refspec prefix)
    = inr lic ->
  (List.filter isLicenseArchive (trace served) = []
   <-> (lic = true \/ (subPath = "" /\ verMajorTag = "")))
  /\ (lic = true \/ (subPath = "" /\ verMajorTag = "") ->
      outcome served = inr ArchiveTmp)
  /\ (exists cmdArgs,
        outcome (collectGitArchiveOpts W gitdir prefix
                   (refspec ++ "^{tree}:" ++ subPath) verMajorTag)
        = inr (cmdArgs, lic)).
Proof.
  intros gitdir ver prefix served R O.
  assert (trace served
          = (trace (serveModGit_resolve W modulePath subPath verCanonical)
             ++ trace (serveModGit_zip W verMajorTag subPath gitdir refspec
                         prefix))%list
          /\ outcome served
             = outcome (serveModGit_zip W verMajorTag subPath gitdir refspec
                          prefix)) as [T E].
  { unfold served, serveModGit. rewrite trace_bind, outcome_bind, R.
    split; reflexivity. }
  rewrite T, E, filter_app, unlicensed_resolve. simpl app.
  destruct (zip_skips W verMajorTag subPath gitdir refspec prefix lic O)
    as [S1 S2].
  split; [exact S1|]. split; [exact S2|].
  revert O. unfold serveModGit_zip123. rewrite outcome_bind.
  destruct (outcome (collectGitArchiveOpts _ _ _ _ _)) as [e|[cmdArgs l]];
    [discriminate|].
  destruct (tmpFile W ".tmp"); [discriminate|].
  rewrite outcome_bind.
  destruct (outcome_Run W GitCommand gitdir cmdArgs) as [r ->].
  destruct r; [discriminate|].
  rewrite outcome_bind.
  destruct (outcome_Run W "zip" "" ["-d"; ".tmp/zip-fd3.zip"; "*/"]) as [r ->].
  intros H. exists cmdArgs. f_equal. f_equal.
  destruct r as [[| code msg | msg]|]; try discriminate;
    try (now injection H).
  destruct code as [|p|p]; try discriminate.
  do 4 (try (destruct p as [p|p|]; try discriminate; try (now injection H))).
Qed.

Lemma license_pass_witness :
  List.filter isLicenseArchive
    (trace (serveModGit exampleWorld "example.com/a" "v2" "" "v2.0.0" ".zip"
              false)) = [].
Proof.
  apply (license_pass exampleWorld "example.com/a" "v2" "" "v2.0.0" false
           "v2.0.0" 1700000000 true eq_refl eq_refl).
  left. reflexivity.
Defined.

(** C7 as it is worded fails: for the tagged request of [v2.0.0] the
    first pass finds the LICENSE of the root, and the fourth pass is
    skipped although a LICENSE was found and a major tag is present. *)
Lemma license_pass_skipped_when_found :
  ~ licensePassAsSpecified exampleWorld "example.com/a" "v2" "" "v2.0.0" false.
Proof.
  intros H.
  specialize (H "v2.0.0" 1700000000%Z true eq_refl eq_refl).
  destruct H as [H _]. specialize (H eq_refl).
  destruct H as [H _]. discriminate.
Qed.

(** ** Worked requests *)

(** The request for [gopkg.in/yaml.v2] at [v1.0.0] is refused. *)
Example checkModulePathVer_yaml_v1 :
  checkModulePathVer "gopkg.in/yaml.v2" "v1.0.0" = ("", "", false, false).
Proof. reflexivity. Qed.

Example checkModulePathVer_yaml_v2 :
  checkModulePathVer "gopkg.in/yaml.v2" "v2.4.0"
  = ("gopkg.in/yaml.v2", "", false, true).
Proof. reflexivity. Qed.

(** A package below the cached repository is found with its
    subdirectory; a module that is not cached is not found. *)
Example checkModVcsLocal_below_root :
  checkModVcsLocal exampleWorld "example.com/a/sub/pkg"
  = Some ("example.com/a", "sub/pkg", ".git", None).
Proof. reflexivity. Qed.

Example checkModVcsLocal_not_cached :
  checkModVcsLocal exampleWorld "example.org/b"
  = Some ("", "", "", Some ErrNotExist).
Proof. reflexivity. Qed.

(** The manifest of [example.com/a/v2] at [v2.0.0]: one query of the
    commit time, two extractions, and a synthesized body. *)
Example serveModGit_mod_synthesized :
  serveModGit exampleWorld "example.com/a" "v2" "" "v2.0.0" ".mod" false
  = ([gitLog "example.com/a/.git" "--format=%ct" "v2.0.0";
      modArchive "example.com/a/.git" "v2.0.0^{tree}:v2";
      modArchive "example.com/a/.git" "v2.0.0^{tree}:"],
     inr (BytesReader ("module example.com/a/v2" ++ LF))).
Proof. reflexivity. Qed.

(** A version whose tag is missing is queried a second time without
    its [v], and then given up. *)
Example cacheModGit_local_retry :
  cacheModGit_local exampleWorld "example.com/a" "" "v3"
  = ([gitLog "example.com/a/.git" "--format=%H" "v3.0.0";
      gitLog "example.com/a/.git" "--format=%H" "3.0.0"],
     inr false).
Proof. reflexivity. Qed.

(** * Further properties *)

(** ** [strings.Index], [strings.Cut] and suffixes *)

Lemma Index_unfold (s sep : string) :
  strings_Index s sep =
  if strings.HasPrefix s sep then 0%Z
  else match s with
       | EmptyString => (-1)%Z
       | String _ s' =>
           let r := strings_Index s' sep in
           if (r =? -1)%Z then (-1)%Z else (r + 1)%Z
       end.
Proof. destruct s; reflexivity. Qed.

Lemma HasPrefix_nil (s : string) : strings.HasPrefix s "" = true.
Proof. now destruct s. Qed.

Lemma HasPrefix_cons (c d : ascii) (s p : string) :
  strings.HasPrefix (String c s) (String d p)
  = Ascii.eqb d c && strings.HasPrefix s p.
Proof.
  unfold strings.HasPrefix. cbn [String.prefix].
  destruct (ascii_dec d c) as [->|N].
  - now rewrite Ascii.eqb_refl.
  - apply Ascii.eqb_neq in N. now rewrite N.
Qed.

Lemma Index_lower (s sep : string) : (-1 <= strings_Index s sep)%Z.
Proof.
  induction s as [|c s IH]; rewrite Index_unfold;
    destruct (strings.HasPrefix _ sep); try lia.
  cbv zeta. destruct (Z.eqb_spec (strings_Index s sep) (-1)); lia.
Qed.

(** The index found is that of the first instance. *)
Lemma Index_found (sep s : string) (i : Z) :
  strings_Index s sep = i -> i <> (-1)%Z ->
  (0 <= i)%Z /\
  exists a b, cutAt s sep a b /\ String.length a = Z.to_nat i
              /\ (forall a' b', cutAt s sep a' b' ->
                                String.length a <= String.length a').
Proof.
  unfold cutAt.
  revert i; induction s as [|c s IH]; intros i; rewrite Index_unfold;
    destruct (strings.HasPrefix _ sep) eqn:P.
  - intros <- _. split; [lia|]. apply HasPrefix_inv in P as [r ->].
    exists "", r. repeat split. intros; simpl; lia.
  - intros <- N. now elim N.
  - intros <- _. split; [lia|]. apply HasPrefix_inv in P as [r ->].
    exists "", r. repeat split. intros; simpl; lia.
  - cbv zeta. pose proof (Index_lower s sep) as L.
    destruct (Z.eqb_spec (strings_Index s sep) (-1)) as [E|N].
    { intros <- X. now elim X. }
    intros <- _.
    destruct (IH _ eq_refl N) as (Pos & a & b & E & La & F).
    split; [lia|]. exists (String c a), b. repeat split.
    + simpl. now rewrite E.
    + simpl. lia.
    + intros [|c' a'] b' E'.
      * simpl in E'. rewrite E' in P. now rewrite HasPrefix_app in P.
      * simpl in E'. injection E' as _ E'. specialize (F _ _ E').
        simpl. lia.
Qed.

Lemma Index_absent (sep s : string) :
  strings_Index s sep = (-1)%Z -> forall a b, ~ cutAt s sep a b.
Proof.
  unfold cutAt.
  induction s as [|c s IH]; rewrite Index_unfold;
    destruct (strings.HasPrefix _ sep) eqn:P; try discriminate.
  - intros _ [|c a] b E.
    + simpl in E. rewrite E in P. now rewrite HasPrefix_app in P.
    + discriminate.
  - cbv zeta.
    destruct (Z.eqb_spec (strings_Index s sep) (-1)) as [E|N].
    2:{ pose proof (Index_lower s sep). lia. }
    intros _ [|c' a] b E'.
    + simpl in E'. rewrite E' in P. now rewrite HasPrefix_app in P.
    + simpl in E'. injection E' as _ E'. now apply (IH E a b).
Qed.

Lemma app_same_length (a b a' b' : string) :
  a ++ b = a' ++ b' -> String.length a = String.length a' ->
  a = a' /\ b = b'.
Proof.
  revert a'; induction a as [|c a IH]; intros [|c' a'] E L;
    simpl in L; try discriminate.
  - now split.
  - simpl in E. injection E as -> E.
    destruct (IH a' E) as [-> ->]; [lia | now split].
Qed.

Lemma Cut_found (s sep a b : string) :
  strings_Cut s sep = (a, b, true) ->
  cutAt s sep a b /\
  (forall a' b', cutAt s sep a' b' -> String.length a <= String.length a').
Proof.
  unfold strings_Cut.
  destruct (Z.leb_spec 0 (strings_Index s sep)) as [L|L]; [|discriminate].
  destruct (Index_found sep s _ eq_refl) as (_ & a0 & b0 & E & La & F); [lia|].
  unfold cutAt in E.
  assert (strings.take (Z.to_nat (strings_Index s sep)) s = a0) as Ta.
  { rewrite <- La, E. apply take_app. }
  assert (strings.drop (Z.to_nat (strings_Index s sep) + String.length sep) s
          = b0) as Db.
  { rewrite <- La, E, <- length_append, <- append_assoc. apply drop_app. }
  rewrite Ta, Db. intros H. injection H as <- <-. now split.
Qed.

Lemma Cut_absent (s sep a b : string) :
  strings_Cut s sep = (a, b, false) ->
  a = s /\ b = "" /\ (forall x y, ~ cutAt s sep x y).
Proof.
  unfold strings_Cut.
  destruct (Z.leb_spec 0 (strings_Index s sep)) as [L|L]; [discriminate|].
  intros H. injection H as <- <-. repeat split.
  apply Index_absent. pose proof (Index_lower s sep). lia.
Qed.

(** Cutting at the first instance gives back the two parts. *)
Lemma Cut_first (sep a b : string) :
  (forall a' b', cutAt (a ++ sep ++ b) sep a' b' ->
                 String.length a <= String.length a') ->
  strings_Cut (a ++ sep ++ b) sep = (a, b, true).
Proof.
  intros F.
  destruct (strings_Cut (a ++ sep ++ b) sep) as [[a0 b0] [|]] eqn:C.
  - destruct (Cut_found _ _ _ _ C) as [E F0].
    specialize (F _ _ E). specialize (F0 a b eq_refl).
    unfold cutAt in E.
    destruct (app_same_length _ _ _ _ E) as [-> E']; [lia|].
    apply append_inv_head in E'. now subst.
  - destruct (Cut_absent _ _ _ _ C) as (_ & _ & N). now elim (N a b).
Qed.

Lemma HasSuffix_iff (s suf : string) :
  strings.HasSuffix s suf = true <-> exists a, s = a ++ suf.
Proof.
  unfold strings.HasSuffix. split.
  - intros H. apply andb_prop in H as [L E].
    apply Nat.leb_le in L. apply String.eqb_eq in E.
    exists (strings.take (String.length s - String.length suf) s).
    transitivity (strings.take (String.length s - String.length suf) s
                  ++ strings.drop (String.length s - String.length suf) s).
    + symmetry. apply take_drop.
    + now rewrite E.
  - intros [a ->]. rewrite length_append.
    replace (String.length a + String.length suf - String.length suf)
      with (String.length a) by lia.
    rewrite drop_app, String.eqb_refl, andb_true_r.
    apply Nat.leb_le. lia.
Qed.

Lemma CutSuffix_found (s suf a : string) :
  strings_CutSuffix s suf = (a, true) -> s = a ++ suf.
Proof.
  unfold strings_CutSuffix.
  destruct (strings.HasSuffix s suf) eqn:H; simpl negb; cbv iota;
    [|discriminate].
  apply HasSuffix_iff in H as [a0 ->].
  intros E. injection E as <-. rewrite length_append.
  replace (String.length a0 + String.length suf - String.length suf)
    with (String.length a0) by lia.
  now rewrite take_app.
Qed.

Lemma CutSuffix_absent (s suf a : string) :
  strings_CutSuffix s suf = (a, false) ->
  a = s /\ forall x, s <> x ++ suf.
Proof.
  unfold strings_CutSuffix.
  destruct (strings.HasSuffix s suf) eqn:H; simpl negb; cbv iota;
    [discriminate|].
  intros E. injection E as <-. split; [reflexivity|].
  intros x ->.
  assert (strings.HasSuffix (x ++ suf) suf = true) as T
      by (apply HasSuffix_iff; eauto).
  congruence.
Qed.

Lemma CutSuffix_app (a suf : string) :
  strings_CutSuffix (a ++ suf) suf = (a, true).
Proof.
  destruct (strings_CutSuffix (a ++ suf) suf) as [a0 [|]] eqn:C.
  - apply CutSuffix_found in C.
    destruct (app_same_length a suf a0 suf C) as [-> _]; [|reflexivity].
    apply (f_equal String.length) in C. rewrite !length_append in C. lia.
  - apply CutSuffix_absent in C as [_ N]. now elim (N a).
Qed.

(** ** Request parsing *)

Lemma first_version_marker (m b : string) :
  occurs "@" m = false ->
  forall a' b', cutAt (m ++ "/@v/" ++ b) "/@v/" a' b' ->
                String.length m <= String.length a'.
Proof.
  intros O a' b' E. unfold cutAt in E.
  destruct (Nat.le_gt_cases (String.length m) (String.length a')) as [L|L];
    [assumption|]. exfalso.
  symmetry in E. destruct (app_cut _ _ _ _ E) as (k & Em & Ek); [lia|].
  destruct k as [|c k].
  { rewrite append_nil_r in Em. subst. lia. }
  simpl in Ek. injection Ek as Ec Ek. subst c.
  destruct k as [|c2 k2]; simpl in Ek; [discriminate|].
  injection Ek as Ec _. subst c2.
  rewrite Em, occurs_app in O. simpl in O.
  now rewrite orb_true_r in O.
Qed.

Lemma no_version_marker (m : string) :
  occurs "@" m = false ->
  forall a b, ~ cutAt (m ++ "/@latest") "/@v/" a b.
Proof.
  intros O a b E. unfold cutAt in E.
  destruct (Nat.le_gt_cases (String.length m) (String.length a)) as [L|L].
  - destruct (app_cut _ _ _ _ E L) as (k & Ea & Ek).
    destruct k as [|c k]; simpl in Ek; [discriminate|].
    injection Ek as _ Ek.
    apply (f_equal (occurs "/")) in Ek. rewrite occurs_app in Ek.
    simpl in Ek. now rewrite orb_true_r in Ek.
  - symmetry in E. destruct (app_cut _ _ _ _ E) as (k & Em & Ek); [lia|].
    destruct k as [|c k].
    { rewrite append_nil_r in Em. subst. lia. }
    simpl in Ek. injection Ek as Ec Ek. subst c.
    destruct k as [|c2 k2]; simpl in Ek; [discriminate|].
    injection Ek as Ec _. subst c2.
    rewrite Em, occurs_app in O. simpl in O.
    now rewrite orb_true_r in O.
Qed.

Lemma HasPrefix_up_to_slash (p m x : string) :
  occurs "/" p = false ->
  strings.HasPrefix (m ++ String "/" x) (p ++ "/") = true ->
  strings.HasPrefix (m ++ "/") (p ++ "/") = true.
Proof.
  revert m; induction p as [|d p IH]; intros m O H.
  - destruct m as [|c m]; [reflexivity|].
    cbn [append] in *. rewrite HasPrefix_cons in *.
    apply andb_prop in H as [H _]. rewrite H. simpl andb.
    apply HasPrefix_nil.
  - simpl in O. apply orb_false_elim in O as [Od Op].
    destruct m as [|c m]; cbn [append] in *; rewrite HasPrefix_cons in *;
      apply andb_prop in H as [H1 H2].
    + apply Ascii.eqb_eq in H1. subst d. discriminate.
    + rewrite H1. simpl andb. now apply IH.
Qed.

(** X1.  What [parseRequest] returns, in every case.  It succeeds on a
    path that does not begin with [sumdb/] and either holds [/@v/],
    which it cuts at its first instance, or ends in [/@latest]; it
    answers 404 to a path under [sumdb/], and 500 to any other, and
    then returns empty results. *)
Theorem parseRequest_cases (urlPath : string) :
  let '(escapedModulePath, prop, ok, resp) := parseRequest urlPath in
  if ok then
    resp = None /\ strings.HasPrefix urlPath "sumdb/" = false /\
    ((cutAt urlPath "/@v/" escapedModulePath prop
      /\ forall a b, cutAt urlPath "/@v/" a b ->
                     String.length escapedModulePath <= String.length a)
     \/ (prop = "latest" /\ urlPath = escapedModulePath ++ "/@latest"
         /\ forall a b, ~ cutAt urlPath "/@v/" a b))
  else
    escapedModulePath = "" /\ prop = "" /\
    ((strings.HasPrefix urlPath "sumdb/" = true
      /\ resp = Some (RespString StatusNotFound "not found"))
     \/ (strings.HasPrefix urlPath "sumdb/" = false
         /\ (forall a b, ~ cutAt urlPath "/@v/" a b)
         /\ (forall a, urlPath <> a ++ "/@latest")
         /\ resp = Some (RespString StatusInternalServerError
                           ("Unsupported URL path: " ++ urlPath)))).
Proof.
  unfold parseRequest.
  destruct (strings.HasPrefix urlPath "sumdb/") eqn:S.
  { repeat split. now left. }
  destruct (strings_Cut urlPath "/@v/") as [[m prop] [|]] eqn:C;
    simpl negb; cbv iota.
  - destruct (Cut_found _ _ _ _ C) as [E F]. repeat split. now left.
  - destruct (Cut_absent _ _ _ _ C) as (_ & _ & N).
    destruct (strings_CutSuffix urlPath "/@latest") as [e [|]] eqn:L;
      simpl negb; cbv iota.
    + apply CutSuffix_found in L. repeat split. right. now repeat split.
    + apply CutSuffix_absent in L as [_ L]. repeat split. right.
      now repeat split.
Qed.

(** X2.  A module path without [@], and which is not [sumdb] nor under
    [sumdb/], comes back from the URLs made of it. *)
Theorem parseRequest_round_trip (escapedModulePath prop : string) :
  occurs "@" escapedModulePath = false ->
  strings.HasPrefix (escapedModulePath ++ "/") "sumdb/" = false ->
  parseRequest (escapedModulePath ++ "/@v/" ++ prop)
  = (escapedModulePath, prop, true, None)
  /\ parseRequest (escapedModulePath ++ "/@latest")
     = (escapedModulePath, "latest", true, None).
Proof.
  intros O S.
  assert (forall x, strings.HasPrefix (escapedModulePath ++ String "/" x)
                      "sumdb/" = false) as S'.
  { intros x.
    destruct (strings.HasPrefix (escapedModulePath ++ String "/" x) "sumdb/")
      eqn:H; [|reflexivity].
    apply (HasPrefix_up_to_slash "sumdb") in H; [|reflexivity].
    change ("sumdb" ++ "/") with "sumdb/" in H. congruence. }
  split; unfold parseRequest.
  - change (escapedModulePath ++ "/@v/" ++ prop)
      with (escapedModulePath ++ String "/" ("@v/" ++ prop)) at 1.
    rewrite S'.
    rewrite Cut_first by now apply first_version_marker.
    reflexivity.
  - change (escapedModulePath ++ "/@latest")
      with (escapedModulePath ++ String "/" "@latest") at 1.
    rewrite S'.
    destruct (strings_Cut (escapedModulePath ++ "/@latest") "/@v/")
      as [[a b] [|]] eqn:C.
    + apply Cut_found in C as [C _].
      now elim (no_version_marker _ O _ _ C).
    + simpl negb. cbv iota. now rewrite CutSuffix_app.
Qed.

Lemma parseRequest_round_trip_witness :
  parseRequest ("example.com/!a/b" ++ "/@v/" ++ "v1.2.3.zip")
  = ("example.com/!a/b", "v1.2.3.zip", true, None)
  /\ parseRequest ("example.com/!a/b" ++ "/@latest")
     = ("example.com/!a/b", "latest", true, None).
Proof.
  apply (parseRequest_round_trip "example.com/!a/b" "v1.2.3.zip");
    reflexivity.
Defined.

(** ** Meta tags *)

(** X3.  The scan of the tokens [pre], none of which ends the head, adds
    their imports in order.  It then stops: at the end of the input
    and at a token that ends the head, whatever follows it, with the
    imports gathered; at a syntax error, with the error alone. *)
Theorem scanTokens_head_only (Out : Outside) (pre : list Token)
  (imports : list MetaImport) :
  Forall (fun t => endsHead Out t = false) pre ->
  let found := (imports ++ List.flat_map (importOf Out) pre)%list in
  scanTokens Out (tokensThen pre TokEOF) imports = inr found
  /\ (forall t rest, endsHead Out t = true ->
        scanTokens Out (tokensThen pre (TokNext t rest)) imports = inr found)
  /\ (forall err,
        scanTokens Out (tokensThen pre (TokError err)) imports = inl err).
Proof.
  intros H. revert imports.
  induction H as [|t pre Ht _ IH]; intros imports found; unfold found.
  - simpl. rewrite app_nil_r. repeat split.
    intros t rest T. destruct t as [local attrs|local|]; simpl in *;
      try discriminate; now rewrite T.
  - assert (forall tail,
              scanTokens Out (tokensThen (t :: pre) tail) imports
              = scanTokens Out (tokensThen pre tail)
                  (imports ++ importOf Out t)%list) as Step.
    { intros tail. simpl tokensThen. simpl scanTokens.
      destruct t as [local attrs|local|]; simpl in Ht |- *;
        rewrite ?Ht, ?app_nil_r; try reflexivity.
      destruct (EqualFold Out local "meta"); simpl; rewrite ?app_nil_r;
        [|reflexivity].
      destruct (attrValue Out attrs "name" =? "go-import"); simpl;
        rewrite ?app_nil_r; [|reflexivity].
      destruct (Fields Out _) as [|f0 [|f1 [|f2 [|f3 fs]]]];
        rewrite ?app_nil_r; reflexivity. }
    simpl List.flat_map. rewrite app_assoc.
    destruct (IH (imports ++ importOf Out t)%list) as (I1 & I2 & I3).
    split; [rewrite Step; exact I1|]. split.
    + intros t' rest T. rewrite Step. now apply I2.
    + intros err. rewrite Step. apply I3.
Qed.

Lemma scanTokens_head_only_witness :
  scanTokens exampleOutside
    (tokensThen
       [StartElement "head" [];
        StartElement "meta"
          [mkAttr "name" "go-import";
           mkAttr "content" "example.com/b git https://git.example.com/b.git"]]
       (TokNext (StartElement "BODY" [])
          (TokNext
             (StartElement "meta"
                [mkAttr "name" "go-import";
                 mkAttr "content" "example.com/b git https://evil.example.org/"])
             TokEOF)))
    []
  = inr [mkMetaImport "example.com/b" "git" "https://git.example.com/b.git"].
Proof.
  apply (scanTokens_head_only exampleOutside
           [StartElement "head" [];
            StartElement "meta"
              [mkAttr "name" "go-import";
               mkAttr "content"
                 "example.com/b git https://git.example.com/b.git"]]
           []).
  - repeat constructor.
  - reflexivity.
Defined.

(** ** The search for meta tags *)

Lemma boundaryPrefix_app (P sub M : string) :
  boundaryPrefix P sub M -> exists t, M = P ++ t.
Proof.
  intros [[-> _] | ->]; [exists ""; now rewrite append_nil_r | eauto].
Qed.

Lemma searchSpec_urls (Out : Outside) (M : string) (urls urls' : list string)
  (r : string * list MetaImport * option error) :
  searchSpec Out M (Some (urls, r)) -> searchSpec Out M (Some (urls', r)).
Proof. destruct r as [[P imports] [err|]]; exact (fun H => H). Qed.

Section DirectSearch.

Variable Out : Outside.
Variable M : string.

Lemma searchModuleVcsDirect_loop_unfold (fuel : nat) (cur : string) :
  searchModuleVcsDirect_loop Out (S fuel) cur =
  let '(urls, r) := checkModuleVcsDirect Out cur in
  match r with
  | inr imports => Some (urls, (cur, imports, None))
  | inl _ =>
      let idx := strings.LastIndexByte cur "/" in
      if (idx =? -1)%Z
      then Some (urls, ("", [], Some (errors_New "not found")))
      else
        match searchModuleVcsDirect_loop Out fuel
                (strings.take (Z.to_nat idx) cur) with
        | Some (urls', r') => Some ((urls ++ urls')%list, r')
        | None => None
        end
  end.
Proof. reflexivity. Qed.

Lemma searchModuleVcsDirect_loop_spec (fuel : nat) (cur : string) :
  String.length cur < fuel ->
  (exists sub, boundaryPrefix cur sub M) ->
  (forall P' sub', boundaryPrefix P' sub' M ->
                   String.length cur < String.length P' ->
                   exists e, snd (checkModuleVcsDirect Out P') = inl e) ->
  searchSpec Out M (searchModuleVcsDirect_loop Out fuel cur).
Proof.
  revert cur; induction fuel as [|fuel IH]; intros cur Hf [sub B] Inv; [lia|].
  rewrite searchModuleVcsDirect_loop_unfold.
  destruct (checkModuleVcsDirect Out cur) as [urls r] eqn:C.
  assert (snd (checkModuleVcsDirect Out cur) = r) as Sr by now rewrite C.
  destruct r as [e|imports].
  2:{ simpl. split; [eauto|]. split; assumption. }
  assert (forall P' sub', boundaryPrefix P' sub' M ->
                          String.length cur <= String.length P' ->
                          exists e, snd (checkModuleVcsDirect Out P') = inl e)
    as Inv'.
  { intros P' sub' B' L.
    destruct (Nat.eq_dec (String.length cur) (String.length P')) as [E|NE].
    - rewrite (boundaryPrefix_take _ _ _ B'), <- E,
        <- (boundaryPrefix_take _ _ _ B). eauto.
    - apply (Inv P' sub' B'). lia. }
  destruct (boundaryPrefix_app _ _ _ B) as [t Et].
  cbv zeta.
  destruct (Z.eqb_spec (strings.LastIndexByte cur "/") (-1)) as [E|N].
  - simpl. repeat split.
    intros P' sub' B'.
    destruct (Nat.le_gt_cases (String.length cur) (String.length P')) as [L|L];
      [now apply (Inv' P' sub')|].
    exfalso. apply LastIndexByte_absent in E.
    destruct B' as [[-> _] | B'].
    { rewrite Et, length_append in L. lia. }
    rewrite B' in Et. symmetry in Et.
    rewrite (occurs_before _ _ _ _ _ Et L) in E. discriminate.
  - destruct (LastIndexByte_found _ _ _ eq_refl N)
      as (Pos & a & b & Eab & La & Ob).
    rewrite <- La.
    assert (strings.take (String.length a) cur = a) as Ta.
    { rewrite Eab. apply take_app. }
    rewrite Ta.
    assert (M = a ++ String "/" (b ++ t)) as EM.
    { rewrite Et, Eab, append_assoc. reflexivity. }
    assert (String.length a < String.length cur) as Lac.
    { rewrite Eab, length_append. simpl. lia. }
    assert (searchSpec Out M (searchModuleVcsDirect_loop Out fuel a)) as R.
    { apply IH; [lia | exists (b ++ t); now right |].
      intros P' sub' B' L.
      destruct (Nat.le_gt_cases (String.length cur) (String.length P')) as [L'|L'];
        [now apply (Inv' P' sub')|].
      exfalso.
      destruct B' as [[-> _] | B'].
      { rewrite Et, length_append in L'. lia. }
      rewrite B' in EM. symmetry in EM.
      destruct (app_cut _ _ _ _ EM) as (m & Em & Ex); [lia|].
      destruct m as [|c m].
      { rewrite append_nil_r in Em. subst P'. lia. }
      simpl in Ex. injection Ex as Ec Ex. subst c.
      assert (String.length m < String.length b) as Lm.
      { subst P'. rewrite length_append in L'. simpl in L'.
        rewrite Eab, length_append in L'. simpl in L'. lia. }
      rewrite (occurs_before _ _ _ _ _ Ex Lm) in Ob. discriminate. }
    destruct (searchModuleVcsDirect_loop Out fuel a) as [[urls' r']|];
      [|contradiction].
    now apply (searchSpec_urls Out M urls').
Qed.

End DirectSearch.

Lemma searchModuleVcsDirect_sound (Out : Outside) (M : string) :
  searchSpec Out M (searchModuleVcsDirect Out M).
Proof.
  unfold searchModuleVcsDirect.
  apply searchModuleVcsDirect_loop_spec; [lia | exists ""; now left |].
  intros P' sub' B L. pose proof (boundaryPrefix_length _ _ _ B). lia.
Qed.

(** X4.  The search for meta tags always returns.  Its result is the
    longest prefix of the module path, taken whole or up to one of its
    slashes, at which the page is fetched and parsed, with the imports
    of that page; when the fetch fails at every such prefix the result
    is the error [not found]. *)
Theorem searchModuleVcsDirect_longest_prefix (Out : Outside) (M : string) :
  searchSpec Out M (searchModuleVcsDirect Out M).
Proof.
  unfold searchModuleVcsDirect.
  apply searchModuleVcsDirect_loop_spec; [lia | exists ""; now left |].
  intros P' sub' B L. pose proof (boundaryPrefix_length _ _ _ B). lia.
Qed.

(** ** The refresh of a module *)

Lemma Split_app_sep (sep : ascii) (a b : string) :
  strings.Split (a ++ String sep b) sep
  = (strings.Split a sep ++ strings.Split b sep)%list.
Proof.
  induction a as [|c a IH]; simpl.
  - now rewrite Ascii.eqb_refl.
  - destruct (Ascii.eqb c sep); rewrite IH; [reflexivity|].
    pose proof (Split_nonempty sep a) as NE.
    destruct (strings.Split a sep); [now elim NE | reflexivity].
Qed.

(** A path without bad components does not begin with a slash. *)
Lemma good_head (p : string) :
  Forall (fun c => badComponent c = false) (strings.Split p "/") ->
  exists c r, p = String c r /\ c <> "/"%char.
Proof.
  destruct p as [|c r]; simpl; intros G.
  - inversion G as [|? ? B _]. discriminate.
  - exists c, r. split; [reflexivity|]. intros ->.
    simpl in G. inversion G as [|? ? B _]. discriminate.
Qed.

(** A path whose last component is not empty has no trailing slash
    to trim. *)
Lemma TrimRight_good (p : string) :
  List.last (strings.Split p "/") "" <> "" ->
  strings_TrimRight p "/" = p /\ p <> "".
Proof.
  induction p as [|c r IH]; intros L.
  - now elim L.
  - split; [|discriminate].
    destruct r as [|d r'].
    + simpl in *. destruct (Ascii.eqb c "/"); [now elim L | reflexivity].
    + assert (List.last (strings.Split (String d r') "/") "" <> "") as L'.
      { intros E. apply L. remember (String d r') as r eqn:Er.
        simpl strings.Split.
        pose proof (Split_nonempty "/" r) as N.
        destruct (Ascii.eqb c "/").
        - destruct (strings.Split r "/") as [|h t]; [now elim N | now simpl].
        - destruct (strings.Split r "/") as [|h t] eqn:S; [now elim N|].
          destruct t as [|h' t]; [|now simpl].
          simpl in E. subst h.
          pose proof (Join_Split "/" r) as J. rewrite S in J. simpl in J.
          rewrite <- J in Er. discriminate. }
      destruct (IH L') as [T NE].
      change (strings_TrimRight (String c (String d r')) "/")
        with (let r1 := strings_TrimRight (String d r') "/" in
              if (r1 =? "") && Ascii.eqb c "/" then ""
              else String c r1).
      cbv zeta. rewrite T. reflexivity.
Qed.

Lemma TrimRight_snoc (a : string) (c : ascii) :
  strings_TrimRight (a ++ String c "") c = strings_TrimRight a c.
Proof.
  induction a as [|x a IH]; simpl.
  - now rewrite Ascii.eqb_refl.
  - now rewrite IH.
Qed.

Lemma good_last (p : string) :
  Forall (fun c => badComponent c = false) (strings.Split p "/") ->
  List.last (strings.Split p "/") "" <> "".
Proof.
  intros G E.
  pose proof (last_good _ (Split_nonempty "/" p) G) as B.
  rewrite E in B. discriminate.
Qed.

(** The path that the split returns has no bad component. *)
Lemma splitModuleMajorVer_path_good (modulePath path major : string) :
  splitModuleMajorVer modulePath = (path, major, true) ->
  Forall (fun c => badComponent c = false) (strings.Split path "/").
Proof.
  intros H.
  destruct (splitModuleMajorVer_ok _ _ _ H) as [G [[-> _] | T]]; [assumption|].
  destruct T as (init & rest & E & NE & _ & -> & _).
  rewrite E in G. apply Forall_app in G as [G _].
  rewrite Split_Join; [assumption | assumption |].
  pose proof (Split_no_sep "/" modulePath) as S.
  rewrite E in S. now apply Forall_app in S as [S _].
Qed.

(** The local lookup meets its specification. *)
Lemma checkModVcsLocal_sound (W : World) (M : string) :
  lookupSpec W M (checkModVcsLocal W M).
Proof.
  unfold checkModVcsLocal.
  apply checkModVcsLocal_loop_spec; try lia.
  - rewrite take_all. now left.
  - intros P' S' B L. pose proof (boundaryPrefix_length _ _ _ B). lia.
Qed.

(** Splitting a path at a slash keeps both sides well formed. *)
Lemma good_sides (a b : string) :
  Forall (fun c => badComponent c = false) (strings.Split (a ++ "/" ++ b) "/") ->
  Forall (fun c => badComponent c = false) (strings.Split a "/")
  /\ Forall (fun c => badComponent c = false) (strings.Split b "/").
Proof.
  change (a ++ "/" ++ b) with (a ++ String "/" b).
  rewrite Split_app_sep. apply Forall_app.
Qed.

Lemma TrimLeft_rest (prefix sub : string) :
  Forall (fun c => badComponent c = false) (strings.Split sub "/") ->
  strings_TrimLeft (strings_TrimPrefix (prefix ++ "/" ++ sub) prefix) "/" = sub.
Proof.
  intros G. unfold strings_TrimPrefix. rewrite HasPrefix_app, drop_app.
  destruct (good_head _ G) as (c & r & -> & N).
  simpl. apply Ascii.eqb_neq in N. now rewrite N.
Qed.

Lemma TrimPrefix_self (p : string) :
  strings_TrimLeft (strings_TrimPrefix p p) "/" = "".
Proof.
  unfold strings_TrimPrefix.
  assert (strings.HasPrefix p p = true) as ->.
  { pose proof (HasPrefix_app p "") as H. now rewrite append_nil_r in H. }
  assert (strings.drop (String.length p) p = "") as ->.
  { pose proof (drop_app p "") as H. now rewrite append_nil_r in H. }
  reflexivity.
Qed.

Lemma TrimSuffix_app (r suf : string) :
  strings.TrimSuffix (r ++ suf) suf = r.
Proof.
  unfold strings.TrimSuffix.
  assert (strings.HasSuffix (r ++ suf) suf = true) as ->
      by (apply HasSuffix_iff; eauto).
  rewrite length_append.
  replace (String.length r + String.length suf - String.length suf)
    with (String.length r) by lia.
  apply take_app.
Qed.

Lemma checkModulePathVer_path_good (modulePath ver path major : string)
  (incompat : bool) :
  strings.HasPrefix modulePath "gopkg.in/" = false ->
  checkModulePathVer modulePath ver = (path, major, incompat, true) ->
  Forall (fun c => badComponent c = false) (strings.Split path "/").
Proof.
  intros G H. rewrite (checkModulePathVer_elsewhere _ _ G) in H.
  destruct (splitModuleMajorVer modulePath) as [[p m] ok] eqn:S.
  injection H as -> -> _ ->.
  now apply (splitModuleMajorVer_path_good modulePath path major).
Qed.

Lemma refreshModPathVer_unfold (W : World) (Out : Outside)
  (escapedModulePath modulePath ver path major : string) (incompat : bool) :
  checkModulePathVer modulePath ver = (path, major, incompat, true) ->
  refreshModPathVer W Out escapedModulePath modulePath ver =
  match checkModVcsLocal W path with
  | None => ([], RefreshStuck)
  | Some (parentPath, subPath, vcs, None) =>
      if vcs =? ".git" then ([], Calls (CacheGit parentPath subPath ver ""))
      else if vcs =? ".mod" then ([], Calls (CachePlain parentPath subPath ver))
      else ([], RefreshPanics
                  ("Invalid local VCS type " ++ vcs ++ " for module "
                   ++ parentPath ++ ", should not happen"))
  | Some (_, _, _, Some _) =>
      let '(urls, r) := checkEsModulePathUpstream Out escapedModulePath in
      match r with
      | inl _ => (urls, GivesUp)
      | inr info =>
          match upstreamOrigin info with
          | Some org =>
              let root :=
                strings_TrimRight (strings.TrimSuffix path (Subdir org)) "/" in
              if VCS org =? "git"
              then (urls, Calls (CacheGit root (Subdir org) ver (URL org)))
              else (urls, Calls (CachePlain root (Subdir org) ver))
          | None =>
              match searchModuleVcsDirect Out path with
              | None => (urls, RefreshStuck)
              | Some (urls', (_, _, Some _)) => ((urls ++ urls')%list, GivesUp)
              | Some (urls', (prefix, imports, None)) =>
                  let subPath :=
                    strings_TrimLeft (strings_TrimPrefix path prefix) "/" in
                  match firstGitImport imports with
                  | Some im =>
                      ((urls ++ urls')%list,
                       Calls (CacheGit prefix subPath ver (RepoRoot im)))
                  | None =>
                      ((urls ++ urls')%list,
                       Calls (CachePlain prefix subPath ver))
                  end
              end
          end
      end
  end.
Proof. intros H. unfold refreshModPathVer. rewrite H. reflexivity. Qed.

(** X5.  Whatever way the repository is found, the root and the
    subdirectory handed to the cache make up the module path again.
    This holds for a path outside gopkg.in that the version check
    accepted, provided that the subdirectory upstream announces, if
    any, is the end of the path after a slash. *)
Theorem refreshModPathVer_rejoins (W : World) (Out : Outside)
  (escapedModulePath modulePath ver path major : string) (incompat : bool)
  (urls : list string) (c : CacheCall) :
  strings.HasPrefix modulePath "gopkg.in/" = false ->
  checkModulePathVer modulePath ver = (path, major, incompat, true) ->
  (forall info org,
     snd (checkEsModulePathUpstream Out escapedModulePath) = inr info ->
     upstreamOrigin info = Some org ->
     Subdir org = "" \/ exists r, path = r ++ "/" ++ Subdir org) ->
  refreshModPathVer W Out escapedModulePath modulePath ver = (urls, Calls c) ->
  boundaryPrefix (callRoot c) (callSubPath c) path /\ callVer c = ver.
Proof.
  intros NG H Honest.
  pose proof (checkModulePathVer_path_good _ _ _ _ _ NG H) as G.
  rewrite (refreshModPathVer_unfold _ _ _ _ _ _ _ _ H).
  pose proof (checkModVcsLocal_sound W path) as L.
  destruct (checkModVcsLocal W path) as [[[[P sub] vcs] [err|]]|];
    [| |discriminate].
  - (* not cached *)
    destruct (checkEsModulePathUpstream Out escapedModulePath) as [urls0 r0].
    simpl snd in Honest.
    destruct r0 as [e|info]; [discriminate|].
    destruct (upstreamOrigin info) as [org|] eqn:Eo.
    + assert (boundaryPrefix
                (strings_TrimRight (strings.TrimSuffix path (Subdir org)) "/")
                (Subdir org) path) as B.
      { destruct (Honest info org eq_refl Eo) as [E | [r E]].
        - rewrite E. left. split; [|reflexivity].
          pose proof (TrimSuffix_app path "") as T.
          rewrite append_nil_r in T. rewrite T.
          apply TrimRight_good. now apply good_last.
        - right.
          assert (strings_TrimRight
                    (strings.TrimSuffix path (Subdir org)) "/" = r) as T.
          { assert (path = (r ++ "/") ++ Subdir org) as E'
              by (rewrite E, append_assoc; reflexivity).
            rewrite E', TrimSuffix_app, TrimRight_snoc.
            rewrite E in G. destruct (good_sides _ _ G) as [Gr _].
            apply TrimRight_good. now apply good_last. }
          rewrite T. exact E. }
      cbv zeta. destruct (VCS org =? "git"); intros R; injection R as _ <-;
        now split.
    + pose proof (searchModuleVcsDirect_sound Out path) as S.
      destruct (searchModuleVcsDirect Out path)
        as [[urls' [[prefix imports] [e|]]]|]; try discriminate.
      destruct S as ([sub0 B] & _ & _).
      assert (boundaryPrefix prefix
                (strings_TrimLeft (strings_TrimPrefix path prefix) "/") path)
        as B'.
      { destruct B as [[-> ->] | E].
        - left. split; [reflexivity | apply TrimPrefix_self].
        - right.
          assert (strings_TrimLeft (strings_TrimPrefix path prefix) "/" = sub0)
            as T.
          { rewrite E in G. destruct (good_sides _ _ G) as [_ Gs].
            rewrite E. now apply TrimLeft_rest. }
          rewrite T. exact E. }
      cbv zeta. destruct (firstGitImport imports); intros R;
        injection R as _ <-; now split.
  - (* cached *)
    destruct L as (B & _ & _).
    destruct (vcs =? ".git"); [intros R; injection R as _ <-; now split|].
    destruct (vcs =? ".mod"); [intros R; injection R as _ <-; now split|].
    discriminate.
Qed.

Lemma refreshModPathVer_rejoins_witness :
  boundaryPrefix "example.com/b" "c" "example.com/b/c" /\ "v1.4.0" = "v1.4.0".
Proof.
  apply (refreshModPathVer_rejoins exampleWorld exampleOutside
           "example.com/b/c" "example.com/b/c" "v1.4.0" "example.com/b/c" ""
           false
           [latestURL "example.com/b/c"; goGetURL "example.com/b/c";
            goGetURL "example.com/b"]
           (CacheGit "example.com/b" "c" "v1.4.0"
              "https://git.example.com/b.git")).
  - reflexivity.
  - reflexivity.
  - intros info org E. vm_compute in E. injection E as <-. discriminate.
  - reflexivity.
Defined.

(** X6.  A repository that is already on disk is never looked up on the
    network: when some prefix of the accepted path (the whole path, or
    the path cut at a slash) has a readable [.vcs] link, the refresh
    fetches no URL and ends on the longest such prefix: with the local
    fast path of [cacheModGit] (empty remote) for a link to [.git],
    with [cacheModPlain] for [.mod], with a panic for any other link. *)
Theorem refreshModPathVer_local_first (W : World) (Out : Outside)
  (escapedModulePath modulePath ver path major : string) (incompat : bool)
  (P0 sub0 target0 : string) :
  checkModulePathVer modulePath ver = (path, major, incompat, true) ->
  boundaryPrefix P0 sub0 path ->
  probe W P0 = inr target0 ->
  exists P sub vcs,
    boundaryPrefix P sub path /\ probe W P = inr vcs
    /\ String.length P0 <= String.length P
    /\ refreshModPathVer W Out escapedModulePath modulePath ver =
       ([], if vcs =? ".git" then Calls (CacheGit P sub ver "")
            else if vcs =? ".mod" then Calls (CachePlain P sub ver)
            else RefreshPanics
                   ("Invalid local VCS type " ++ vcs ++ " for module "
                    ++ P ++ ", should not happen")).
Proof.
  intros H B0 R0.
  rewrite (refreshModPathVer_unfold _ _ _ _ _ _ _ _ H).
  pose proof (checkModVcsLocal_sound W path) as L.
  destruct (checkModVcsLocal W path) as [[[[P sub] vcs] [err|]]|];
    [| |contradiction].
  - destruct L as (_ & _ & _ & _ & A).
    destruct (A _ _ B0) as [e E]. congruence.
  - destruct L as (B & R & A).
    exists P, sub, vcs. repeat split; try assumption.
    + destruct (Nat.le_gt_cases (String.length P0) (String.length P))
        as [|Lt]; [assumption|].
      destruct (A _ _ B0 Lt) as [e E]. congruence.
    + destruct (vcs =? ".git"); [reflexivity|].
      destruct (vcs =? ".mod"); reflexivity.
Qed.

Lemma refreshModPathVer_local_first_witness :
  exists P sub vcs,
    boundaryPrefix P sub "example.com/a/x" /\ probe exampleWorld P = inr vcs
    /\ String.length "example.com/a" <= String.length P
    /\ refreshModPathVer exampleWorld exampleOutside
         "example.com/a/x" "example.com/a/x" "v1.4.0" =
       ([], if vcs =? ".git" then Calls (CacheGit P sub "v1.4.0" "")
            else if vcs =? ".mod" then Calls (CachePlain P sub "v1.4.0")
            else RefreshPanics
                   ("Invalid local VCS type " ++ vcs ++ " for module "
                    ++ P ++ ", should not happen")).
Proof.
  apply (refreshModPathVer_local_first exampleWorld exampleOutside
           "example.com/a/x" "example.com/a/x" "v1.4.0" "example.com/a/x" ""
           false "example.com/a" "x" ".git").
  - reflexivity.
  - right. reflexivity.
  - reflexivity.
Defined.



(** ** Extensions *)

Lemma path_Ext_suffix (p : string) : exists v, p = v ++ path_Ext p.
Proof.
  induction p as [|c r [v IH]]; [now exists ""|].
  simpl. destruct (occurs "." r || occurs "/" r).
  - exists (String c v). simpl. now f_equal.
  - destruct (Ascii.eqb c "."); [now exists ""|].
    exists (String c r). now rewrite append_nil_r.
Qed.

Lemma take_suffix (v e : string) :
  strings.take (String.length (v ++ e) - String.length e) (v ++ e) = v.
Proof.
  rewrite length_append.
  replace (String.length v + String.length e - String.length e)
    with (String.length v) by lia.
  apply take_app.
Qed.

Lemma take_Ext (p : string) :
  p = strings.take (String.length p - String.length (path_Ext p)) p
      ++ path_Ext p.
Proof.
  destruct (path_Ext_suffix p) as [v E].
  remember (path_Ext p) as e eqn:He. clear He. subst p.
  now rewrite take_suffix.
Qed.

Lemma path_Ext_app (v w : string) :
  occurs "." w = false -> occurs "/" w = false ->
  path_Ext (v ++ String "." w) = String "." w.
Proof.
  intros D S. induction v as [|c v IH]; simpl.
  - now rewrite D, S.
  - rewrite occurs_app. simpl. rewrite orb_true_r. exact IH.
Qed.

(** The three extensions that the proxy serves. *)
Lemma served_ext (ext : string) :
  (ext =? ".info") || (ext =? ".mod") || (ext =? ".zip") = true ->
  exists w, ext = String "." w /\ occurs "." w = false /\ occurs "/" w = false.
Proof.
  intros H. apply orb_prop in H as [H|H]; [apply orb_prop in H as [H|H]|];
    apply String.eqb_eq in H; subst ext; eexists; repeat split.
Qed.

Lemma parseRequest_ok (urlPath escapedModulePath prop : string)
  (resp : option Response) :
  parseRequest urlPath = (escapedModulePath, prop, true, resp) ->
  resp = None
  /\ (cutAt urlPath "/@v/" escapedModulePath prop
      \/ (prop = "latest" /\ urlPath = escapedModulePath ++ "/@latest")).
Proof.
  unfold parseRequest.
  destruct (strings.HasPrefix urlPath "sumdb/"); [discriminate|].
  destruct (strings_Cut urlPath "/@v/") as [[m p] [|]] eqn:C;
    simpl negb; cbv iota.
  - intros H. injection H as <- <- <-.
    destruct (Cut_found _ _ _ _ C) as [E _]. split; [reflexivity | now left].
  - destruct (strings_CutSuffix urlPath "/@latest") as [e [|]] eqn:L;
      simpl negb; cbv iota; [|discriminate].
    intros H. injection H as <- <- <-.
    apply CutSuffix_found in L. split; [reflexivity | now right].
Qed.

Lemma parseRequest_refused (urlPath escapedModulePath prop : string)
  (resp : option Response) :
  parseRequest urlPath = (escapedModulePath, prop, false, resp) ->
  exists code msg, resp = Some (RespString code msg)
                   /\ (code = StatusNotFound
                       \/ code = StatusInternalServerError).
Proof.
  unfold parseRequest.
  destruct (strings.HasPrefix urlPath "sumdb/").
  { intros H. injection H as _ _ <-. eauto. }
  destruct (strings_Cut urlPath "/@v/") as [[m p] [|]];
    simpl negb; cbv iota; [discriminate|].
  destruct (strings_CutSuffix urlPath "/@latest") as [e [|]];
    simpl negb; cbv iota; [discriminate|].
  intros H. injection H as _ _ <-. eauto.
Qed.

(** The key of a request for a served extension is the URL path
    without the extension, and the version is what lies between
    [/@v/] and the extension. *)
Lemma key_and_version (urlPath escapedModulePath prop : string) :
  cutAt urlPath "/@v/" escapedModulePath prop ->
  let ext := path_Ext prop in
  let ver := strings.take (String.length prop - String.length ext) prop in
  let key := strings.take (String.length urlPath - String.length ext) urlPath in
  prop = ver ++ ext /\ key = escapedModulePath ++ "/@v/" ++ ver
  /\ urlPath = key ++ ext.
Proof.
  intros C. cbv zeta. unfold cutAt in C.
  pose proof (take_Ext prop) as E.
  set (ext := path_Ext prop) in *.
  set (ver := strings.take (String.length prop - String.length ext) prop) in *.
  assert (urlPath = (escapedModulePath ++ "/@v/" ++ ver) ++ ext) as U.
  { rewrite C, E at 1. now rewrite !append_assoc. }
  split; [exact E|].
  assert (strings.take (String.length urlPath - String.length ext) urlPath
          = escapedModulePath ++ "/@v/" ++ ver) as K.
  { rewrite U. apply take_suffix. }
  rewrite K. split; [reflexivity | exact U].
Qed.

(** ** The monitoring handler *)

Lemma existsb_eqb_In (key : string) (l : list string) :
  existsb (String.eqb key) l = true <-> In key l.
Proof.
  rewrite existsb_exists. split.
  - intros (x & I & E). apply String.eqb_eq in E. now subst x.
  - intros I. exists key. split; [assumption | apply String.eqb_refl].
Qed.

Lemma ext_of_key (key ext escapedModulePath prop : string) :
  (ext =? ".info") || (ext =? ".mod") || (ext =? ".zip") = true ->
  cutAt (key ++ ext) "/@v/" escapedModulePath prop ->
  path_Ext prop = ext.
Proof.
  intros X C. destruct (served_ext _ X) as (w & -> & D & S).
  unfold cutAt in C.
  assert (String.length (escapedModulePath ++ "/@v/") <= String.length key)
    as L.
  { destruct (Nat.le_gt_cases (String.length (escapedModulePath ++ "/@v/"))
                (String.length key)) as [|G]; [assumption|].
    exfalso.
    assert (key ++ String "." w
            = (escapedModulePath ++ "/@v") ++ String "/" prop) as C'.
    { rewrite C, append_assoc. reflexivity. }
    destruct (app_cut _ _ _ _ C') as (m & _ & Em).
    { rewrite length_append in *. simpl in *. lia. }
    apply (f_equal (occurs "/")) in Em. rewrite occurs_app in Em.
    simpl in Em. rewrite S, orb_true_r in Em. discriminate. }
  assert ((escapedModulePath ++ "/@v/") ++ prop = key ++ String "." w) as C'.
  { rewrite C, append_assoc. reflexivity. }
  destruct (app_cut _ _ _ _ C' L) as (m & _ & ->).
  now apply path_Ext_app.
Qed.

(** X8.  A refresh is started only by a request for the [.info], [.mod] or
    [.zip] of a version: the URL path is the escaped module path,
    [/@v/], the version and the extension; the key is the path
    without the extension; the module path is the unescaped one.  The
    key was not pending and is pending afterwards, and the request is
    redirected to upstream. *)
Theorem monitorModFetch_starts (Out : Outside) (pendingMod : list string)
  (urlPath : string) (h : Handled) (pendingMod' : list string) (job : Refresh) :
  monitorModFetch Out pendingMod urlPath = (h, pendingMod', Some job) ->
  exists ext,
    In ext [".info"; ".mod"; ".zip"]
    /\ urlPath = refreshEscaped job ++ "/@v/" ++ refreshVer job ++ ext
    /\ refreshKey job = refreshEscaped job ++ "/@v/" ++ refreshVer job
    /\ UnescapePath Out (refreshEscaped job) = inr (refreshModulePath job)
    /\ ~ In (refreshKey job) pendingMod
    /\ pendingMod' = refreshKey job :: pendingMod
    /\ h = Writes (RedirectUpstream StatusMovedPermanently urlPath).
Proof.
  unfold monitorModFetch.
  destruct (parseRequest urlPath) as [[[esc prop] ok] resp] eqn:P.
  destruct ok; simpl negb; cbv iota; [|discriminate].
  destruct (parseRequest_ok _ _ _ _ P) as [_ C].
  cbv zeta.
  destruct ((path_Ext prop =? ".info") || (path_Ext prop =? ".mod")
            || (path_Ext prop =? ".zip")) eqn:X.
  2:{ destruct (path_Ext prop =? "");
        [destruct ((prop =? "latest") || (prop =? "list"))|]; discriminate. }
  destruct C as [C | [-> _]]; [|discriminate].
  destruct (key_and_version _ _ _ C) as (Ev & Ek & Eu).
  unfold processEsModPathVer.
  destruct (UnescapePath Out esc) as [err|modulePath] eqn:U; [discriminate|].
  destruct (existsb _ pendingMod) eqn:E; [discriminate|].
  intros H. injection H as <- <- <-. cbn [refreshKey refreshEscaped refreshVer
                                          refreshModulePath].
  exists (path_Ext prop). repeat split.
  - apply orb_prop in X as [X|X]; [apply orb_prop in X as [X|X]|];
      apply String.eqb_eq in X; rewrite X; simpl; auto.
  - rewrite Eu at 1. rewrite Ek, !append_assoc. reflexivity.
  - exact Ek.
  - exact U.
  - intros I. apply existsb_eqb_In in I. congruence.
Qed.

Lemma monitorModFetch_starts_witness :
  exists ext,
    In ext [".info"; ".mod"; ".zip"]
    /\ "example.com/b/c/@v/v1.4.0.zip" = "example.com/b/c" ++ "/@v/" ++ "v1.4.0" ++ ext
    /\ "example.com/b/c/@v/v1.4.0" = "example.com/b/c" ++ "/@v/" ++ "v1.4.0"
    /\ UnescapePath exampleOutside "example.com/b/c" = inr "example.com/b/c"
    /\ ~ In "example.com/b/c/@v/v1.4.0" ["example.com/a/@v/v1.0.0"]
    /\ ["example.com/b/c/@v/v1.4.0"; "example.com/a/@v/v1.0.0"]
       = "example.com/b/c/@v/v1.4.0" :: ["example.com/a/@v/v1.0.0"]
    /\ Writes (RedirectUpstream StatusMovedPermanently
                 "example.com/b/c/@v/v1.4.0.zip")
       = Writes (RedirectUpstream StatusMovedPermanently
                   "example.com/b/c/@v/v1.4.0.zip").
Proof.
  apply (monitorModFetch_starts exampleOutside ["example.com/a/@v/v1.0.0"]
           "example.com/b/c/@v/v1.4.0.zip" _ _
           (mkRefresh "example.com/b/c/@v/v1.4.0" "example.com/b/c"
              "example.com/b/c" "v1.4.0")).
  reflexivity.
Defined.

(** X9.  While the key of a version is pending, a request for any of its
    three files starts nothing and leaves the pending keys as they
    are: one refresh serves the [.info], the [.mod] and the [.zip] of
    a version. *)
Theorem monitorModFetch_pending (Out : Outside) (pendingMod : list string)
  (key ext : string) :
  In key pendingMod ->
  In ext [".info"; ".mod"; ".zip"] ->
  snd (monitorModFetch Out pendingMod (key ++ ext)) = None
  /\ snd (fst (monitorModFetch Out pendingMod (key ++ ext))) = pendingMod.
Proof.
  intros I X.
  assert ((ext =? ".info") || (ext =? ".mod") || (ext =? ".zip") = true) as X'.
  { destruct X as [<-|[<-|[<-|[]]]]; reflexivity. }
  unfold monitorModFetch.
  destruct (parseRequest (key ++ ext)) as [[[esc prop] ok] resp] eqn:P.
  destruct ok; simpl negb; cbv iota; [|now split].
  destruct (parseRequest_ok _ _ _ _ P) as [_ [C | [-> _]]]; [|now split].
  cbv zeta. rewrite (ext_of_key _ _ _ _ X' C), X', take_suffix.
  unfold processEsModPathVer.
  destruct (UnescapePath Out esc); [now split|].
  apply existsb_eqb_In in I. rewrite I. now split.
Qed.

Lemma monitorModFetch_pending_witness :
  snd (monitorModFetch exampleOutside ["example.com/b/c/@v/v1.4.0"]
         ("example.com/b/c/@v/v1.4.0" ++ ".mod")) = None
  /\ snd (fst (monitorModFetch exampleOutside ["example.com/b/c/@v/v1.4.0"]
                 ("example.com/b/c/@v/v1.4.0" ++ ".mod")))
     = ["example.com/b/c/@v/v1.4.0"].
Proof.
  apply (monitorModFetch_pending exampleOutside ["example.com/b/c/@v/v1.4.0"]
           "example.com/b/c/@v/v1.4.0" ".mod").
  - simpl. auto.
  - simpl. auto.
Defined.

(** X10.  Every request to the monitoring handler is answered, with a
    redirection to upstream or with a refusal, 404 or 500; the handler
    serves no content itself.  When it starts no refresh the pending
    keys are unchanged. *)
Theorem monitorModFetch_answers (Out : Outside) (pendingMod : list string)
  (urlPath : string) :
  let '(h, pendingMod', job) := monitorModFetch Out pendingMod urlPath in
  (h = Writes (RedirectUpstream StatusMovedPermanently urlPath)
   \/ exists code msg,
        h = Writes (RespString code msg)
        /\ (code = StatusNotFound \/ code = StatusInternalServerError))
  /\ (job = None -> pendingMod' = pendingMod).
Proof.
  assert (forall msg,
            exists code msg0,
              Writes (RespString StatusInternalServerError msg)
              = Writes (RespString code msg0)
              /\ (code = StatusNotFound \/ code = StatusInternalServerError))
    as Refusal by (intros msg; exists StatusInternalServerError, msg; auto).
  unfold monitorModFetch.
  destruct (parseRequest urlPath) as [[[esc prop] ok] resp] eqn:P.
  destruct ok; simpl negb; cbv iota.
  2:{ destruct (parseRequest_refused _ _ _ _ P) as (code & msg & -> & C).
      split; [|reflexivity]. right. exists code, msg. now split. }
  cbv zeta.
  destruct ((path_Ext prop =? ".info") || (path_Ext prop =? ".mod")
            || (path_Ext prop =? ".zip")).
  - unfold processEsModPathVer.
    destruct (UnescapePath Out esc) as [err|modulePath].
    { split; [right; apply Refusal | reflexivity]. }
    destruct (existsb _ pendingMod); (split; [now left|]);
      [reflexivity | discriminate].
  - destruct (path_Ext prop =? "");
      [destruct ((prop =? "latest") || (prop =? "list"))|];
      (split; [|reflexivity]); (now left) || (right; apply Refusal).
Qed.

(** ** The cached-only handler *)

Lemma serveModGit_mod_reader (W : World)
  (modulePath verMajorTag subPath gitdir refspec : string) (reader : Reader) :
  outcome (serveModGit_mod W modulePath verMajorTag subPath gitdir refspec)
    = inr reader ->
  exists data, reader = BytesReader data.
Proof.
  unfold serveModGit_mod. cbv zeta. rewrite outcome_bind.
  destruct (outcome (serveModGit_extractMod _ _ _ _)) as [e|[data|]];
    [discriminate | intros H; injection H as <-; eauto |].
  destruct (negb _); [|intros H; injection H as <-; eauto].
  rewrite outcome_bind.
  destruct (outcome (serveModGit_extractMod _ _ _ _)) as [e|[data|]];
    [discriminate | |]; intros H; injection H as <-; eauto.
Qed.

Lemma serveModGit_zip4_reader (W : World) (gitdir refspec prefix : string)
  (reader : Reader) :
  outcome (serveModGit_zip4 W gitdir refspec prefix) = inr reader ->
  reader = ArchiveTmp.
Proof.
  unfold serveModGit_zip4. rewrite outcome_bind.
  unfold getGitOutputCmd, outcome. cbn [snd].
  destruct (spawn W GitCommand gitdir _) as [e|out]; [discriminate|].
  assert (forall r,
            outcome
              (err <- Run W "zip" ".tmp/licenses"
                        ["-g"; "../zip-fd3.zip"; path.Join [prefix; "LICENSE"]] ;;
               match err with
               | Some err =>
                   fail (errors_New ("failed to append LICENSE to zip: "
                                     ++ Error err))
               | None => ret ArchiveTmp
               end) = inr r -> r = ArchiveTmp) as A.
  { intros r. rewrite outcome_bind. unfold Run, outcome. cbn [snd].
    destruct (match spawn W "zip" _ _ with inl e => Some e | inr p => waitErr p end);
      [discriminate | intros H; now injection H as <-]. }
  destruct (Access W _); [|apply A].
  destruct (tmpFile W _); [discriminate|].
  destruct (copySingleFileFromTar _ _ _);
    [intros H; now injection H as <- | apply A].
Qed.

Lemma serveModGit_zip_reader (W : World)
  (verMajorTag subPath gitdir refspec prefix : string) (reader : Reader) :
  outcome (serveModGit_zip W verMajorTag subPath gitdir refspec prefix)
    = inr reader ->
  reader = ArchiveTmp.
Proof.
  unfold serveModGit_zip. rewrite outcome_bind.
  destruct (outcome (serveModGit_zip123 _ _ _ _ _ _)) as [e|lic];
    [discriminate|].
  destruct (_ || _); [intros H; now injection H as <-|].
  apply serveModGit_zip4_reader.
Qed.

(** The reader that [serveModGit] returns goes with the extension: a
    reader of bytes for [.info] and [.mod], the temporary file of the
    archive for [.zip], nil for anything else. *)
Lemma serveModGit_reader (W : World)
  (modulePath verMajorTag subPath verCanonical ext : string) (incompat : bool)
  (reader : Reader) :
  outcome (serveModGit W modulePath verMajorTag subPath verCanonical ext incompat)
    = inr reader ->
  readerFor ext reader.
Proof.
  unfold serveModGit. rewrite outcome_bind.
  destruct (outcome (serveModGit_resolve _ _ _ _)) as [e|[refspec tm]];
    [discriminate|].
  cbv zeta.
  destruct (String.eqb_spec ext ".info") as [->|N1].
  { destruct (jsonMarshal W _); [discriminate|].
    intros H. injection H as <-. now left. }
  destruct (String.eqb_spec ext ".mod") as [->|N2].
  { intros H. apply serveModGit_mod_reader in H as [data ->]. now right. }
  destruct (String.eqb_spec ext ".zip") as [->|N3].
  { intros H. apply serveModGit_zip_reader in H as ->. reflexivity. }
  intros H. injection H as <-. now repeat split.
Qed.

Lemma serveModLocal_serves (W : World)
  (modulePath verMajorTag verCanonical ext : string) (incompat : bool)
  (reader : Reader) :
  outcome (serveModLocal W modulePath verMajorTag verCanonical ext incompat)
    = inr (Serves reader) ->
  readerFor ext reader.
Proof.
  unfold serveModLocal.
  destruct (checkModVcsLocal W modulePath) as [[[[P sub] vcs] [err|]]|];
    try discriminate.
  destruct (vcs =? ".git").
  - rewrite outcome_bind.
    destruct (outcome (serveModGit _ _ _ _ _ _ _)) as [e|r] eqn:G;
      [discriminate|].
    intros H. injection H as <-. exact (serveModGit_reader _ _ _ _ _ _ _ _ G).
  - destruct (vcs =? ".mod"); discriminate.
Qed.

Lemma serveModLocal_returns (W : World)
  (modulePath verMajorTag verCanonical ext : string) (incompat : bool) :
  outcome (serveModLocal W modulePath verMajorTag verCanonical ext incompat)
    <> inr ServeStuck.
Proof.
  unfold serveModLocal.
  pose proof (checkModVcsLocal_sound W modulePath) as L.
  destruct (checkModVcsLocal W modulePath) as [[[[P sub] vcs] [err|]]|];
    [discriminate | | contradiction].
  destruct (vcs =? ".git").
  - rewrite outcome_bind. now destruct (outcome (serveModGit _ _ _ _ _ _ _)).
  - destruct (vcs =? ".mod"); discriminate.
Qed.

Lemma serveModLocal_panics (W : World)
  (modulePath verMajorTag verCanonical ext : string) (incompat : bool)
  (msg : string) :
  outcome (serveModLocal W modulePath verMajorTag verCanonical ext incompat)
    = inr (ServePanics msg) ->
  exists P sub vcs,
    boundaryPrefix P sub modulePath /\ probe W P = inr vcs
    /\ vcs <> ".git" /\ vcs <> ".mod"
    /\ msg = "Invalid local VCS type " ++ vcs ++ " for module " ++ P
             ++ ", should not happen".
Proof.
  unfold serveModLocal.
  pose proof (checkModVcsLocal_sound W modulePath) as L.
  destruct (checkModVcsLocal W modulePath) as [[[[P sub] vcs] [err|]]|];
    [discriminate | | contradiction].
  destruct L as (B & R & _).
  destruct (String.eqb_spec vcs ".git") as [|N1].
  - rewrite outcome_bind. now destruct (outcome (serveModGit _ _ _ _ _ _ _)).
  - destruct (String.eqb_spec vcs ".mod") as [|N2]; [discriminate|].
    intros H. injection H as <-. exists P, sub, vcs. now repeat split.
Qed.

Lemma contentTy_served (ext ct : string) :
  contentTy ext = Some ct ->
  (ext = ".info" /\ ct = "application/json")
  \/ (ext = ".mod" /\ ct = "text/plain; charset=UTF-8")
  \/ (ext = ".zip" /\ ct = "application/zip").
Proof.
  unfold contentTy.
  destruct (String.eqb_spec ext ".info") as [->|_];
    [intros H; injection H as <-; auto|].
  destruct (String.eqb_spec ext ".mod") as [->|_];
    [intros H; injection H as <-; auto|].
  destruct (String.eqb_spec ext ".zip") as [->|_];
    [intros H; injection H as <-; auto | discriminate].
Qed.

(** X11.  A module that is not in the cache is refused before any
    subprocess is started: when no prefix of the module path, whole
    or cut at a slash, has a readable [.vcs] link, [serveModLocal]
    starts nothing and returns the error of the lookup. *)
Theorem serveModLocal_not_cached (W : World)
  (modulePath verMajorTag verCanonical ext : string) (incompat : bool) :
  (forall P sub, boundaryPrefix P sub modulePath ->
                 exists e, probe W P = inl e) ->
  serveModLocal W modulePath verMajorTag verCanonical ext incompat
  = ([], inl (errors_New ("cached module " ++ modulePath
                          ++ " not found: file does not exist"))).
Proof.
  intros N. unfold serveModLocal.
  pose proof (checkModVcsLocal_sound W modulePath) as L.
  destruct (checkModVcsLocal W modulePath) as [[[[P sub] vcs] [err|]]|];
    [| |contradiction].
  - destruct L as (_ & _ & _ & -> & _). reflexivity.
  - destruct L as (B & R & _). destruct (N _ _ B) as [e E]. congruence.
Qed.

Lemma serveModLocal_not_cached_witness :
  serveModLocal exampleWorld "example.com/zz" "" "v1.0.0" ".zip" false
  = ([], inl (errors_New ("cached module " ++ "example.com/zz"
                          ++ " not found: file does not exist"))).
Proof.
  apply (serveModLocal_not_cached exampleWorld "example.com/zz" "" "v1.0.0"
           ".zip" false).
  pose proof (checkModVcsLocal_sound exampleWorld "example.com/zz") as L.
  change (checkModVcsLocal exampleWorld "example.com/zz")
    with (Some ("", "", "", Some ErrNotExist)) in L.
  apply L.
Defined.

(** X12.  The cached-only handler panics in one case only: the [.vcs] link
    of the repository found for the module is neither [.git] nor
    [.mod].  In particular the reader whose [Close] it defers is never
    nil, although [serveModGit] returns nil for an extension it does
    not know; and every request is answered otherwise. *)
Theorem serveModCached_panics (W : World) (Out : Outside) (urlPath : string) :
  let h := snd (serveModCached W Out urlPath) in
  h <> HandlerStuck /\ h <> WritesNothing
  /\ forall msg,
       h = HandlerPanics msg ->
       exists P vcs,
         probe W P = inr vcs /\ vcs <> ".git" /\ vcs <> ".mod"
         /\ msg = "Invalid local VCS type " ++ vcs ++ " for module " ++ P
                  ++ ", should not happen".
Proof.
  cbv zeta. unfold serveModCached.
  destruct (parseRequest urlPath) as [[[esc prop] ok] resp] eqn:P.
  destruct ok; simpl negb; cbv iota.
  2:{ destruct (parseRequest_refused _ _ _ _ P) as (code & m & -> & _).
      repeat split; discriminate. }
  cbv zeta.
  destruct (contentTy (path_Ext prop)) as [ct|] eqn:C;
    [|repeat split; discriminate].
  destruct (UnescapePath Out esc) as [err|modulePath];
    [repeat split; discriminate|].
  destruct (checkModulePathVer modulePath _) as [[[path tag] inc] ok].
  destruct ok; simpl negb; cbv iota; [|repeat split; discriminate].
  pose proof (serveModLocal_serves W path tag
                (semver.Canonical
                   (strings.take (String.length prop
                                  - String.length (path_Ext prop)) prop))
                (path_Ext prop) inc) as Sv.
  pose proof (serveModLocal_returns W path tag
                (semver.Canonical
                   (strings.take (String.length prop
                                  - String.length (path_Ext prop)) prop))
                (path_Ext prop) inc) as Rt.
  pose proof (serveModLocal_panics W path tag
                (semver.Canonical
                   (strings.take (String.length prop
                                  - String.length (path_Ext prop)) prop))
                (path_Ext prop) inc) as Pn.
  destruct (serveModLocal W path tag _ _ inc)
    as [t [e|[[data| |]|m|]]]; unfold outcome in *; cbn [snd] in *.
  - repeat split; discriminate.
  - repeat split; discriminate.
  - destruct (seekEnd Out); repeat split; discriminate.
  - exfalso. destruct (Sv _ eq_refl) as (N1 & N2 & N3).
    destruct (contentTy_served _ _ C) as [[E _]|[[E _]|[E _]]]; congruence.
  - repeat split; try discriminate.
    intros msg H. injection H as <-.
    destruct (Pn _ eq_refl) as (P0 & sub & vcs & _ & R & N1 & N2 & E).
    exists P0, vcs. now repeat split.
  - now elim Rt.
Qed.

(** X13.  What the cached-only handler streams.  The request is for the
    [.info], [.mod] or [.zip] of a version of a module whose path
    unescapes and passes the version check; the content type goes
    with the extension; an [.info] or a [.mod] is a reader of bytes
    sent without [Content-Length], a [.zip] is the temporary file of
    the archive sent with its size. *)
Theorem serveModCached_streams (W : World) (Out : Outside) (urlPath : string)
  (t : list Event) (ct : string) (len : option Z) (reader : Reader) :
  serveModCached W Out urlPath = (t, Writes (RespStream ct len reader)) ->
  exists escapedModulePath ver ext modulePath,
    urlPath = escapedModulePath ++ "/@v/" ++ ver ++ ext
    /\ UnescapePath Out escapedModulePath = inr modulePath
    /\ snd (checkModulePathVer modulePath ver) = true
    /\ ((ext = ".info" /\ ct = "application/json" /\ len = None
         /\ exists data, reader = BytesReader data)
        \/ (ext = ".mod" /\ ct = "text/plain; charset=UTF-8" /\ len = None
            /\ exists data, reader = BytesReader data)
        \/ (ext = ".zip" /\ ct = "application/zip" /\ reader = ArchiveTmp
            /\ exists off, len = Some off /\ seekEnd Out = inr off)).
Proof.
  unfold serveModCached.
  destruct (parseRequest urlPath) as [[[esc prop] ok] resp] eqn:P.
  destruct ok; simpl negb; cbv iota.
  2:{ destruct (parseRequest_refused _ _ _ _ P) as (code & m & -> & _).
      discriminate. }
  cbv zeta.
  destruct (contentTy (path_Ext prop)) as [ct0|] eqn:C; [|discriminate].
  destruct (UnescapePath Out esc) as [err|modulePath] eqn:U; [discriminate|].
  destruct (checkModulePathVer modulePath _) as [[[path tag] inc] ok] eqn:K.
  destruct ok; simpl negb; cbv iota; [|discriminate].
  pose proof (serveModLocal_serves W path tag
                (semver.Canonical
                   (strings.take (String.length prop
                                  - String.length (path_Ext prop)) prop))
                (path_Ext prop) inc) as Sv.
  destruct (parseRequest_ok _ _ _ _ P) as [_ [Cu | [-> _]]];
    [|discriminate].
  destruct (key_and_version _ _ _ Cu) as (Ev & Ek & Eu).
  assert (urlPath = esc ++ "/@v/"
                    ++ strings.take (String.length prop
                                     - String.length (path_Ext prop)) prop
                    ++ path_Ext prop) as URL.
  { rewrite Eu at 1. rewrite Ek, !append_assoc. reflexivity. }
  destruct (serveModLocal W path tag _ _ inc)
    as [t' [e|[[data| |]|m|]]]; unfold outcome in *; cbn [snd] in *;
    try discriminate.
  - intros H. injection H as _ <- <- <-.
    exists esc, (strings.take (String.length prop
                               - String.length (path_Ext prop)) prop),
      (path_Ext prop), modulePath.
    split; [exact URL|]. split; [exact U|]. split; [now rewrite K|].
    specialize (Sv _ eq_refl). simpl in Sv.
    destruct (contentTy_served _ _ C) as [[E ->]|[[E ->]|[E ->]]].
    + left. repeat split; eauto.
    + right; left. repeat split; eauto.
    + exfalso. destruct Sv; congruence.
  - destruct (seekEnd Out) as [err|off] eqn:Sk; [discriminate|].
    intros H. injection H as _ <- <- <-.
    exists esc, (strings.take (String.length prop
                               - String.length (path_Ext prop)) prop),
      (path_Ext prop), modulePath.
    split; [exact URL|]. split; [exact U|]. split; [now rewrite K|].
    specialize (Sv _ eq_refl). simpl in Sv.
    destruct (contentTy_served _ _ C) as [[E ->]|[[E ->]|[E ->]]];
      try congruence.
    right; right. repeat split; eauto.
Qed.

Lemma serveModCached_streams_witness :
  exists escapedModulePath ver ext modulePath,
    "example.com/a/v2/@v/v2.0.0.zip" = escapedModulePath ++ "/@v/" ++ ver ++ ext
    /\ UnescapePath exampleOutside escapedModulePath = inr modulePath
    /\ snd (checkModulePathVer modulePath ver) = true
    /\ ((ext = ".info" /\ "application/zip" = "application/json"
         /\ Some 4096%Z = None
         /\ exists data, ArchiveTmp = BytesReader data)
        \/ (ext = ".mod" /\ "application/zip" = "text/plain; charset=UTF-8"
            /\ Some 4096%Z = None
            /\ exists data, ArchiveTmp = BytesReader data)
        \/ (ext = ".zip" /\ "application/zip" = "application/zip"
            /\ ArchiveTmp = ArchiveTmp
            /\ exists off, Some 4096%Z = Some off
                           /\ seekEnd exampleOutside = inr off)).
Proof.
  apply (serveModCached_streams exampleWorld exampleOutside
           "example.com/a/v2/@v/v2.0.0.zip"
           (trace (serveModGit exampleWorld "example.com/a" "v2" "" "v2.0.0"
                     ".zip" false))
           "application/zip" (Some 4096%Z) ArchiveTmp).
  vm_compute. reflexivity.
Defined.

(** ** Where the subprocesses run *)

Section Confinement.

Variable W : World.
Variable gitdir : string.
Variable P : Event -> bool.
Hypothesis P_git : forall args, P (Exec GitCommand gitdir args) = false.
Hypothesis P_zip : forall args, P (Exec "zip" "" args) = false.
Hypothesis P_licenses : forall args, P (Exec "zip" ".tmp/licenses" args) = false.

Lemma silent_gitOutput (args : list string) :
  silent P (getGitOutputCmd W gitdir args).
Proof. apply silent_getGitOutputCmd, P_git. Qed.

Lemma silent_short (args : list string) :
  silent P (runGitOutputShort W gitdir args).
Proof.
  unfold runGitOutputShort. apply silent_bind; [apply silent_gitOutput|].
  intros [e|p]; [apply silent_ret|].
  destruct (waitErr p); apply silent_ret.
Qed.

Lemma silent_retry (pseudoVer : bool) (subPath refspec : string) :
  silent P (serveModGit_retry_refspec W gitdir pseudoVer subPath refspec).
Proof.
  induction refspec as [|c rest IH]; rewrite serveModGit_retry_unfold;
    (apply silent_bind; [apply silent_short|]);
    intros [e|s]; cbv zeta.
  - destruct (_ && _); apply silent_fail.
  - destruct (parseUnixTime W s); [|apply silent_ret].
    destruct (_ && _); apply silent_fail.
  - destruct (_ && _); [exact IH | apply silent_fail].
  - destruct (parseUnixTime W s); [|apply silent_ret].
    destruct (_ && _); [exact IH | apply silent_fail].
Qed.

Lemma silent_extractMod (refspec tree : string) :
  silent P (serveModGit_extractMod W gitdir refspec tree).
Proof.
  unfold serveModGit_extractMod. apply silent_bind; [apply silent_gitOutput|].
  intros [e|p]; [apply silent_fail|].
  destruct (getSingleFileFromTar _ _ _), (waitErr p); apply silent_ret.
Qed.

Lemma silent_mod (modulePath verMajorTag subPath refspec : string) :
  silent P (serveModGit_mod W modulePath verMajorTag subPath gitdir refspec).
Proof.
  unfold serveModGit_mod.
  apply silent_bind; [apply silent_extractMod|].
  intros [data|]; [apply silent_ret|].
  destruct (negb _); [|apply silent_ret].
  apply silent_bind; [apply silent_extractMod|].
  intros [data|]; apply silent_ret.
Qed.

Lemma silent_collect (prefix treeish vertag : string) :
  silent P (collectGitArchiveOpts W gitdir prefix treeish vertag).
Proof.
  unfold collectGitArchiveOpts. apply silent_bind; [apply silent_gitOutput|].
  intros [e|p]; [apply silent_fail|].
  destruct (surveyLoop _ _ _); [apply silent_fail|].
  destruct (waitErr p); [apply silent_fail | apply silent_ret].
Qed.

Lemma silent_zip123 (verMajorTag subPath refspec prefix : string) :
  silent P (serveModGit_zip123 W verMajorTag subPath gitdir refspec prefix).
Proof.
  unfold serveModGit_zip123.
  apply silent_bind; [apply silent_collect|].
  intros [cmdArgs lic].
  destruct (tmpFile W _); [apply silent_fail|].
  apply silent_bind; [apply silent_Run, P_git|].
  intros [e|]; [apply silent_fail|].
  apply silent_bind; [apply silent_Run, P_zip|].
  intros [e|]; [|apply silent_ret].
  destruct e as [|code msg|msg]; try apply silent_fail.
  destruct code as [|p|p]; try apply silent_fail.
  do 4 (try (destruct p as [p|p|]; try apply silent_fail)).
  apply silent_ret.
Qed.

Lemma silent_zip4 (refspec prefix : string) :
  silent P (serveModGit_zip4 W gitdir refspec prefix).
Proof.
  unfold serveModGit_zip4. apply silent_bind; [apply silent_gitOutput|].
  intros [e|out]; [apply silent_fail|].
  assert (silent P
            (err <- Run W "zip" ".tmp/licenses"
                      ["-g"; "../zip-fd3.zip"; path.Join [prefix; "LICENSE"]] ;;
             match err with
             | Some err =>
                 fail (errors_New ("failed to append LICENSE to zip: "
                                   ++ Error err))
             | None => ret ArchiveTmp
             end)) as Q.
  { apply silent_bind; [apply silent_Run, P_licenses|].
    intros [e|]; [apply silent_fail | apply silent_ret]. }
  destruct (Access W _); [|exact Q].
  destruct (tmpFile W _); [apply silent_fail|].
  destruct (copySingleFileFromTar _ _ _); [apply silent_ret | exact Q].
Qed.

Lemma silent_zip (verMajorTag subPath refspec prefix : string) :
  silent P (serveModGit_zip W verMajorTag subPath gitdir refspec prefix).
Proof.
  unfold serveModGit_zip. apply silent_bind; [apply silent_zip123|].
  intros lic. destruct (_ || _); [apply silent_ret | apply silent_zip4].
Qed.

End Confinement.

Lemma silent_serveModGit (W : World) (P : Event -> bool)
  (modulePath verMajorTag subPath verCanonical ext : string) (incompat : bool) :
  (forall args,
     P (Exec GitCommand (path.Join [modulePath; ".git"]) args) = false) ->
  (forall args, P (Exec "zip" "" args) = false) ->
  (forall args, P (Exec "zip" ".tmp/licenses" args) = false) ->
  silent P (serveModGit W modulePath verMajorTag subPath verCanonical ext
              incompat).
Proof.
  intros G Z L. unfold serveModGit.
  apply silent_bind.
  { unfold silent. rewrite trace_resolve. now apply silent_retry. }
  intros [refspec tm]. cbv zeta.
  destruct (ext =? ".info").
  { destruct (jsonMarshal W _); [apply silent_fail | apply silent_ret]. }
  destruct (ext =? ".mod"); [now apply silent_mod|].
  destruct (ext =? ".zip"); [now apply silent_zip | apply silent_ret].
Qed.

Lemma silent_Forall (P : Event -> bool) (l : list Event) :
  List.filter P l = [] -> Forall (fun e => P e = false) l.
Proof.
  induction l as [|e l IH]; simpl; [constructor|].
  destruct (P e) eqn:E; [discriminate|]. intros H. constructor; auto.
Qed.

Lemma stray_git (gitdir : string) (args : list string) :
  stray gitdir (Exec GitCommand gitdir args) = false.
Proof. unfold stray, confined. now rewrite !String.eqb_refl. Qed.

(** X14.  Serving from the cache starts subprocesses for one repository
    only.  Either nothing is started, or the longest prefix of the
    module path with a readable [.vcs] link is a git repository, and
    every subprocess is git run in the [.git] directory under that
    prefix, or zip run on the temporary archive. *)
Theorem serveModLocal_confined (W : World)
  (modulePath verMajorTag verCanonical ext : string) (incompat : bool) :
  let t := trace (serveModLocal W modulePath verMajorTag verCanonical ext
                    incompat) in
  t = [] \/
  exists P sub,
    boundaryPrefix P sub modulePath /\ probe W P = inr ".git"
    /\ (forall P' sub', boundaryPrefix P' sub' modulePath ->
                        String.length P < String.length P' ->
                        exists e, probe W P' = inl e)
    /\ Forall (fun e => confined (path.Join [P; ".git"]) e = true) t.
Proof.
  cbv zeta. unfold serveModLocal.
  pose proof (checkModVcsLocal_sound W modulePath) as L.
  destruct (checkModVcsLocal W modulePath) as [[[[P sub] vcs] [err|]]|];
    [now left | | now left].
  destruct L as (B & R & Lg).
  destruct (String.eqb_spec vcs ".git") as [->|N].
  2:{ left. now destruct (vcs =? ".mod"). }
  right. exists P, sub. repeat split; try assumption.
  assert (silent (stray (path.Join [P; ".git"]))
            (reader <- serveModGit W P verMajorTag sub verCanonical ext
                         incompat ;;
             ret (Serves reader))) as S.
  { apply silent_bind; [|intros; apply silent_ret].
    apply silent_serveModGit; [apply stray_git | reflexivity | reflexivity]. }
  apply silent_Forall in S.
  eapply Forall_impl; [|exact S].
  intros e. unfold stray. now destruct (confined _ e).
Qed.

(** ** The resolution of the refspec *)

Lemma serveModGit_retry_outcome (W : World) (gitdir : string)
  (pseudoVer : bool) (subPath refspec : string) :
  outcome (serveModGit_retry_refspec W gitdir pseudoVer subPath refspec)
  = match commitTime W gitdir refspec with
    | inr tm => inr (refspec, tm)
    | inl err =>
        let failed :=
          inl (errors_New ("failed to get commit date: " ++ Error err)) in
        if negb pseudoVer && (subPath =? "") && strings.HasPrefix refspec "v"
        then match refspec with
             | String _ rest =>
                 outcome (serveModGit_retry_refspec W gitdir pseudoVer subPath
                            rest)
             | EmptyString => failed
             end
        else failed
    end.
Proof.
  rewrite serveModGit_retry_unfold, outcome_bind. unfold commitTime.
  destruct (outcome_runGitOutputShort W gitdir
              ["log"; "-1"; "--format=%ct"; refspec]) as [x ->].
  cbv zeta.
  destruct x as [e|s]; [|destruct (parseUnixTime W s) as [e|tm]];
    try reflexivity;
    (destruct (_ && _); [destruct refspec|]; reflexivity).
Qed.

Lemma serveModGit_retry_resolved (W : World) (gitdir : string)
  (pseudoVer : bool) (subPath : string) :
  forall refspec r tm,
    outcome (serveModGit_retry_refspec W gitdir pseudoVer subPath refspec)
      = inr (r, tm) ->
    commitTime W gitdir r = inr tm
    /\ exists n, r = strings.drop n refspec
                 /\ (n <> 0 -> pseudoVer = false /\ subPath = "").
Proof.
  induction refspec as [|c rest IH]; intros r tm;
    rewrite serveModGit_retry_outcome;
    destruct (commitTime W gitdir _) as [e|tm'] eqn:C; cbv zeta.
  - destruct (_ && _); discriminate.
  - intros E. injection E as <- <-. split; [exact C|].
    exists 0. split; [reflexivity | intros N; now elim N].
  - destruct (negb pseudoVer && (subPath =? "")
              && strings.HasPrefix (String c rest) "v") eqn:G;
      [|discriminate].
    intros E. destruct (IH _ _ E) as (C' & n & En & Hn).
    split; [exact C'|]. exists (S n). split; [exact En|]. intros _.
    apply andb_prop in G as [G _]. apply andb_prop in G as [G1 G2].
    apply String.eqb_eq in G2. now destruct pseudoVer.
  - intros E. injection E as <- <-. split; [exact C|].
    exists 0. split; [reflexivity | intros N; now elim N].
Qed.

Lemma serveModGit_resolved (W : World) (modulePath subPath verCanonical : string)
  (r : string) (tm : Z) :
  outcome (serveModGit_resolve W modulePath subPath verCanonical) = inr (r, tm) ->
  let pseudo := IsPseudoVersion W verCanonical in
  let refspec :=
    refspecAsSpecified pseudo (PseudoVersionRev W verCanonical) subPath
      verCanonical in
  commitTime W (path.Join [modulePath; ".git"]) r = inr tm
  /\ (exists n, r = strings.drop n refspec
                /\ (n <> 0 -> pseudo = false /\ subPath = ""))
  /\ (pseudo = true ->
      PseudoVersionTime W verCanonical = zeroTime
      \/ tm = PseudoVersionTime W verCanonical).
Proof.
  unfold serveModGit_resolve. cbv zeta. rewrite refspec_agrees, outcome_bind.
  destruct (outcome (serveModGit_retry_refspec _ _ _ _ _)) as [e|[r0 tm0]] eqn:R;
    [discriminate|].
  destruct (serveModGit_retry_resolved _ _ _ _ _ _ _ R) as (C & N).
  destruct (IsPseudoVersion W verCanonical) eqn:Ps.
  - destruct (Z.eqb_spec (PseudoVersionTime W verCanonical) zeroTime) as [Z|Z];
      simpl negb; cbv iota.
    + intros E. injection E as <- <-. repeat split; auto.
    + destruct (Z.eqb_spec tm0 (PseudoVersionTime W verCanonical)) as [T|T];
        simpl negb; cbv iota; [|discriminate].
      intros E. injection E as <- <-. repeat split; auto.
  - change (zeroTime =? zeroTime)%Z with true. simpl negb. cbv iota.
    intros E. injection E as <- <-. repeat split; auto. discriminate.
Qed.

Lemma serveModGit_needs_resolve (W : World)
  (modulePath verMajorTag subPath verCanonical ext : string) (incompat : bool)
  (reader : Reader) :
  outcome (serveModGit W modulePath verMajorTag subPath verCanonical ext incompat)
    = inr reader ->
  exists r tm,
    outcome (serveModGit_resolve W modulePath subPath verCanonical)
      = inr (r, tm).
Proof.
  unfold serveModGit. rewrite outcome_bind.
  destruct (outcome (serveModGit_resolve _ _ _ _)) as [e|[r tm]];
    [discriminate | eauto].
Qed.

(** X15.  A pseudo-version is served only from the commit it names, and only
    when the time of that commit is the time in the version: whatever
    file is asked for, if [serveModGit] returns a reader for a
    pseudo-version whose time is not zero, the commit time that
    [git log] reports for the revision of the version is that time. *)
Theorem serveModGit_pseudo_time (W : World)
  (modulePath verMajorTag subPath verCanonical ext : string) (incompat : bool)
  (reader : Reader) :
  outcome (serveModGit W modulePath verMajorTag subPath verCanonical ext incompat)
    = inr reader ->
  IsPseudoVersion W verCanonical = true ->
  PseudoVersionTime W verCanonical <> zeroTime ->
  commitTime W (path.Join [modulePath; ".git"]) (PseudoVersionRev W verCanonical)
  = inr (PseudoVersionTime W verCanonical).
Proof.
  intros O Ps Z.
  destruct (serveModGit_needs_resolve _ _ _ _ _ _ _ _ O) as (r & tm & R).
  destruct (serveModGit_resolved _ _ _ _ _ _ R) as (C & (n & En & Hn) & T).
  rewrite Ps in *. unfold refspecAsSpecified in En.
  destruct n as [|n]; [|now destruct Hn].
  simpl in En. subst r.
  destruct (T eq_refl) as [E|E]; [contradiction|]. now rewrite <- E.
Qed.

Lemma serveModGit_pseudo_time_witness :
  commitTime pseudoWorld (path.Join ["example.com/a"; ".git"])
    (PseudoVersionRev pseudoWorld pseudoVersion)
  = inr (PseudoVersionTime pseudoWorld pseudoVersion).
Proof.
  apply (serveModGit_pseudo_time pseudoWorld "example.com/a" "" ""
           pseudoVersion ".info" false
           (BytesReader
              ("{" ++ quote ++ "Version" ++ quote ++ ":" ++ quote
               ++ pseudoVersion ++ quote ++ "," ++ quote ++ "Time" ++ quote
               ++ ":" ++ quote ++ "2023-11-14T22:13:20Z" ++ quote ++ "}"))).
  - reflexivity.
  - reflexivity.
  - discriminate.
Defined.

(** X16.  The [.info] of a version is the JSON of its version string, with
    [+incompatible] when the flag is set, and of the commit time that
    [git log] reports for the refspec that resolved.  That refspec is
    the one asked for, less leading characters only when the version
    is no pseudo-version and there is no subdirectory; and nothing
    but [git log] is run. *)
Theorem serveModGit_info (W : World)
  (modulePath verMajorTag subPath verCanonical : string) (incompat : bool)
  (reader : Reader) :
  let served :=
    serveModGit W modulePath verMajorTag subPath verCanonical ".info" incompat in
  let pseudo := IsPseudoVersion W verCanonical in
  let refspec :=
    refspecAsSpecified pseudo (PseudoVersionRev W verCanonical) subPath
      verCanonical in
  outcome served = inr reader ->
  (exists n tm data,
     commitTime W (path.Join [modulePath; ".git"]) (strings.drop n refspec)
       = inr tm
     /\ (n <> 0 -> pseudo = false /\ subPath = "")
     /\ jsonMarshal W
          (mkRevInfo (if incompat then verCanonical ++ "+incompatible"
                      else verCanonical) tm) = inr data
     /\ reader = BytesReader data)
  /\ Forall (fun e => isGitLog e = true) (trace served).
Proof.
  intros served pseudo refspec O. unfold served in O.
  destruct (serveModGit_needs_resolve _ _ _ _ _ _ _ _ O) as (r & tm & R).
  destruct (serveModGit_resolved _ _ _ _ _ _ R) as (C & (n & En & Hn) & _).
  fold pseudo refspec in En, Hn.
  unfold served, serveModGit in *.
  rewrite outcome_bind, R in O. rewrite trace_bind, R, trace_resolve.
  cbv zeta in *. change (".info" =? ".info") with true in *. cbv iota in *.
  destruct (jsonMarshal W _) as [e|data] eqn:J; [discriminate|].
  injection O as <-. split.
  - exists n, tm, data. subst r.
    split; [exact C|]. split; [exact Hn|]. split; [exact J | reflexivity].
  - apply Forall_app. split; [|constructor].
    fold pseudo refspec.
    generalize refspec. intros x.
    induction x as [|c rest IH]; rewrite serveModGit_retry_unfold, trace_bind,
      trace_runGitOutputShort;
      (constructor; [reflexivity|]);
      destruct (outcome (runGitOutputShort _ _ _)) as [e|[e|s]];
      cbv zeta; try constructor.
    + destruct (_ && _); constructor.
    + destruct (parseUnixTime W s); [|constructor].
      destruct (_ && _); constructor.
    + destruct (_ && _); [exact IH | constructor].
    + destruct (parseUnixTime W s); [|constructor].
      destruct (_ && _); [exact IH | constructor].
Qed.

Lemma serveModGit_info_witness :
  (exists n tm data,
     commitTime pseudoWorld (path.Join ["example.com/a"; ".git"])
       (strings.drop n
          (refspecAsSpecified (IsPseudoVersion pseudoWorld pseudoVersion)
             (PseudoVersionRev pseudoWorld pseudoVersion) "" pseudoVersion))
       = inr tm
     /\ (n <> 0 -> IsPseudoVersion pseudoWorld pseudoVersion = false /\ "" = "")
     /\ jsonMarshal pseudoWorld
          (mkRevInfo (if false then pseudoVersion ++ "+incompatible"
                      else pseudoVersion) tm) = inr data
     /\ snd (serveModGit pseudoWorld "example.com/a" "" "" pseudoVersion ".info"
               false)
        = inr (BytesReader data))
  /\ Forall (fun e => isGitLog e = true)
       (trace (serveModGit pseudoWorld "example.com/a" "" "" pseudoVersion
                 ".info" false)).
Proof.
  pose proof (serveModGit_info pseudoWorld "example.com/a" "" "" pseudoVersion
                false
                (BytesReader
                   ("{" ++ quote ++ "Version" ++ quote ++ ":" ++ quote
                    ++ pseudoVersion ++ quote ++ "," ++ quote ++ "Time" ++ quote
                    ++ ":" ++ quote ++ "2023-11-14T22:13:20Z" ++ quote ++ "}"))
                eq_refl) as [(n & tm & data & C & N & J & E) T].
  split; [|exact T].
  exists n, tm, data. repeat split; try assumption; try (now apply N).
  now rewrite <- E.
Defined.

(** ** The first pass over the archive *)

Lemma existsb_isRegular (name : string) (entries : list (string * ascii)) :
  existsb (isRegular name) entries = true <-> In (name, TypeReg) entries.
Proof.
  rewrite existsb_exists. split.
  - intros ([n t] & I & E). unfold isRegular in E. simpl in E.
    apply andb_prop in E as [E1 E2].
    apply String.eqb_eq in E1. apply Ascii.eqb_eq in E2. now subst.
  - intros I. exists (name, TypeReg). split; [assumption|].
    unfold isRegular. simpl. now rewrite String.eqb_refl.
Qed.

Lemma verLicense_not_root (vertag : string) :
  (vertag ++ "/LICENSE" =? "LICENSE") = false.
Proof.
  apply String.eqb_neq. intros E.
  apply (f_equal String.length) in E. rewrite length_append in E.
  simpl in E. lia.
Qed.

Lemma versioned_go_mod (name vertag : string) :
  strings.HasSuffix name "/go.mod"
  && (strings.TrimSuffix name "/go.mod" =? vertag) = true
  <-> name = vertag ++ "/go.mod".
Proof.
  split.
  - intros H. apply andb_prop in H as [H1 H2].
    apply HasSuffix_iff in H1 as [d ->].
    rewrite TrimSuffix_app in H2. apply String.eqb_eq in H2. now subst.
  - intros ->. rewrite TrimSuffix_app, String.eqb_refl, andb_true_r.
    apply HasSuffix_iff. eauto.
Qed.

(** The state after the loop, as a reading of the entries. *)
Lemma surveyLoop_reads (vertag : string) :
  forall tr st0 st,
    surveyLoop vertag tr st0 = inr st ->
    hasLicense st
    = hasLicense st0 || existsb (isRegular "LICENSE") (tarEntries tr)
    /\ hasVerLicense st
       = hasVerLicense st0
         || existsb (isRegular (vertag ++ "/LICENSE")) (tarEntries tr)
    /\ useVersionedDir st
       = useVersionedDir st0
         || existsb (isRegular (vertag ++ "/go.mod")) (tarEntries tr)
    /\ filteredPaths st
       = (filteredPaths st0 ++ List.flat_map (filtered vertag) (tarEntries tr))%list.
Proof.
  induction tr as [|e|name ty data rest IH]; intros st0 st.
  - intros H. injection H as <-. simpl.
    now rewrite !orb_false_r, app_nil_r.
  - discriminate.
  - cbn [surveyLoop tarEntries existsb flat_map filtered]. cbv zeta.
    unfold isRegular at 1 3 5. cbn [fst snd].
    destruct (Ascii.eqb ty TypeReg) eqn:Reg.
    2:{ rewrite !andb_false_r. cbn [orb].
        destruct (Ascii.eqb ty TypeDir).
        - intros H. apply IH in H. exact H.
        - intros H. apply IH in H as (H1 & H2 & H3 & H4). cbn in *.
          repeat split; try assumption.
          now rewrite H4, <- app_assoc. }
    rewrite !andb_true_r.
    assert ((name =? vertag ++ "/go.mod")
            = strings.HasSuffix name "/go.mod"
              && (strings.TrimSuffix name "/go.mod" =? vertag)) as V.
    { destruct (strings.HasSuffix name "/go.mod"
                && (strings.TrimSuffix name "/go.mod" =? vertag)) eqn:E.
      - apply versioned_go_mod in E. subst. apply String.eqb_refl.
      - apply String.eqb_neq. intros N. apply versioned_go_mod in N.
        congruence. }
    rewrite V.
    assert (forall st1,
              hasLicense st1 = hasLicense st0 || (name =? "LICENSE") ->
              hasVerLicense st1
              = hasVerLicense st0 || (name =? vertag ++ "/LICENSE") ->
              useVersionedDir st1 = useVersionedDir st0 ->
              filteredPaths st1 = filteredPaths st0 ->
              (if strings.HasSuffix name "/go.mod"
               then
                 if strings.TrimSuffix name "/go.mod" =? vertag
                 then surveyLoop vertag rest
                        (mkSurvey (hasLicense st1) (hasVerLicense st1) true
                           (filteredPaths st1))
                 else surveyLoop vertag rest
                        (mkSurvey (hasLicense st1) (hasVerLicense st1)
                           (useVersionedDir st1)
                           (filteredPaths st1
                            ++ [strings.TrimSuffix name "go.mod"])%list)
               else surveyLoop vertag rest st1) = inr st ->
              hasLicense st
              = hasLicense st0
                || ((name =? "LICENSE")
                    || existsb (isRegular "LICENSE") (tarEntries rest))
              /\ hasVerLicense st
                 = hasVerLicense st0
                   || ((name =? vertag ++ "/LICENSE")
                       || existsb (isRegular (vertag ++ "/LICENSE"))
                            (tarEntries rest))
              /\ useVersionedDir st
                 = useVersionedDir st0
                   || (strings.HasSuffix name "/go.mod"
                       && (strings.TrimSuffix name "/go.mod" =? vertag)
                       || existsb (isRegular (vertag ++ "/go.mod"))
                            (tarEntries rest))
              /\ filteredPaths st
                 = (filteredPaths st0
                    ++ (if strings.HasSuffix name "/go.mod"
                           && negb (strings.TrimSuffix name "/go.mod" =? vertag)
                        then [strings.TrimSuffix name "go.mod"]
                        else [])
                    ++ List.flat_map (filtered vertag) (tarEntries rest))%list)
      as Step.
    { intros st1 L VL U F.
      destruct (strings.HasSuffix name "/go.mod");
        [destruct (strings.TrimSuffix name "/go.mod" =? vertag)|];
        intros H; apply IH in H as (H1 & H2 & H3 & H4); cbn in *;
        rewrite H1, H2, H3, H4, L, VL, ?U, ?F, ?orb_assoc, <- ?app_assoc;
        repeat split; try reflexivity.
      now rewrite orb_true_r. }
    destruct (String.eqb_spec name "LICENSE") as [->|NL].
    + apply Step; cbn [hasLicense hasVerLicense useVersionedDir filteredPaths];
        try reflexivity.
      * now rewrite orb_true_r.
      * rewrite String.eqb_sym, verLicense_not_root. now rewrite orb_false_r.
    + destruct (name =? vertag ++ "/LICENSE") eqn:VL.
      * apply Step;
          cbn [hasLicense hasVerLicense useVersionedDir filteredPaths];
          try reflexivity;
          [now rewrite orb_false_r | now rewrite orb_true_r].
      * apply Step;
          cbn [hasLicense hasVerLicense useVersionedDir filteredPaths];
          try reflexivity; now rewrite orb_false_r.
Qed.

Lemma filtered_meaning (vertag : string) (entries : list (string * ascii))
  (q : string) :
  In q (List.flat_map (filtered vertag) entries)
  <-> filteredEntry vertag entries q.
Proof.
  rewrite in_flat_map. unfold filteredEntry, filtered. split.
  - intros ([name ty] & I & Q).
    destruct (Ascii.eqb_spec ty TypeReg) as [->|NR].
    + destruct (strings.HasSuffix name "/go.mod") eqn:S; simpl in Q;
        [|contradiction].
      apply HasSuffix_iff in S as [d ->]. rewrite TrimSuffix_app in Q.
      destruct (String.eqb_spec d vertag) as [|N]; simpl in Q;
        [contradiction|].
      destruct Q as [<-|[]]. left. exists d. repeat split; try assumption.
      replace (d ++ "/go.mod") with ((d ++ "/") ++ "go.mod")
        by (rewrite append_assoc; reflexivity).
      apply TrimSuffix_app.
    + destruct (Ascii.eqb_spec ty TypeDir) as [->|ND]; simpl in Q;
        [contradiction|].
      destruct Q as [<-|[]]. right. exists ty. now repeat split.
  - intros [(d & N & I & ->) | (ty & NR & ND & I)].
    + exists (d ++ "/go.mod", TypeReg). split; [assumption|].
      rewrite Ascii.eqb_refl, TrimSuffix_app.
      assert (strings.HasSuffix (d ++ "/go.mod") "/go.mod" = true) as ->
          by (apply HasSuffix_iff; eauto).
      apply String.eqb_neq in N. rewrite N. simpl. left.
      replace (d ++ "/go.mod") with ((d ++ "/") ++ "go.mod")
        by (rewrite append_assoc; reflexivity).
      apply TrimSuffix_app.
    + exists (q, ty). split; [assumption|].
      apply Ascii.eqb_neq in NR, ND. rewrite NR, ND. now left.
Qed.

Lemma collectGitArchiveOpts_outcome (W : World)
  (gitdir prefix treeish vertag : string) (p : Proc)
  (cmdArgs : list string) (lic : bool) :
  spawn W GitCommand gitdir (firstPassArgs treeish) = inr p ->
  outcome (collectGitArchiveOpts W gitdir prefix treeish vertag)
    = inr (cmdArgs, lic) ->
  exists st,
    surveyLoop vertag (tarOut p) (mkSurvey false false false []) = inr st
    /\ lic = (if useVersionedDir st then hasVerLicense st else hasLicense st)
    /\ cmdArgs
       = (["archive"; "--prefix"; prefix; "--format=zip"; "-0";
           (if useVersionedDir st
            then (if negb (strings.HasSuffix treeish ":") then treeish ++ "/"
                  else treeish) ++ vertag
            else treeish)%string]
          ++ vendorExcludes
          ++ excludeArgs (useVersionedDir st) vertag (filteredPaths st))%list.
Proof.
  intros Sp. unfold collectGitArchiveOpts. rewrite outcome_bind.
  unfold getGitOutputCmd, outcome. cbn [snd].
  fold (firstPassArgs treeish). rewrite Sp.
  destruct (surveyLoop _ _ _) as [e|st]; [discriminate|].
  destruct (waitErr p); [discriminate|].
  cbv zeta. unfold ret. cbn [snd]. intros H. injection H as <- <-.
  exists st. now repeat split.
Qed.

(** X17.  The license flag of the first pass.  When the archive holds a
    regular [go.mod] in the directory of the major tag the module
    lives there, and the flag tells whether that directory holds a
    regular [LICENSE]; otherwise it tells whether the root of the
    archive does. *)
Theorem collectGitArchiveOpts_license (W : World)
  (gitdir prefix treeish vertag : string) (p : Proc)
  (cmdArgs : list string) (lic : bool) :
  spawn W GitCommand gitdir (firstPassArgs treeish) = inr p ->
  outcome (collectGitArchiveOpts W gitdir prefix treeish vertag)
    = inr (cmdArgs, lic) ->
  let entries := tarEntries (tarOut p) in
  (In (vertag ++ "/go.mod", TypeReg) entries ->
   (lic = true <-> In (vertag ++ "/LICENSE", TypeReg) entries))
  /\ (~ In (vertag ++ "/go.mod", TypeReg) entries ->
      (lic = true <-> In ("LICENSE", TypeReg) entries)).
Proof.
  intros Sp O entries.
  destruct (collectGitArchiveOpts_outcome _ _ _ _ _ _ _ _ Sp O)
    as (st & L & -> & _).
  destruct (surveyLoop_reads _ _ _ _ L) as (H1 & H2 & H3 & _).
  cbn [hasLicense hasVerLicense useVersionedDir orb] in H1, H2, H3.
  fold entries in H1, H2, H3. rewrite H1, H2, H3.
  split; intros V.
  - apply existsb_isRegular in V. rewrite V. apply existsb_isRegular.
  - destruct (existsb (isRegular (vertag ++ "/go.mod")) entries) eqn:E.
    + apply existsb_isRegular in E. contradiction.
    + apply existsb_isRegular.
Qed.

Lemma collectGitArchiveOpts_license_witness :
  let entries := tarEntries nestedArchive in
  (In ("v2" ++ "/go.mod", TypeReg) entries ->
   (false = true <-> In ("v2" ++ "/LICENSE", TypeReg) entries))
  /\ (~ In ("v2" ++ "/go.mod", TypeReg) entries ->
      (false = true <-> In ("LICENSE", TypeReg) entries)).
Proof.
  apply (collectGitArchiveOpts_license nestedWorld "example.com/a/.git"
           "example.com/a/v2@v2.1.0/" "v2.1.0^{tree}:" "v2"
           (mkProc "" nestedArchive None)
           ["archive"; "--prefix"; "example.com/a/v2@v2.1.0/";
            "--format=zip"; "-0"; "v2.1.0^{tree}:v2";
            ":(exclude)vendor/*.go"; ":(exclude)vendor/*/**";
            ":(exclude,top)**/vendor/*"; ":(exclude,top)latest";
            ":(exclude,top)sub/"]
           false).
  - reflexivity.
  - reflexivity.
Defined.

Lemma CutPrefix_meaning (s pre sub : string) :
  strings.CutPrefix s pre = (sub, true) <-> s = pre ++ sub.
Proof.
  unfold strings.CutPrefix. split.
  - destruct (strings.HasPrefix s pre) eqn:H; [|discriminate].
    apply HasPrefix_iff in H as [r ->]. rewrite drop_app.
    intros E. now injection E as <-.
  - intros ->. now rewrite HasPrefix_app, drop_app.
Qed.

Lemma excludeArgs_meaning (versioned : bool) (vertag : string)
  (paths : list string) (x : string) :
  In x (excludeArgs versioned vertag paths)
  <-> exists q, x = ":(exclude,top)" ++ q
                /\ In (if versioned then vertag ++ "/" ++ q else q) paths.
Proof.
  unfold excludeArgs. rewrite in_flat_map. split.
  - intros (p & I & X). destruct versioned; simpl negb in X; cbv iota in X.
    + destruct (strings.CutPrefix p (vertag ++ "/")) as [sub [|]] eqn:C;
        simpl in X; [|contradiction].
      destruct X as [<-|[]]. apply CutPrefix_meaning in C.
      exists sub. split; [reflexivity|].
      now rewrite C, append_assoc in I.
    + destruct X as [<-|[]]. exists p. now split.
  - intros (q & -> & I). destruct versioned.
    + exists (vertag ++ "/" ++ q). split; [assumption|].
      simpl negb. cbv iota.
      assert (strings.CutPrefix (vertag ++ "/" ++ q) (vertag ++ "/")
              = (q, true)) as ->
          by (apply CutPrefix_meaning; now rewrite append_assoc).
      now left.
    + exists q. split; [assumption | now left].
Qed.

(** X18.  The second pass, as the first pass sets it up.  Its arguments are
    the archive options, the tree, the three exclusions of vendored
    code and one exclusion, anchored at the top, for every path to
    leave out: the directory of each nested module and each entry
    that is neither a regular file nor a directory.  When the module
    lives in the directory of the major tag the tree is that
    directory, and only the paths under it are left out, written
    relative to it. *)
Theorem collectGitArchiveOpts_excludes (W : World)
  (gitdir prefix treeish vertag : string) (p : Proc)
  (cmdArgs : list string) (lic : bool) :
  spawn W GitCommand gitdir (firstPassArgs treeish) = inr p ->
  outcome (collectGitArchiveOpts W gitdir prefix treeish vertag)
    = inr (cmdArgs, lic) ->
  let entries := tarEntries (tarOut p) in
  exists tree excl,
    cmdArgs = (["archive"; "--prefix"; prefix; "--format=zip"; "-0"; tree]
               ++ vendorExcludes ++ excl)%list
    /\ (~ In (vertag ++ "/go.mod", TypeReg) entries ->
        tree = treeish
        /\ forall x, In x excl <->
                     exists q, x = ":(exclude,top)" ++ q
                               /\ filteredEntry vertag entries q)
    /\ (In (vertag ++ "/go.mod", TypeReg) entries ->
        tree = (if strings.HasSuffix treeish ":" then treeish
                else treeish ++ "/") ++ vertag
        /\ forall x, In x excl <->
                     exists q, x = ":(exclude,top)" ++ q
                               /\ filteredEntry vertag entries
                                    (vertag ++ "/" ++ q)).
Proof.
  intros Sp O entries.
  destruct (collectGitArchiveOpts_outcome _ _ _ _ _ _ _ _ Sp O)
    as (st & L & _ & ->).
  destruct (surveyLoop_reads _ _ _ _ L) as (_ & _ & H3 & H4).
  cbn [useVersionedDir filteredPaths orb app] in H3, H4.
  fold entries in H3, H4.
  eexists. exists (excludeArgs (useVersionedDir st) vertag (filteredPaths st)).
  split; [reflexivity|].
  rewrite H3, H4. split; intros V.
  - destruct (existsb (isRegular (vertag ++ "/go.mod")) entries) eqn:E.
    { apply existsb_isRegular in E. contradiction. }
    split; [reflexivity|]. intros x. rewrite excludeArgs_meaning.
    split; intros (q & X & F); exists q; (split; [exact X|]);
      now apply filtered_meaning.
  - apply existsb_isRegular in V. rewrite V.
    split; [now destruct (strings.HasSuffix treeish ":")|].
    intros x. rewrite excludeArgs_meaning.
    split; intros (q & X & F); exists q; (split; [exact X|]);
      now apply filtered_meaning.
Qed.

Lemma collectGitArchiveOpts_excludes_witness :
  let entries := tarEntries nestedArchive in
  exists tree excl,
    ["archive"; "--prefix"; "example.com/a/v2@v2.1.0/";
     "--format=zip"; "-0"; "v2.1.0^{tree}:v2";
     ":(exclude)vendor/*.go"; ":(exclude)vendor/*/**";
     ":(exclude,top)**/vendor/*"; ":(exclude,top)latest";
     ":(exclude,top)sub/"]
    = (["archive"; "--prefix"; "example.com/a/v2@v2.1.0/"; "--format=zip";
        "-0"; tree] ++ vendorExcludes ++ excl)%list
    /\ (~ In ("v2" ++ "/go.mod", TypeReg) entries ->
        tree = "v2.1.0^{tree}:"
        /\ forall x, In x excl <->
                     exists q, x = ":(exclude,top)" ++ q
                               /\ filteredEntry "v2" entries q)
    /\ (In ("v2" ++ "/go.mod", TypeReg) entries ->
        tree = (if strings.HasSuffix "v2.1.0^{tree}:" ":" then "v2.1.0^{tree}:"
                else "v2.1.0^{tree}:" ++ "/") ++ "v2"
        /\ forall x, In x excl <->
                     exists q, x = ":(exclude,top)" ++ q
                               /\ filteredEntry "v2" entries
                                    ("v2" ++ "/" ++ q)).
Proof.
  apply (collectGitArchiveOpts_excludes nestedWorld "example.com/a/.git"
           "example.com/a/v2@v2.1.0/" "v2.1.0^{tree}:" "v2"
           (mkProc "" nestedArchive None) _ false).
  - reflexivity.
  - reflexivity.
Defined.

(** ** The queue of clones *)

Arguments occ : simpl never.
Arguments count : simpl never.

Lemma occ_app (m : string) (a b : list string) :
  occ m (a ++ b) = occ m a + occ m b.
Proof. apply count_occ_app. Qed.

Lemma occ_one (m k : string) :
  occ m [k] = if string_dec k m then 1 else 0.
Proof. reflexivity. Qed.

Lemma occ_cons (m k : string) (l : list string) :
  occ m (k :: l) = (if string_dec k m then 1 else 0) + occ m l.
Proof. unfold occ. simpl. now destruct (string_dec k m). Qed.

Lemma Load_None (pg : list (string * string)) (k : string) :
  syncMap_Load pg k = None -> occ k (List.map fst pg) = 0.
Proof.
  unfold syncMap_Load. induction pg as [|[k' v] pg IH]; [reflexivity|].
  simpl. destruct (String.eqb_spec k' k) as [->|N]; [discriminate|].
  intros H. rewrite occ_cons. destruct (string_dec k' k); [contradiction|].
  now apply IH.
Qed.

Lemma Load_Some (pg : list (string * string)) (k v : string) :
  syncMap_Load pg k = Some v -> In (k, v) pg.
Proof.
  unfold syncMap_Load. induction pg as [|[k' v'] pg IH]; [discriminate|].
  simpl. destruct (String.eqb_spec k' k) as [->|N].
  - intros H. injection H as <-. now left.
  - intros H. right. now apply IH.
Qed.

Lemma occ_Delete (pg : list (string * string)) (k m : string) :
  occ m (List.map fst (syncMap_Delete pg k))
  = if string_dec k m then 0 else occ m (List.map fst pg).
Proof.
  unfold syncMap_Delete. induction pg as [|[k' v] pg IH].
  - now destruct (string_dec k m).
  - simpl. destruct (String.eqb_spec k' k) as [->|N]; simpl.
    + rewrite IH, occ_cons. now destruct (string_dec k m).
    + rewrite !occ_cons, IH.
      destruct (string_dec k m) as [->|]; [|reflexivity].
      now destruct (string_dec k' m).
Qed.

Lemma In_Delete (pg : list (string * string)) (k m r : string) :
  In (m, r) pg -> m <> k -> In (m, r) (syncMap_Delete pg k).
Proof.
  intros I N. unfold syncMap_Delete. apply filter_In. split; [assumption|].
  simpl. apply String.eqb_neq in N. now rewrite N.
Qed.

Lemma set_nth_split {A} (l1 l2 : list A) (a x : A) :
  set_nth (List.length l1) x (l1 ++ a :: l2) = (l1 ++ x :: l2)%list.
Proof.
  unfold set_nth.
  rewrite firstn_app, firstn_all, Nat.sub_diag, firstn_0, app_nil_r.
  replace (S (List.length l1)) with (List.length l1 + 1) by lia.
  rewrite skipn_app, skipn_all2 by lia.
  replace (List.length l1 + 1 - List.length l1) with 1 by lia.
  reflexivity.
Qed.

Lemma pick {A} (l : list A) (i : nat) (a : A) :
  List.nth_error l i = Some a ->
  exists l1 l2, l = (l1 ++ a :: l2)%list
                /\ forall x, set_nth i x l = (l1 ++ x :: l2)%list.
Proof.
  intros H. destruct (nth_error_split _ _ H) as (l1 & l2 & -> & <-).
  exists l1, l2. split; [reflexivity|]. intros x. apply set_nth_split.
Qed.

Lemma holdsW_Cloning (m r : string) (l : list Worker) :
  In (Cloning m r) l -> 1 <= occ m (List.flat_map holdsW l).
Proof.
  induction l as [|w l IH]; [contradiction|].
  intros [->|I]; cbn [flat_map]; rewrite occ_app.
  - cbn [holdsW]. rewrite occ_one.
    destruct (string_dec m m); [lia | contradiction].
  - specialize (IH I). lia.
Qed.

Lemma count_app {A} (f : A -> bool) (a b : list A) :
  count f (a ++ b) = (count f a + count f b)%Z.
Proof. unfold count. rewrite filter_app, length_app. lia. Qed.

Lemma count_cons {A} (f : A -> bool) (x : A) (l : list A) :
  count f (x :: l) = ((if f x then 1 else 0) + count f l)%Z.
Proof. unfold count. simpl. destruct (f x); simpl length; lia. Qed.

Lemma count_nonneg {A} (f : A -> bool) (l : list A) : (0 <= count f l)%Z.
Proof. unfold count. lia. Qed.

Lemma count_le_length {A} (f : A -> bool) (l : list A) :
  (count f l <= Z.of_nat (List.length l))%Z.
Proof. unfold count. pose proof (filter_length_le f l). lia. Qed.

Lemma occ_nil (m : string) : occ m [] = 0.
Proof. reflexivity. Qed.

Ltac flight :=
  unfold keys, inFlight in *;
  cbn [shared callers workers pendingGit gitClones gitCloneWorkers
       List.map fst] in *;
  repeat rewrite ?flat_map_app, ?occ_app in *;
  cbn [List.flat_map holdsC holdsW app] in *;
  repeat rewrite ?occ_app, ?occ_cons, ?occ_nil in *.

Ltac by_root :=
  repeat match goal with
         | |- context [string_dec ?a ?b] => destruct (string_dec a b)
         | H : context [string_dec ?a ?b] |- _ => destruct (string_dec a b)
         end;
  try subst; try lia; try congruence.

(** Ownership is kept by every step. *)
Lemma exec_owned (numCpus : nat) (s : Server) (ch : Choice) :
  owned s -> owned (exec numCpus s ch).
Proof.
  destruct s as [[pg chn ctr] cs ws]. intros O.
  destruct ch as [m0 r0 | i | i]; cbn [exec shared callers workers].
  - intros m. specialize (O m). flight. by_root.
  - destruct (nth_error cs i) as [c|] eqn:E; [|exact O].
    destruct (pick _ _ _ E) as (l1 & l2 & -> & Upd).
    destruct c as [m0 r0 | m0 | m0 | m0 | m0 | ];
      cbn [cacheModGit_step pendingGit gitClones gitCloneWorkers].
    + unfold syncMap_LoadOrStore.
      destruct (syncMap_Load pg m0) as [v|] eqn:L; rewrite Upd;
        intros m; specialize (O m); flight.
      * by_root.
      * apply Load_None in L. by_root.
    + rewrite Upd. intros m. specialize (O m).
      destruct (_ <? 0)%Z; flight; by_root.
    + rewrite Upd. intros m. specialize (O m). flight. by_root.
    + rewrite Upd. intros m. specialize (O m). flight. by_root.
    + destruct (_ <? _)%nat; [|exact O].
      rewrite Upd. intros m. specialize (O m). flight. by_root.
    + exact O.
  - destruct (nth_error ws i) as [w|] eqn:E; [|exact O].
    destruct (pick _ _ _ E) as (l1 & l2 & -> & Upd).
    destruct w as [ | m0 | m0 r0 | m0 | msg];
      cbn [gitCloneWorker_step pendingGit gitClones gitCloneWorkers].
    + destruct chn as [|m0 rest]; [exact O|].
      rewrite Upd. intros m. specialize (O m). flight. by_root.
    + destruct (syncMap_Load pg m0) as [v|] eqn:L; rewrite Upd.
      * intros m. specialize (O m). flight. by_root.
      * exfalso. apply Load_None in L. specialize (O m0). flight. by_root.
    + rewrite Upd. intros m. specialize (O m). flight. by_root.
    + rewrite Upd. intros m. specialize (O m). flight.
      rewrite occ_Delete. by_root.
    + exact O.
Qed.

Lemma Forall_middle {A} (P : A -> Prop) (l1 l2 : list A) (a b : A) :
  Forall P (l1 ++ a :: l2) -> P b -> Forall P (l1 ++ b :: l2).
Proof.
  intros F Pb. apply Forall_app in F as [F1 F2].
  apply Forall_app. split; [assumption|].
  constructor; [assumption | now inversion F2].
Qed.

Lemma remoteStored_more (sh sh' : Shared) (w : Worker) :
  (forall x, In x (pendingGit sh) -> In x (pendingGit sh')) ->
  remoteStored sh w -> remoteStored sh' w.
Proof. intros Sub. destruct w; simpl; auto. Qed.

(** Workers keep the remote of their root, and none panics. *)
Lemma exec_workers (numCpus : nat) (s : Server) (ch : Choice) :
  owned s ->
  Forall (remoteStored (shared s)) (workers s) ->
  Forall (fun w => hasPanicked w = false) (workers s) ->
  Forall (remoteStored (shared (exec numCpus s ch)))
    (workers (exec numCpus s ch))
  /\ Forall (fun w => hasPanicked w = false) (workers (exec numCpus s ch)).
Proof.
  destruct s as [[pg chn ctr] cs ws]. cbn [shared workers]. intros O R NP.
  destruct ch as [m0 r0 | i | i]; cbn [exec shared callers workers].
  - now split.
  - destruct (nth_error cs i) as [c|] eqn:E; [|now split].
    destruct (cacheModGit_step numCpus _ c) as [[[sh c'] started]|] eqn:St;
      [|now split].
    cbn [shared workers].
    assert ((forall x, In x pg -> In x (pendingGit sh))
            /\ (started = [] \/ started = [AtReceive])) as [Sub Started].
    { destruct c as [m0 r0 | m0 | m0 | m0 | m0 | ];
        cbn [cacheModGit_step pendingGit gitClones gitCloneWorkers] in St.
      - unfold syncMap_LoadOrStore in St.
        destruct (syncMap_Load pg m0); injection St as <- _ <-;
          cbn [pendingGit]; split; auto. intros x I. now right.
      - injection St as <- _ <-. cbn [pendingGit]. auto.
      - injection St as <- _ <-. cbn [pendingGit]. auto.
      - injection St as <- _ <-. cbn [pendingGit]. auto.
      - destruct (_ <? _)%nat; [|discriminate].
        injection St as <- _ <-. cbn [pendingGit]. auto.
      - discriminate. }
    split.
    + apply Forall_app. split.
      * eapply Forall_impl; [|exact R].
        intros w. now apply remoteStored_more.
      * destruct Started as [->| ->]; repeat constructor.
    + apply Forall_app. split; [assumption|].
      destruct Started as [->| ->]; repeat constructor.
  - destruct (nth_error ws i) as [w|] eqn:E; [|now split].
    destruct (pick _ _ _ E) as (l1 & l2 & -> & Upd).
    destruct w as [ | m0 | m0 r0 | m0 | msg];
      cbn [gitCloneWorker_step pendingGit gitClones gitCloneWorkers].
    + destruct chn as [|m0 rest]; [now split|].
      cbn [shared workers]. rewrite Upd. split.
      * eapply Forall_middle; [|exact I].
        eapply Forall_impl; [|exact R]. intros w.
        now apply remoteStored_more.
      * now apply (Forall_middle _ _ _ AtReceive).
    + destruct (syncMap_Load pg m0) as [v|] eqn:L; cbn [shared workers];
        rewrite Upd.
      * split; [|now apply (Forall_middle _ _ _ (AtLoad m0))].
        apply (Forall_middle _ _ _ (AtLoad m0)); [assumption|].
        simpl. now apply Load_Some.
      * exfalso. apply Load_None in L. specialize (O m0). flight. by_root.
    + cbn [shared workers]. rewrite Upd.
      split; now apply (Forall_middle _ _ _ (Cloning m0 r0)).
    + cbn [shared workers]. rewrite Upd.
      split; [|now apply (Forall_middle _ _ _ (AtDelete m0))].
      apply (Forall_middle _ _ _ (AtDelete m0) AtReceive); [|exact I].
      apply Forall_forall. intros w Iw.
      pose proof (proj1 (Forall_forall _ _) R w Iw) as Rw.
      destruct w as [ | m | m r | m | msg]; try exact I.
      simpl in *. apply In_Delete; [assumption|].
      intros ->.
      apply in_app_or in Iw as [Iw | [Iw | Iw]]; [|discriminate|].
      * apply holdsW_Cloning in Iw. specialize (O m0). flight. by_root.
      * apply holdsW_Cloning in Iw. specialize (O m0). flight. by_root.
    + now split.
Qed.

(** What every schedule keeps. *)
Lemma runServer_keeps (numCpus : nat) (schedule : list Choice) :
  let s := runServer numCpus schedule in
  owned s
  /\ Forall (remoteStored (shared s)) (workers s)
  /\ Forall (fun w => hasPanicked w = false) (workers s).
Proof.
  unfold runServer.
  assert (forall s,
            owned s /\ Forall (remoteStored (shared s)) (workers s)
            /\ Forall (fun w => hasPanicked w = false) (workers s) ->
            owned (fold_left (exec numCpus) schedule s)
            /\ Forall (remoteStored
                         (shared (fold_left (exec numCpus) schedule s)))
                 (workers (fold_left (exec numCpus) schedule s))
            /\ Forall (fun w => hasPanicked w = false)
                 (workers (fold_left (exec numCpus) schedule s))) as G.
  { induction schedule as [|ch schedule IH]; intros s (O & R & NP);
      [exact (conj O (conj R NP))|].
    simpl. apply IH. split; [now apply exec_owned|].
    now apply exec_workers. }
  apply G. split.
  - intros m. split; [reflexivity | unfold keys, occ; simpl; lia].
  - split; constructor.
Qed.

Lemma int64_id (z : Z) :
  (- 2 ^ 63 <= z < 2 ^ 63)%Z -> int64 z = z.
Proof.
  intros B. unfold int64.
  rewrite Z.mod_small; lia.
Qed.

Lemma count_nil {A} (f : A -> bool) : count f [] = 0%Z.
Proof. reflexivity. Qed.

Ltac tally :=
  cbn [shared callers workers pendingGit gitClones gitCloneWorkers] in *;
  repeat rewrite ?count_app, ?count_cons, ?count_nil, ?length_app in *;
  cbn [isAtGo isAtRestore isAtSend List.length] in *;
  repeat rewrite ?count_app, ?count_cons, ?count_nil in *.

(** The counter follows the workers as long as it does not wrap
    around. *)
Lemma exec_counted (numCpus : nat) (s : Server) (ch : Choice) :
  (Z.of_nat numCpus < 2 ^ 63)%Z ->
  (Z.of_nat (List.length (callers s)) < 2 ^ 63)%Z ->
  counted numCpus s -> counted numCpus (exec numCpus s ch).
Proof.
  destruct s as [[pg chn ctr] cs ws]. unfold counted. intros Bn Bc C.
  destruct ch as [m0 r0 | i | i]; cbn [exec shared callers workers].
  - tally. lia.
  - destruct (nth_error cs i) as [c|] eqn:E; [|exact C].
    destruct (pick _ _ _ E) as (l1 & l2 & -> & Upd).
    pose proof (count_le_length isAtRestore l1) as R1.
    pose proof (count_le_length isAtRestore l2) as R2.
    pose proof (count_nonneg isAtRestore l1).
    pose proof (count_nonneg isAtRestore l2).
    pose proof (count_nonneg isAtGo l1).
    pose proof (count_nonneg isAtGo l2).
    destruct c as [m0 r0 | m0 | m0 | m0 | m0 | ];
      cbn [cacheModGit_step pendingGit gitClones gitCloneWorkers].
    + destruct (syncMap_LoadOrStore pg m0 r0) as [m [|]]; rewrite Upd;
        tally; lia.
    + rewrite Upd. tally.
      rewrite int64_id by lia.
      destruct (Z.ltb_spec (ctr + -1) 0); tally; lia.
    + rewrite Upd. tally. rewrite int64_id by lia. lia.
    + rewrite Upd. tally. lia.
    + destruct (_ <? _)%nat; [|exact C]. rewrite Upd. tally. lia.
    + exact C.
  - destruct (nth_error ws i) as [w|] eqn:E; [|exact C].
    destruct (pick _ _ _ E) as (l1 & l2 & -> & Upd).
    destruct (gitCloneWorker_step _ w) as [[sh w']|] eqn:St; [|exact C].
    assert (gitCloneWorkers sh = ctr) as Ctr.
    { destruct w as [ | m0 | m0 r0 | m0 | msg];
        cbn [gitCloneWorker_step pendingGit gitClones gitCloneWorkers] in St.
      - destruct chn; [discriminate|]. now injection St as <- _.
      - destruct (syncMap_Load pg m0); now injection St as <- _.
      - now injection St as <- _.
      - now injection St as <- _.
      - discriminate. }
    rewrite Upd. tally. rewrite Ctr. lia.
Qed.

Lemma middle_not_nil {A} (l1 l2 : list A) (a : A) : (l1 ++ a :: l2)%list <> [].
Proof. destruct l1; discriminate. Qed.

(** Workers stay, and the first caller to decrement the counter
    starts one. *)
Lemma exec_staffed (numCpus : nat) (s : Server) (ch : Choice) :
  1 <= numCpus ->
  (Z.of_nat numCpus < 2 ^ 63)%Z ->
  counted numCpus s ->
  staffed s \/ idle s ->
  staffed (exec numCpus s ch) \/ idle (exec numCpus s ch).
Proof.
  destruct s as [[pg chn ctr] cs ws]. unfold counted, staffed, idle.
  cbn [shared callers workers gitClones gitCloneWorkers].
  intros N1 Bn C SI.
  destruct ch as [m0 r0 | i | i];
    cbn [exec shared callers workers gitClones gitCloneWorkers].
  - tally. destruct SI as [[W|G]|(I1 & I2 & I3)];
      [now left; left | left; right; lia|].
    right. split; [assumption | split; lia].
  - destruct (nth_error cs i) as [c|] eqn:E; [|exact SI].
    destruct (pick _ _ _ E) as (l1 & l2 & -> & Upd).
    pose proof (count_nonneg isAtRestore l1).
    pose proof (count_nonneg isAtRestore l2).
    pose proof (count_nonneg isAtSend l1).
    pose proof (count_nonneg isAtSend l2).
    pose proof (count_nonneg isAtGo l1).
    pose proof (count_nonneg isAtGo l2).
    destruct c as [m0 r0 | m0 | m0 | m0 | m0 | ];
      cbn [cacheModGit_step pendingGit gitClones gitCloneWorkers].
    + destruct (syncMap_LoadOrStore pg m0 r0) as [m [|]]; rewrite Upd;
        cbn [shared callers workers gitClones gitCloneWorkers];
        rewrite app_nil_r; tally;
        (destruct SI as [[W|G]|(I1 & I2 & I3)];
         [now left; left | left; right; lia|]);
        right; (split; [assumption | split; lia]).
    + rewrite Upd.
      cbn [shared callers workers gitClones gitCloneWorkers].
      rewrite app_nil_r. tally.
      destruct SI as [[W|G]|(I1 & I2 & I3)].
      * now left; left.
      * left; right. destruct (_ <? 0)%Z; tally; lia.
      * destruct ws as [|w ws]; [|left; left; discriminate].
        left; right. destruct C as [C _]. simpl in C.
        destruct (Z.ltb_spec 0 (count isAtGo l1 + count isAtGo l2)) as [G|G].
        { destruct (_ <? 0)%Z; tally; lia. }
        rewrite int64_id by lia.
        destruct (Z.ltb_spec (ctr + -1) 0); tally; lia.
    + rewrite Upd.
      cbn [shared callers workers gitClones gitCloneWorkers].
      rewrite app_nil_r. tally.
      destruct SI as [[W|G]|(I1 & I2 & I3)];
        [now left; left | left; right; lia | exfalso; lia].
    + left; left. cbn [shared callers workers]. destruct ws; discriminate.
    + destruct (_ <? _)%nat; [|exact SI]. rewrite Upd.
      cbn [shared callers workers gitClones gitCloneWorkers].
      rewrite app_nil_r. tally.
      destruct SI as [[W|G]|(I1 & I2 & I3)];
        [now left; left | left; right; lia | exfalso; lia].
    + exact SI.
  - destruct (nth_error ws i) as [w|] eqn:E; [|exact SI].
    destruct (pick _ _ _ E) as (l1 & l2 & -> & Upd).
    destruct (gitCloneWorker_step _ w) as [[sh w']|]; [|exact SI].
    left; left. cbn [workers]. rewrite Upd. apply middle_not_nil.
Qed.

Lemma exec_callers (numCpus : nat) (s : Server) (ch : Choice) :
  List.length (callers (exec numCpus s ch)) <= S (List.length (callers s)).
Proof.
  destruct ch as [m0 r0 | i | i]; cbn [exec callers].
  - rewrite length_app. simpl. lia.
  - destruct (nth_error (callers s) i) as [c|] eqn:E; [|lia].
    destruct (pick _ _ _ E) as (l1 & l2 & El & Upd).
    destruct (cacheModGit_step _ _ c) as [[[sh c'] st]|]; [|lia].
    cbn [callers]. rewrite Upd, El, !length_app. simpl. lia.
  - destruct (nth_error (workers s) i) as [w|]; [|lia].
    destruct (gitCloneWorker_step _ w) as [[sh w']|]; cbn [callers]; lia.
Qed.

(** What every schedule keeps while the counter cannot wrap
    around. *)
Lemma runServer_counts (numCpus : nat) (schedule : list Choice) :
  1 <= numCpus ->
  (Z.of_nat numCpus < 2 ^ 63)%Z ->
  (Z.of_nat (List.length schedule) < 2 ^ 63)%Z ->
  let s := runServer numCpus schedule in
  counted numCpus s /\ (staffed s \/ idle s).
Proof.
  intros N1 Bn Bs. unfold runServer.
  assert (forall s,
            (Z.of_nat (List.length (callers s))
             + Z.of_nat (List.length schedule) < 2 ^ 63)%Z ->
            counted numCpus s /\ (staffed s \/ idle s) ->
            counted numCpus (fold_left (exec numCpus) schedule s)
            /\ (staffed (fold_left (exec numCpus) schedule s)
                \/ idle (fold_left (exec numCpus) schedule s))) as G.
  { clear Bs. induction schedule as [|ch schedule IH]; intros s B [C SI];
      [now split|].
    simpl fold_left. simpl List.length in B.
    pose proof (exec_callers numCpus s ch).
    apply IH; [lia|]. split.
    - apply exec_counted; [assumption | lia | assumption].
    - now apply exec_staffed. }
  apply G.
  - simpl. lia.
  - split.
    + unfold counted. simpl. rewrite !count_nil. lia.
    + right. unfold idle. simpl. now rewrite !count_nil.
Qed.

Lemma Load_stored (pg : list (string * string)) (m r : string) :
  In (m, r) pg -> occ m (List.map fst pg) <= 1 ->
  syncMap_Load pg m = Some r.
Proof.
  unfold syncMap_Load. induction pg as [|[k v] pg IH]; [contradiction|].
  cbn [List.map fst List.find]. rewrite occ_cons.
  intros [E|I] L.
  - injection E as -> ->. now rewrite String.eqb_refl.
  - destruct (String.eqb_spec k m) as [->|N].
    + exfalso. destruct (string_dec m m); [|contradiction].
      assert (1 <= occ m (List.map fst pg)); [|lia].
      apply (in_map fst) in I. simpl in I.
      apply (count_occ_In string_dec) in I. unfold occ. lia.
    + destruct (string_dec k m); [contradiction|]. now apply IH.
Qed.

(** X19.  Whatever the interleaving of the callers of [cacheModGit] and of
    the workers, no worker panics: the root that a worker takes from
    the channel is always found in [p.pendingGit]. *)
Theorem gitCloneWorker_never_panics (numCpus : nat) (schedule : list Choice) :
  Forall (fun w => hasPanicked w = false)
    (workers (runServer numCpus schedule)).
Proof. apply (runServer_keeps numCpus schedule). Qed.

(** X20.  Whatever the interleaving, a repository root is in flight at most
    once: it is held by one caller past [LoadOrStore], or queued once
    in the channel, or held by one worker; so no two workers clone or
    update the same repository at the same time.  The roots in flight
    are exactly the keys of [p.pendingGit]. *)
Theorem one_holder_per_root (numCpus : nat) (schedule : list Choice) :
  let s := runServer numCpus schedule in
  NoDup (inFlight s) /\ NoDup (keys s)
  /\ forall m, In m (keys s) <-> In m (inFlight s).
Proof.
  intros s. destruct (runServer_keeps numCpus schedule) as (O & _ & _).
  fold s in O. split; [|split].
  - apply (NoDup_count_occ string_dec). intros m.
    destruct (O m) as [E L]. unfold occ in *. lia.
  - apply (NoDup_count_occ string_dec). intros m.
    destruct (O m) as [E L]. unfold occ in *. lia.
  - intros m. rewrite !(count_occ_In string_dec).
    destruct (O m) as [E L]. unfold occ in *. lia.
Qed.

(** X21.  Whatever the interleaving, a worker clones from the remote that
    [p.pendingGit] holds for its root: the remote of the caller that
    stored the root, whatever later callers asked for. *)
Theorem gitCloneWorker_remote (numCpus : nat) (schedule : list Choice) :
  let s := runServer numCpus schedule in
  Forall (fun w =>
            match w with
            | Cloning m r => syncMap_Load (pendingGit (shared s)) m = Some r
            | _ => True
            end) (workers s).
Proof.
  intros s. destruct (runServer_keeps numCpus schedule) as (O & R & _).
  fold s in O, R. eapply Forall_impl; [|exact R].
  intros [ | m | m r | m | msg]; simpl; auto.
  intros I. apply Load_stored; [assumption|]. apply (O m).
Qed.

(** X22.  As long as the counter cannot wrap around, it tells how many more
    workers may be started, and there are never more workers than
    processors. *)
Theorem gitCloneWorkers_bound (numCpus : nat) (schedule : list Choice) :
  1 <= numCpus ->
  (Z.of_nat numCpus < 2 ^ 63)%Z ->
  (Z.of_nat (List.length schedule) < 2 ^ 63)%Z ->
  let s := runServer numCpus schedule in
  List.length (workers s) <= numCpus
  /\ (gitCloneWorkers (shared s)
      = Z.of_nat numCpus - Z.of_nat (List.length (workers s))
        - count isAtGo (callers s) - count isAtRestore (callers s))%Z
  /\ (- count isAtRestore (callers s) <= gitCloneWorkers (shared s)
      <= Z.of_nat numCpus)%Z.
Proof.
  intros N1 Bn Bs s.
  destruct (runServer_counts numCpus schedule N1 Bn Bs) as [[C1 C2] _].
  fold s in C1, C2.
  pose proof (count_nonneg isAtGo (callers s)).
  pose proof (count_nonneg isAtRestore (callers s)).
  repeat split; try lia.
Qed.

Lemma gitCloneWorkers_bound_witness :
  let s := runServer 2
             [Arrive "example.com/b" "https://git.example.com/b.git";
              RunCaller 0; RunCaller 0; RunCaller 0;
              Arrive "example.com/b" "https://git.example.com/fork.git";
              RunCaller 1; RunCaller 0; RunWorker 0; RunWorker 0] in
  List.length (workers s) <= 2
  /\ (gitCloneWorkers (shared s)
      = Z.of_nat 2 - Z.of_nat (List.length (workers s))
        - count isAtGo (callers s) - count isAtRestore (callers s))%Z
  /\ (- count isAtRestore (callers s) <= gitCloneWorkers (shared s)
      <= Z.of_nat 2)%Z.
Proof.
  apply (gitCloneWorkers_bound 2
           [Arrive "example.com/b" "https://git.example.com/b.git";
            RunCaller 0; RunCaller 0; RunCaller 0;
            Arrive "example.com/b" "https://git.example.com/fork.git";
            RunCaller 1; RunCaller 0; RunWorker 0; RunWorker 0]).
  - lia.
  - simpl. lia.
  - simpl. lia.
Defined.

(** X23.  As long as the counter cannot wrap around, nothing waits for a
    worker that will not come: either a worker runs or a caller is
    about to start one, or else the channel is empty and no caller is
    about to send. *)
Theorem queue_is_staffed (numCpus : nat) (schedule : list Choice) :
  1 <= numCpus ->
  (Z.of_nat numCpus < 2 ^ 63)%Z ->
  (Z.of_nat (List.length schedule) < 2 ^ 63)%Z ->
  let s := runServer numCpus schedule in
  (workers s <> [] \/ (0 < count isAtGo (callers s))%Z)
  \/ (gitClones (shared s) = [] /\ count isAtSend (callers s) = 0%Z
      /\ count isAtRestore (callers s) = 0%Z).
Proof.
  intros N1 Bn Bs.
  exact (proj2 (runServer_counts numCpus schedule N1 Bn Bs)).
Qed.

Lemma queue_is_staffed_witness :
  let s := runServer 1
             [Arrive "example.com/b" "https://git.example.com/b.git";
              Arrive "example.com/c" "https://git.example.com/c.git";
              RunCaller 0; RunCaller 1; RunCaller 0; RunCaller 1;
              RunCaller 1; RunCaller 1] in
  (workers s <> [] \/ (0 < count isAtGo (callers s))%Z)
  \/ (gitClones (shared s) = [] /\ count isAtSend (callers s) = 0%Z
      /\ count isAtRestore (callers s) = 0%Z).
Proof.
  apply (queue_is_staffed 1
           [Arrive "example.com/b" "https://git.example.com/b.git";
            Arrive "example.com/c" "https://git.example.com/c.git";
            RunCaller 0; RunCaller 1; RunCaller 0; RunCaller 1;
            RunCaller 1; RunCaller 1]).
  - lia.
  - simpl. lia.
  - simpl. lia.
Defined.

(** ** The command line *)

Lemma HasSuffix_slash (b : string) :
  occurs "/" b = false -> b <> "" ->
  strings.HasSuffix (String "/" b) "/" = false.
Proof.
  intros O N. destruct (strings.HasSuffix (String "/" b) "/") eqn:H;
    [|reflexivity].
  apply HasSuffix_iff in H as [a E]. destruct a as [|c a]; simpl in E.
  - injection E as E. now elim N.
  - injection E as _ E. rewrite E, occurs_app in O. simpl in O.
    now rewrite orb_true_r in O.
Qed.

(** X24.  The prefix that the proxy serves under is what follows the last
    slash of its argument, between two slashes, and the address to
    listen on is what precedes that slash; without a slash, or with
    nothing after the last one, the prefix is a single slash.  The
    prefix always begins and ends with a slash. *)
Theorem served_prefix (arg : string) :
  let '(addr, prefix) := main_split arg in
  (occurs "/" arg = false /\ addr = arg /\ init_Prefix prefix = "/")
  \/ exists x,
       occurs "/" x = false /\ arg = addr ++ "/" ++ x
       /\ init_Prefix prefix = (if x =? "" then "/" else "/" ++ x ++ "/").
Proof.
  unfold main_split. cbv zeta.
  destruct (Z.eqb_spec (strings.LastIndexByte arg "/") (-1)) as [E|N];
    simpl negb; cbv iota.
  - left. apply LastIndexByte_absent in E. now repeat split.
  - right.
    destruct (LastIndexByte_found _ _ _ eq_refl N)
      as (_ & a & b & Eab & La & Ob).
    rewrite <- La.
    assert (strings.take (String.length a) arg = a) as ->
        by (rewrite Eab; apply take_app).
    assert (strings.drop (String.length a) arg = String "/" b) as ->
        by (rewrite Eab; apply drop_app).
    exists b. split; [assumption|]. split; [exact Eab|].
    unfold init_Prefix. destruct (String.eqb_spec b "") as [->|Nb].
    + reflexivity.
    + rewrite (HasSuffix_slash _ Ob Nb). reflexivity.
Qed.

(** ** The answer of the fast path *)

Lemma cacheModGit_retry_outcome (W : World) (gitdir subPath : string)
  (pseudoVer : bool) (refspec : string) :
  outcome (cacheModGit_retry_refspec W gitdir pseudoVer subPath refspec)
  = if hashQueryFails W gitdir refspec then
      if negb pseudoVer && (subPath =? "") && strings.HasPrefix refspec "v"
      then outcome (cacheModGit_retry_refspec W gitdir pseudoVer subPath
                      (strings.drop 1 refspec))
      else inr (match spawn W GitCommand gitdir
                        ["log"; "-1"; "--format=%H"; refspec] with
                | inl e => Some e
                | inr p => waitErr p
                end)
    else inr None.
Proof.
  rewrite cacheModGit_retry_unfold, outcome_bind.
  unfold hashQueryFails, Run, outcome. cbn [snd].
  destruct (match spawn W GitCommand gitdir _ with
            | inl e => Some e
            | inr p => waitErr p
            end) as [e|]; [|reflexivity].
  destruct (negb pseudoVer && (subPath =? "") && strings.HasPrefix refspec "v")
    eqn:G; [|reflexivity].
  apply andb_prop in G as [_ G].
  destruct (HasPrefix_v_inv _ G) as (rest & -> & ->). reflexivity.
Qed.

(** X25.  The fast path of [cacheModGit] finds a version in the local
    repository exactly when [git log] finds its refspec, or, for a
    module at the root of its repository and a version that is no
    pseudo-version, when it finds the refspec without its leading
    [v]. *)
Theorem cacheModGit_local_found (W : World) (modulePath subPath ver : string) :
  let version := semver.Canonical ver in
  let pseudo := IsPseudoVersion W version in
  let refspec :=
    refspecAsSpecified pseudo (PseudoVersionRev W version) subPath version in
  let gitdir := path.Join [modulePath; ".git"] in
  outcome (cacheModGit_local W modulePath subPath ver)
  = inr (negb (hashQueryFails W gitdir refspec)
         || (negb pseudo && (subPath =? "") && strings.HasPrefix refspec "v"
             && negb (hashQueryFails W gitdir (strings.drop 1 refspec)))).
Proof.
  intros version pseudo refspec gitdir.
  unfold cacheModGit_local. cbv zeta. fold version pseudo.
  rewrite refspec_agrees. fold refspec gitdir.
  rewrite outcome_bind, cacheModGit_retry_outcome.
  destruct (hashQueryFails W gitdir refspec) eqn:F1; [|reflexivity].
  cbn [negb orb].
  destruct (negb pseudo && (subPath =? "") && strings.HasPrefix refspec "v")
    eqn:G.
  - rewrite cacheModGit_retry_outcome.
    pose proof (retry_once pseudo (PseudoVersionRev W version) subPath ver G)
      as Once.
    change (strings.HasPrefix (strings.drop 1 refspec) "v" = false) in Once.
    rewrite Once, andb_false_r, andb_true_l.
    destruct (hashQueryFails W gitdir (strings.drop 1 refspec)) eqn:F2;
      [|reflexivity].
    unfold hashQueryFails, Run, outcome in F2. cbn [snd] in F2.
    destruct (match spawn W GitCommand gitdir _ with
              | inl e => Some e
              | inr p => waitErr p
              end); [reflexivity | discriminate].
  - unfold hashQueryFails, Run, outcome in F1. cbn [snd] in F1.
    destruct (match spawn W GitCommand gitdir _ with
              | inl e => Some e
              | inr p => waitErr p
              end); [reflexivity | discriminate].
Qed.

(** ** The refreshes under way *)

Lemma monitorModFetch_effect (Out : Outside) (pending : list string)
  (urlPath : string) :
  (snd (monitorModFetch Out pending urlPath) = None
   /\ snd (fst (monitorModFetch Out pending urlPath)) = pending)
  \/ exists j,
       snd (monitorModFetch Out pending urlPath) = Some j
       /\ snd (fst (monitorModFetch Out pending urlPath))
          = refreshKey j :: pending
       /\ ~ In (refreshKey j) pending.
Proof.
  unfold monitorModFetch.
  destruct (parseRequest urlPath) as [[[esc prop] ok] resp].
  destruct ok; simpl negb; cbv iota; [|now left].
  cbv zeta.
  destruct ((path_Ext prop =? ".info") || (path_Ext prop =? ".mod")
            || (path_Ext prop =? ".zip")).
  - unfold processEsModPathVer.
    destruct (UnescapePath Out esc) as [err|modulePath]; [now left|].
    destruct (existsb _ pending) eqn:E; [now left|].
    right. eexists. repeat split. cbn [refreshKey].
    intros I. apply existsb_eqb_In in I. congruence.
  - destruct (path_Ext prop =? "");
      [destruct ((prop =? "latest") || (prop =? "list"))|]; now left.
Qed.

Lemma occ_done (pending : list string) (key k : string) :
  occ k (refreshModPathVer_done pending key)
  = if string_dec key k then 0 else occ k pending.
Proof.
  unfold refreshModPathVer_done. induction pending as [|x l IH].
  - now destruct (string_dec key k).
  - simpl. destruct (String.eqb_spec x key) as [->|N]; simpl.
    + rewrite IH, occ_cons. now destruct (string_dec key k).
    + rewrite !occ_cons, IH.
      destruct (string_dec key k) as [->|]; [|reflexivity].
      now destruct (string_dec x k).
Qed.

Lemma frontExec_keeps (Out : Outside) (f : Front) (ch : FrontChoice) :
  (forall k, occ k (pendingMod f)
             = occ k (List.map refreshKey (refreshing f))
             /\ occ k (pendingMod f) <= 1) ->
  forall k, occ k (pendingMod (frontExec Out f ch))
            = occ k (List.map refreshKey (refreshing (frontExec Out f ch)))
            /\ occ k (pendingMod (frontExec Out f ch)) <= 1.
Proof.
  destruct f as [pending jobs]. cbn [pendingMod refreshing]. intros I k.
  destruct ch as [urlPath | i]; cbn [frontExec pendingMod refreshing].
  - destruct (monitorModFetch_effect Out pending urlPath)
      as [[J P] | (j & J & P & N)];
      destruct (monitorModFetch Out pending urlPath) as [[h pending'] job];
      cbn [fst snd] in J, P; subst job pending'; cbn [pendingMod refreshing].
    + rewrite app_nil_r. apply I.
    + rewrite map_app, occ_app, occ_cons. cbn [List.map]. rewrite occ_one.
      specialize (I k). destruct (string_dec (refreshKey j) k) as [<-|]; [|lia].
      assert (occ (refreshKey j) pending = 0); [|lia].
      apply (count_occ_not_In string_dec) in N. exact N.
  - destruct (nth_error jobs i) as [job|] eqn:E; [|apply I].
    destruct (nth_error_split _ _ E) as (l1 & l2 & -> & <-).
    cbn [pendingMod refreshing].
    rewrite firstn_app, firstn_all, Nat.sub_diag, firstn_0, app_nil_r.
    replace (S (List.length l1)) with (List.length l1 + 1) by lia.
    rewrite skipn_app, skipn_all2 by lia.
    replace (List.length l1 + 1 - List.length l1) with 1 by lia.
    cbn [skipn app]. rewrite occ_done.
    pose proof (I k) as Ik. pose proof (I (refreshKey job)) as Ij.
    rewrite !map_app, !occ_app in *. cbn [List.map] in *.
    rewrite !occ_cons in *.
    destruct (string_dec (refreshKey job) k) as [<-|];
      destruct (string_dec (refreshKey job) (refreshKey job)); try lia;
      contradiction.
Qed.

(** X26.  Whatever the order of the requests and of the returns of the
    refreshes, at most one refresh runs for a key at a time, and the
    keys of [p.pendingMod] are exactly the keys of the refreshes that
    run: a key is released when its refresh returns, whatever way it
    ends. *)
Theorem one_refresh_per_key (Out : Outside) (schedule : list FrontChoice) :
  let f := runFront Out schedule in
  NoDup (List.map refreshKey (refreshing f))
  /\ NoDup (pendingMod f)
  /\ forall k, In k (pendingMod f) <-> In k (List.map refreshKey (refreshing f)).
Proof.
  intros f.
  assert (forall k, occ k (pendingMod f)
                    = occ k (List.map refreshKey (refreshing f))
                    /\ occ k (pendingMod f) <= 1) as I.
  { unfold f, runFront.
    assert (forall f0,
              (forall k, occ k (pendingMod f0)
                         = occ k (List.map refreshKey (refreshing f0))
                         /\ occ k (pendingMod f0) <= 1) ->
              forall k,
                occ k (pendingMod (fold_left (frontExec Out) schedule f0))
                = occ k (List.map refreshKey
                           (refreshing (fold_left (frontExec Out) schedule f0)))
                /\ occ k (pendingMod (fold_left (frontExec Out) schedule f0))
                   <= 1) as G.
    { induction schedule as [|ch schedule IH]; intros f0 I0; [exact I0|].
      simpl fold_left. apply IH. now apply frontExec_keeps. }
    apply G. intros k. cbn [pendingMod refreshing List.map].
    rewrite occ_nil. lia. }
  split; [|split].
  - apply (NoDup_count_occ string_dec). intros k.
    destruct (I k) as [E L]. unfold occ in *. lia.
  - apply (NoDup_count_occ string_dec). intros k.
    destruct (I k) as [E L]. unfold occ in *. lia.
  - intros k. rewrite !(count_occ_In string_dec).
    destruct (I k) as [E L]. unfold occ in *. lia.
Qed.
